(** * Todo-List-App: the task collection engine

    A shallow embedding of the logic of [src/App.tsx] (the collection
    mutators, the localStorage effects and the export), of
    [utils/taskUtils.ts] ([calculateTaskStats], [sortTasks],
    [isTaskOverdue]), of the filter and the view of
    [components/TaskList.tsx] and of the due line of
    [components/TaskCard.tsx], followed by the properties of the
    specification that concern them and by further properties of the code.

    Conventions.
    - A JS [Date] is its time value: [Some t] for [t] milliseconds since
      the epoch, [None] for an Invalid Date (time value NaN).
    - Integral JS numbers (percentages, counts, comparator results) are in
      [Z]; the two floating-point expressions of the program, the
      completion rate and the days until due, are computed in binary64
      with the Standard Library's [SpecFloat].
    - The clock ([new Date()]), the id generator and [window.confirm] are
      inputs of the handlers that read them.
    - A string is a sequence of 8-bit characters: ASCII text, and for
      text beyond ASCII the bytes of its UTF-8 form. *)

From Stdlib Require Import ZArith List String Ascii Bool Lia.
From Stdlib Require Import Permutation Sorted.
From Stdlib Require OrderedTypeEx.
From Stdlib Require Import SpecFloat QArith Qpower Qround Lqa.
Import ListNotations.

Local Open Scope string_scope.
Local Open Scope Z_scope.

(** ** Part I. The embedding *)

(** *** types.ts *)

Inductive TaskStatus := pending | in_progress | completed.
Inductive TaskCategory := work | personal | urgent | other.
Inductive TaskPriority := high | medium | low.

(** ['alphabetical' | 'start_date' | 'due_date' | 'completion' | 'priority'];
    the constructors carry a prefix because [priority] is also a field. *)
Inductive SortOption :=
  by_alphabetical | by_start_date | by_due_date | by_completion | by_priority.

Inductive SortOrder := asc | desc.

Definition Date := option Z.

Record Task := {
  id : string;
  title : string;
  description : string;
  startDate : Date;
  dueDate : Date;
  completionPercentage : Z;
  status : TaskStatus;
  category : TaskCategory;
  priority : TaskPriority;
  isCompleted : bool;
  createdAt : Date;
  updatedAt : Date
}.

(** [TaskFormData]: the two dates are still strings here. *)
Record TaskFormData := {
  form_title : string;
  form_description : string;
  form_startDate : string;
  form_dueDate : string;
  form_category : TaskCategory;
  form_priority : TaskPriority
}.

Definition TaskStatus_eqb (a b : TaskStatus) : bool :=
  match a, b with
  | pending, pending | in_progress, in_progress | completed, completed => true
  | _, _ => false
  end.

(** *** App.tsx: the collection mutators

    Each handler is the function from the current [tasks] to the argument
    of [setTasks]. *)

Section Mutators.

(** [new Date(s)] on a string: [Date.parse], NaN being [None]. *)
Variable Date_parse : string -> option Z.

Definition handleCreateTask (formData : TaskFormData)
    (generatedId : string) (now1 now2 : Z) (tasks : list Task) : list Task :=
  let newTask := {|
    id := generatedId;
    title := form_title formData;
    description := form_description formData;
    startDate := Date_parse (form_startDate formData);
    dueDate := Date_parse (form_dueDate formData);
    completionPercentage := 0;
    status := pending;
    category := form_category formData;
    priority := form_priority formData;
    isCompleted := false;
    createdAt := Some now1;
    updatedAt := Some now2 |} in
  tasks ++ [newTask].

Definition handleDeleteTask (id' : string) (confirmed : bool)
    (tasks : list Task) : list Task :=
  if confirmed
  then filter (fun task => negb (String.eqb (id task) id')) tasks
  else tasks.

Definition toggled (now : Z) (task : Task) : Task :=
  let isCompleted' := negb (isCompleted task) in
  {| id := id task;
     title := title task;
     description := description task;
     startDate := startDate task;
     dueDate := dueDate task;
     completionPercentage :=
       if isCompleted' then 100 else completionPercentage task;
     status :=
       if isCompleted' then completed
       else if 0 <? completionPercentage task then in_progress else pending;
     category := category task;
     priority := priority task;
     isCompleted := isCompleted';
     createdAt := createdAt task;
     updatedAt := Some now |}.

Definition handleToggleComplete (id' : string) (now : Z)
    (tasks : list Task) : list Task :=
  map (fun task => if String.eqb (id task) id' then toggled now task else task)
      tasks.

Definition progressed (progress now : Z) (task : Task) : Task :=
  let status' :=
    if progress =? 100 then completed
    else if 0 <? progress then in_progress else pending in
  {| id := id task;
     title := title task;
     description := description task;
     startDate := startDate task;
     dueDate := dueDate task;
     completionPercentage := progress;
     status := status';
     category := category task;
     priority := priority task;
     isCompleted := progress =? 100;
     createdAt := createdAt task;
     updatedAt := Some now |}.

Definition handleUpdateProgress (id' : string) (progress now : Z)
    (tasks : list Task) : list Task :=
  map (fun task =>
         if String.eqb (id task) id' then progressed progress now task else task)
      tasks.

(** The collections the application can hold: what the four handlers
    build from the initial state [useState<Task[]>([])], the progress
    handler being called with a value of the slider's range. *)
Inductive reachable : list Task -> Prop :=
| reach_initial : reachable []
| reach_create tasks formData generatedId now1 now2 :
    reachable tasks ->
    reachable (handleCreateTask formData generatedId now1 now2 tasks)
| reach_delete tasks id' confirmed :
    reachable tasks -> reachable (handleDeleteTask id' confirmed tasks)
| reach_toggle tasks id' now :
    reachable tasks -> reachable (handleToggleComplete id' now tasks)
| reach_progress tasks id' progress now :
    reachable tasks -> 0 <= progress <= 100 ->
    reachable (handleUpdateProgress id' progress now tasks).

End Mutators.

(** *** utils/taskUtils.ts: calculateTaskStats *)

(** JS numbers are IEEE 754 binary64 values. *)
Definition prec : Z := 53.
Definition emax : Z := 1024.

(** The Number holding an integer: exact below [2^53]. *)
Definition Number_of_Z (z : Z) : spec_float := binary_normalize prec emax z 0 false.

Definition Number_div : spec_float -> spec_float -> spec_float := SFdiv prec emax.
Definition Number_mul : spec_float -> spec_float -> spec_float := SFmul prec emax.

(** [Math.round]: the integer nearest to [x], the larger one of two
    equally near; [None] stands for the results NaN and the infinities. *)
Definition Math_round (x : spec_float) : option Z :=
  match x with
  | S754_zero _ => Some 0
  | S754_finite s m e =>
      let sm := if s then Z.neg m else Z.pos m in
      Some (if 0 <=? e then sm * 2 ^ e else (sm + 2 ^ (- e - 1)) / 2 ^ (- e))
  | S754_infinity _ | S754_nan => None
  end.

(** [Date < Date] compares time values; with NaN on a side it is false. *)
Definition Date_ltb (a b : Date) : bool :=
  match a, b with
  | Some ta, Some tb => ta <? tb
  | _, _ => false
  end.

(** [!task.isCompleted && new Date(task.dueDate) < new Date()] *)
Definition isTaskOverdue (now : Z) (task : Task) : bool :=
  negb (isCompleted task) && Date_ltb (dueDate task) (Some now).

Module Stats.

Record TaskStats := {
  totalTasks : Z;
  completedTasks : Z;
  inProgressTasks : Z;
  pendingTasks : Z;
  overdueTasks : Z;
  completionPercentage : option Z
}.

End Stats.

Definition Array_length {A : Type} (l : list A) : Z := Z.of_nat (List.length l).

(** [now] is the reading of the clock by [new Date()] during the call. *)
Definition calculateTaskStats (now : Z) (tasks : list Task) : Stats.TaskStats :=
  let totalTasks := Array_length tasks in
  let completedTasks := Array_length (filter (fun t => isCompleted t) tasks) in
  let inProgressTasks :=
    Array_length (filter (fun t => TaskStatus_eqb (status t) in_progress) tasks) in
  let pendingTasks :=
    Array_length (filter (fun t => TaskStatus_eqb (status t) pending) tasks) in
  let overdueTasks :=
    Array_length (filter (fun t => negb (isCompleted t) && Date_ltb (dueDate t) (Some now))
                         tasks) in
  let completionPercentage :=
    if 0 <? totalTasks
    then Math_round
           (Number_mul (Number_div (Number_of_Z completedTasks) (Number_of_Z totalTasks))
                       (Number_of_Z 100))
    else Some 0 in
  {| Stats.totalTasks := totalTasks;
     Stats.completedTasks := completedTasks;
     Stats.inProgressTasks := inProgressTasks;
     Stats.pendingTasks := pendingTasks;
     Stats.overdueTasks := overdueTasks;
     Stats.completionPercentage := completionPercentage |}.

(** The rate the specification words: [100 * completed / total] rounded to
    the nearest integer, a half going up. *)
Definition round_half_up_percent (completed total : Z) : Z :=
  (200 * completed + total) / (2 * total).

(** *** components/TaskList.tsx: search and status filter *)

(** [String.prototype.includes]: [search] occurs in [s] at some index. *)
Fixpoint occurs_here (s search : string) : bool :=
  match search, s with
  | EmptyString, _ => true
  | String c search', String d s' => Ascii.eqb c d && occurs_here s' search'
  | String _ _, EmptyString => false
  end.

Fixpoint includes (s search : string) : bool :=
  occurs_here s search ||
  match s with
  | EmptyString => false
  | String _ s' => includes s' search
  end.

(** The state [filterStatus : TaskStatus | 'all']. *)
Inductive StatusFilter := all | only (s : TaskStatus).

Section TaskList.

(** [String.prototype.toLowerCase] and [String.prototype.localeCompare]
    belong to the JS runtime; the pipeline is parametric in them. *)
Variable toLowerCase : string -> string.
Variable localeCompare : string -> string -> Z.

Definition matchesSearch (searchQuery : string) (task : Task) : bool :=
  includes (toLowerCase (title task)) (toLowerCase searchQuery) ||
  includes (toLowerCase (description task)) (toLowerCase searchQuery).

Definition matchesFilter (filterStatus : StatusFilter) (task : Task) : bool :=
  match filterStatus with
  | all => true
  | only s => TaskStatus_eqb (status task) s
  end.

Definition filteredTasks (tasks : list Task) (searchQuery : string)
    (filterStatus : StatusFilter) : list Task :=
  filter (fun task => matchesSearch searchQuery task && matchesFilter filterStatus task)
         tasks.

(** *** utils/taskUtils.ts: sortTasks *)

(** [Array.prototype.sort] with a comparator: the sort is stable
    (ECMAScript 2019), elements [a], [b] with [cmp a b <= 0] keep their
    order. For a consistent comparator the result is the one stable
    ordering, computed here by insertion. *)
Fixpoint insert_sorted {A : Type} (cmp : A -> A -> Z) (x : A) (l : list A) : list A :=
  match l with
  | [] => [x]
  | y :: r => if cmp x y <=? 0 then x :: l else y :: insert_sorted cmp x r
  end.

Definition Array_sort {A : Type} (cmp : A -> A -> Z) (l : list A) : list A :=
  fold_right (insert_sorted cmp) [] l.

(** [const priorityOrder = { high: 3, medium: 2, low: 1 }] *)
Definition priorityOrder (p : TaskPriority) : Z :=
  match p with high => 3 | medium => 2 | low => 1 end.

(** [new Date(a).getTime() - new Date(b).getTime()]; with an Invalid Date
    the difference is NaN, which the sort reads as [+0]. *)
Definition getTime_diff (a b : Date) : Z :=
  match a, b with
  | Some ta, Some tb => ta - tb
  | _, _ => 0
  end.

Definition comparison (sortBy : SortOption) (a b : Task) : Z :=
  match sortBy with
  | by_alphabetical =>
      localeCompare (toLowerCase (title a)) (toLowerCase (title b))
  | by_start_date => getTime_diff (startDate a) (startDate b)
  | by_due_date => getTime_diff (dueDate a) (dueDate b)
  | by_completion => completionPercentage a - completionPercentage b
  | by_priority => priorityOrder (priority b) - priorityOrder (priority a)
  end.

Definition compareTasks (sortBy : SortOption) (order : SortOrder) (a b : Task) : Z :=
  match order with
  | asc => comparison sortBy a b
  | desc => - comparison sortBy a b
  end.

Definition sortTasks (tasks : list Task) (sortBy : SortOption) (order : SortOrder)
    : list Task :=
  let sorted := tasks in
  Array_sort (compareTasks sortBy order) sorted.

End TaskList.

(** The ASCII fragment of [toLowerCase], to run the pipeline on examples. *)
Definition ascii_toLowerCase (c : ascii) : ascii :=
  let n := nat_of_ascii c in
  if (Nat.leb 65 n && Nat.leb n 90)%bool then ascii_of_nat (n + 32) else c.

Fixpoint string_toLowerCase (s : string) : string :=
  match s with
  | EmptyString => EmptyString
  | String c s' => String (ascii_toLowerCase c) (string_toLowerCase s')
  end.

(** The three-task collection of the specification's scenarios. *)
Definition scenario_task (id' title' : string) (st : TaskStatus)
    (pr : TaskPriority) (pct : Z) (done : bool) : Task :=
  {| id := id'; title := title'; description := EmptyString;
     startDate := Some 0; dueDate := Some 0;
     completionPercentage := pct; status := st;
     category := other; priority := pr; isCompleted := done;
     createdAt := Some 0; updatedAt := Some 0 |}.

Definition scenario : list Task :=
  [ scenario_task "1" "Buy milk" pending low 0 false;
    scenario_task "2" "Write report" in_progress high 40 false;
    scenario_task "3" "Pay rent" completed medium 100 true ].

(** *** App.tsx: the localStorage effects *)

#[local] Set Warnings "-register-all".

(** JSON values, as [JSON.parse] returns and [JSON.stringify] reads them;
    of the numbers, the integers. *)
Inductive json :=
| JNull
| JBool (b : bool)
| JNum (n : Z)
| JStr (s : string)
| JArr (items : list json)
| JObj (members : list (string * json)).

(** A stored string, seen through the only two tests the load effect
    performs on it: its truthiness and the outcome of [JSON.parse]. The
    text that [JSON.stringify] writes for a value is the document of that
    value. *)
Inductive text :=
| EmptyText               (* the empty string, which is falsy *)
| Malformed               (* non-empty, [JSON.parse] throws a SyntaxError *)
| Document (v : json).    (* non-empty, [JSON.parse] returns [v] *)

Definition Storage := string -> option text.

Definition getItem (key : string) (localStorage : Storage) : option text :=
  localStorage key.

Definition setItem (key : string) (value : text) (localStorage : Storage) : Storage :=
  fun k => if String.eqb k key then Some value else localStorage k.

Inductive exception := SyntaxError | TypeError.

(** [console.error(message, error)] *)
Inductive console_entry := console_error (message : string) (error : exception).

(** Member lookup; of several members with one name the last one counts. *)
Fixpoint member (key : string) (members : list (string * json)) : option json :=
  match members with
  | [] => None
  | (k, v) :: rest =>
      match member key rest with
      | Some v' => Some v'
      | None => if String.eqb k key then Some v else None
      end
  end.

Definition TaskStatus_toString (s : TaskStatus) : string :=
  match s with
  | pending => "pending" | in_progress => "in_progress" | completed => "completed"
  end.

Definition TaskCategory_toString (c : TaskCategory) : string :=
  match c with
  | work => "work" | personal => "personal" | urgent => "urgent" | other => "other"
  end.

Definition TaskPriority_toString (p : TaskPriority) : string :=
  match p with high => "high" | medium => "medium" | low => "low" end.

Definition TaskStatus_ofString (s : string) : option TaskStatus :=
  if String.eqb s "pending" then Some pending
  else if String.eqb s "in_progress" then Some in_progress
  else if String.eqb s "completed" then Some completed
  else None.

Definition TaskCategory_ofString (s : string) : option TaskCategory :=
  if String.eqb s "work" then Some work
  else if String.eqb s "personal" then Some personal
  else if String.eqb s "urgent" then Some urgent
  else if String.eqb s "other" then Some other
  else None.

Definition TaskPriority_ofString (s : string) : option TaskPriority :=
  if String.eqb s "high" then Some high
  else if String.eqb s "medium" then Some medium
  else if String.eqb s "low" then Some low
  else None.

(** The largest time value of a Date, 8.64e15 ms. *)
Definition maxTime : Z := 8640000000000000.

Definition TimeClip (t : Z) : Date :=
  if Z.abs t <=? maxTime then Some t else None.

Definition bind {A B : Type} (o : option A) (k : A -> option B) : option B :=
  match o with Some a => k a | None => None end.

Notation "x <- o ;; k" := (bind o (fun x => k))
  (at level 61, o at next level, right associativity).

Fixpoint traverse {A B : Type} (f : A -> option B) (l : list A) : option (list B) :=
  match l with
  | [] => Some []
  | a :: r => b <- f a ;; bs <- traverse f r ;; Some (b :: bs)
  end.

Definition is_null (v : json) : bool :=
  match v with JNull => true | _ => false end.

Section Persistence.

(** [Date.prototype.toISOString] on a valid time value, and [Date.parse]
    (NaN being [None]), both of the JS runtime. *)
Variable toISOString : Z -> string.
Variable Date_parse : string -> option Z.

(** [Date.prototype.toJSON]: the ISO string, or [null] for an Invalid Date. *)
Definition Date_toJSON (d : Date) : json :=
  match d with
  | Some t => JStr (toISOString t)
  | None => JNull
  end.

(** What [JSON.stringify] makes of a task, members in property order. *)
Definition Task_toJSON (t : Task) : json :=
  JObj [ ("id", JStr (id t));
         ("title", JStr (title t));
         ("description", JStr (description t));
         ("startDate", Date_toJSON (startDate t));
         ("dueDate", Date_toJSON (dueDate t));
         ("completionPercentage", JNum (completionPercentage t));
         ("status", JStr (TaskStatus_toString (status t)));
         ("category", JStr (TaskCategory_toString (category t)));
         ("priority", JStr (TaskPriority_toString (priority t)));
         ("isCompleted", JBool (isCompleted t));
         ("createdAt", Date_toJSON (createdAt t));
         ("updatedAt", Date_toJSON (updatedAt t)) ].

Definition tasks_toJSON (tasks : list Task) : json :=
  JArr (map Task_toJSON tasks).

(** [localStorage.setItem('tasks', JSON.stringify(tasks))] *)
Definition save (tasks : list Task) (localStorage : Storage) : Storage :=
  setItem "tasks" (Document (tasks_toJSON tasks)) localStorage.

(** [new Date(v)] for a member [v] of a parsed object ([None]: the member
    is missing, [v] is [undefined]). The result is [None] for an array or
    an object, whose conversion goes through their string forms and is
    not modelled. *)
Definition new_Date (v : option json) : option Date :=
  match v with
  | None => Some None
  | Some JNull => Some (Some 0)
  | Some (JBool b) => Some (Some (if b then 1 else 0))
  | Some (JNum n) => Some (TimeClip n)
  | Some (JStr s) => Some (Date_parse s)
  | Some (JArr _) | Some (JObj _) => None
  end.

(** [{...task, startDate: new Date(task.startDate), ...}] for an element
    of the parsed array. The result is [None] when the object built is not
    a [Task] (a member is missing or of another type): the state would
    then hold a value outside the model. *)
Definition revive (task : json) : option Task :=
  match task with
  | JObj ms =>
      match member "id" ms, member "title" ms, member "description" ms,
            member "completionPercentage" ms, member "status" ms,
            member "category" ms, member "priority" ms, member "isCompleted" ms
      with
      | Some (JStr id'), Some (JStr title'), Some (JStr description'),
        Some (JNum pct), Some (JStr st), Some (JStr cat), Some (JStr pr),
        Some (JBool done) =>
          st' <- TaskStatus_ofString st ;;
          cat' <- TaskCategory_ofString cat ;;
          pr' <- TaskPriority_ofString pr ;;
          startDate' <- new_Date (member "startDate" ms) ;;
          dueDate' <- new_Date (member "dueDate" ms) ;;
          createdAt' <- new_Date (member "createdAt" ms) ;;
          updatedAt' <- new_Date (member "updatedAt" ms) ;;
          Some {| id := id'; title := title'; description := description';
                  startDate := startDate'; dueDate := dueDate';
                  completionPercentage := pct; status := st';
                  category := cat'; priority := pr'; isCompleted := done;
                  createdAt := createdAt'; updatedAt := updatedAt' |}
      | _, _, _, _, _, _, _, _ => None
      end
  | _ => None
  end.

(** The load effect, run once on the initial state [tasks = []]: the
    state it leaves and what it wrote to the console. Reading a member of
    a [null] element, or [map] of a value that is no array, throws a
    TypeError inside the [try]; [None] marks a document outside the model
    (see [revive]). *)
Definition load (localStorage : Storage) : option (list Task * list console_entry) :=
  match getItem "tasks" localStorage with
  | None => Some ([], [])
  | Some EmptyText => Some ([], [])
  | Some Malformed =>
      Some ([], [console_error "Error loading tasks:" SyntaxError])
  | Some (Document (JArr items)) =>
      if existsb is_null items
      then Some ([], [console_error "Error loading tasks:" TypeError])
      else tasks <- traverse revive items ;; Some (tasks, [])
  | Some (Document _) =>
      Some ([], [console_error "Error loading tasks:" TypeError])
  end.

End Persistence.

(** A Date that holds an instant: a time value within the range of Date. *)
Definition valid_Date (d : Date) : Prop :=
  exists t, d = Some t /\ - maxTime <= t <= maxTime.

Definition valid_dates (t : Task) : Prop :=
  valid_Date (startDate t) /\ valid_Date (dueDate t) /\
  valid_Date (createdAt t) /\ valid_Date (updatedAt t).

(** The three-way agreement the data model asks of a task. *)
Definition consistent (t : Task) : Prop :=
  (completionPercentage t = 100 <-> isCompleted t = true) /\
  (isCompleted t = true <-> status t = completed).


(** *** An instance of the runtime: ISO 8601 date-time strings

    [Date.prototype.toISOString] and [Date.parse] following the day and
    year arithmetic of ECMAScript, to run the persistence effects. *)

Module ISO8601.

Definition msPerDay : Z := 86400000.

Definition DayFromYear (y : Z) : Z :=
  365 * (y - 1970) + (y - 1969) / 4 - (y - 1901) / 100 + (y - 1601) / 400.

Definition InLeapYear (y : Z) : Z :=
  if (y mod 4 =? 0) && (negb (y mod 100 =? 0) || (y mod 400 =? 0)) then 1 else 0.

Definition YearFromDay (day : Z) : Z :=
  let y0 := 1970 + (400 * day) / 146097 in
  if day <? DayFromYear y0 then y0 - 1
  else if DayFromYear (y0 + 1) <=? day then y0 + 1
  else y0.

(** The day within the year on which month [m] (0 to 11) starts. *)
Definition month_start (leap m : Z) : Z :=
  match m with
  | 0 => 0 | 1 => 31
  | 2 => 59 + leap | 3 => 90 + leap | 4 => 120 + leap | 5 => 151 + leap
  | 6 => 181 + leap | 7 => 212 + leap | 8 => 243 + leap | 9 => 273 + leap
  | 10 => 304 + leap | _ => 334 + leap
  end.

Definition MonthFromDay (leap d : Z) : Z :=
  if d <? 31 then 0 else if d <? 59 + leap then 1
  else if d <? 90 + leap then 2 else if d <? 120 + leap then 3
  else if d <? 151 + leap then 4 else if d <? 181 + leap then 5
  else if d <? 212 + leap then 6 else if d <? 243 + leap then 7
  else if d <? 273 + leap then 8 else if d <? 304 + leap then 9
  else if d <? 334 + leap then 10 else 11.

Definition digit (k : Z) : ascii := ascii_of_nat (48 + Z.to_nat k).

(** [x] in [n] decimal digits. *)
Fixpoint pad (n : nat) (x : Z) : string :=
  match n with
  | O => EmptyString
  | S n' => pad n' (x / 10) ++ String (digit (x mod 10)) EmptyString
  end.

Definition toISOString (t : Z) : string :=
  let day := t / msPerDay in
  let tod := t mod msPerDay in
  let y := YearFromDay day in
  let leap := InLeapYear y in
  let doy := day - DayFromYear y in
  let m := MonthFromDay leap doy in
  let d := doy - month_start leap m + 1 in
  let year :=
    if (0 <=? y) && (y <=? 9999) then pad 4 y
    else (if y <? 0 then "-" else "+") ++ pad 6 (Z.abs y) in
  year ++ "-" ++ pad 2 (m + 1) ++ "-" ++ pad 2 d ++ "T"
       ++ pad 2 (tod / 3600000) ++ ":" ++ pad 2 (tod / 60000 mod 60) ++ ":"
       ++ pad 2 (tod / 1000 mod 60) ++ "." ++ pad 3 (tod mod 1000) ++ "Z".

Definition digit_value (c : ascii) : option Z :=
  let n := nat_of_ascii c in
  if (Nat.leb 48 n && Nat.leb n 57)%bool then Some (Z.of_nat n - 48) else None.

(** Read [n] decimal digits, most significant first. *)
Fixpoint digits (n : nat) (acc : Z) (s : string) : option (Z * string) :=
  match n with
  | O => Some (acc, s)
  | S n' =>
      match s with
      | String c s' => v <- digit_value c ;; digits n' (10 * acc + v) s'
      | EmptyString => None
      end
  end.

Definition expect (c : ascii) (s : string) : option string :=
  match s with
  | String d s' => if Ascii.eqb c d then Some s' else None
  | EmptyString => None
  end.

Definition in_range (lo hi x : Z) : bool := (lo <=? x) && (x <=? hi).

(** A field out of its range makes the string illegal; so does a month
    or a day of 00. *)
Definition parse_fields (year_digits : nat) (sign : Z) (s : string) : option Z :=
  r <- digits year_digits 0 s ;; let (y, s) := r in
  s <- expect "-" s ;;
  r <- digits 2 0 s ;; let (mo, s) := r in
  s <- expect "-" s ;;
  r <- digits 2 0 s ;; let (d, s) := r in
  if negb (in_range 1 12 mo && in_range 1 31 d) then None else
  let y' := sign * y in
  let day := DayFromYear y' + month_start (InLeapYear y') (mo - 1) + d - 1 in
  match s with
  | EmptyString => TimeClip (day * msPerDay)
  | String _ _ =>
      s <- expect "T" s ;;
      r <- digits 2 0 s ;; let (h, s) := r in
      s <- expect ":" s ;;
      r <- digits 2 0 s ;; let (mi, s) := r in
      s <- expect ":" s ;;
      r <- digits 2 0 s ;; let (sec, s) := r in
      s <- expect "." s ;;
      r <- digits 3 0 s ;; let (ms, s) := r in
      s <- expect "Z" s ;;
      if negb (in_range 0 23 h && in_range 0 59 mi && in_range 0 59 sec) then None else
      match s with
      | EmptyString =>
          TimeClip (day * msPerDay + h * 3600000 + mi * 60000 + sec * 1000 + ms)
      | String _ _ => None
      end
  end.

(** [Date.parse] on the two forms of the Date Time String Format that the
    application meets: the date-only form of a date input (UTC midnight)
    and the form that [toISOString] writes. *)
Definition parse (s : string) : option Z :=
  match s with
  | String "+" s' => parse_fields 6 1 s'
  | String "-" s' => parse_fields 6 (-1) s'
  | _ => parse_fields 4 1 s
  end.

End ISO8601.
(** *** An instance of the runtime: lower-casing

    [String.prototype.toLowerCase] on text whose letters are ASCII or
    Greek (U+0391 to U+03C9), following the Unicode default case
    conversion that ECMAScript prescribes: a capital letter goes to its
    small letter, and a capital sigma goes to the final sigma when a cased
    letter stands before it and none after it (SpecialCasing, Final_Sigma).
    A string is held as the bytes of its UTF-8 form, a Greek letter taking
    two; an occurrence of one well-formed string in another is the same in
    bytes as in code units. Case-ignorable characters next to a sigma, and
    characters of three or four bytes, are outside this instance. *)

Module SpecialCasing.

(** The code points of the one- and two-byte characters of [s]. *)
Fixpoint decode (s : string) : list Z :=
  match s with
  | EmptyString => []
  | String b r =>
      let n := Z.of_nat (nat_of_ascii b) in
      match r with
      | String b' r' =>
          let n' := Z.of_nat (nat_of_ascii b') in
          if (192 <=? n) && (n <=? 223) && (128 <=? n') && (n' <=? 191)
          then ((n - 192) * 64 + (n' - 128)) :: decode r'
          else n :: decode r
      | EmptyString => [n]
      end
  end.

Definition encode_point (c : Z) : string :=
  if c <? 128
  then String (ascii_of_nat (Z.to_nat c)) EmptyString
  else String (ascii_of_nat (Z.to_nat (192 + c / 64)))
         (String (ascii_of_nat (Z.to_nat (128 + c mod 64))) EmptyString).

Fixpoint encode (l : list Z) : string :=
  match l with
  | [] => EmptyString
  | c :: r => encode_point c ++ encode r
  end.

(** A to Z, and Alpha (U+0391) to Omega (U+03A9); U+03A2 is no letter. *)
Definition is_capital (c : Z) : bool :=
  ((65 <=? c) && (c <=? 90)) || ((913 <=? c) && (c <=? 937) && negb (c =? 930)).

(** a to z, and alpha (U+03B1) to omega (U+03C9), final sigma included. *)
Definition is_small (c : Z) : bool :=
  ((97 <=? c) && (c <=? 122)) || ((945 <=? c) && (c <=? 969)).

Definition is_cased (c : Z) : bool := is_capital c || is_small c.

Definition capital_sigma : Z := 931.
Definition final_sigma : Z := 962.

Definition lower_point (c : Z) : Z := if is_capital c then c + 32 else c.

(** [after_cased]: the character before the head of [l] is a cased
    letter. *)
Fixpoint lower_points (after_cased : bool) (l : list Z) : list Z :=
  match l with
  | [] => []
  | c :: r =>
      let before_cased :=
        match r with
        | c' :: _ => is_cased c'
        | [] => false
        end in
      (if (c =? capital_sigma) && after_cased && negb before_cased
       then final_sigma
       else lower_point c)
      :: lower_points (is_cased c) r
  end.

Definition toLowerCase (s : string) : string :=
  encode (lower_points false (decode s)).

End SpecialCasing.


(** *** Vocabulary of the properties *)

(** What every mutation keeps: the flag and the label agree, and a
    completed task stands at 100. *)
Definition flag_agrees (t : Task) : Prop :=
  (isCompleted t = true <-> status t = completed) /\
  (isCompleted t = true -> completionPercentage t = 100) /\
  0 <= completionPercentage t <= 100.

(** Text of ASCII characters. *)
Fixpoint ASCII (s : string) : Prop :=
  match s with
  | EmptyString => True
  | String c s' => (nat_of_ascii c < 128)%nat /\ ASCII s'
  end.

(** Two characters that are one letter, in the same case or not: the
    same character, or a capital of A to Z and the small letter 32 places
    on. *)
Definition same_letter (c d : ascii) : Prop :=
  c = d \/
  ((65 <= nat_of_ascii c <= 90)%nat /\ nat_of_ascii d = (nat_of_ascii c + 32)%nat) \/
  ((65 <= nat_of_ascii d <= 90)%nat /\ nat_of_ascii c = (nat_of_ascii d + 32)%nat).

(** Two strings that spell the same, letter by letter, whatever the case. *)
Fixpoint same_ignoring_case (a b : string) : Prop :=
  match a, b with
  | EmptyString, EmptyString => True
  | String c a', String d b' => same_letter c d /\ same_ignoring_case a' b'
  | _, _ => False
  end.

(** [needle] is a case-insensitive substring of [hay]: a stretch of [hay]
    spells [needle] up to the case of its letters. *)
Definition contains_case_insensitively (hay needle : string) : Prop :=
  exists pre mid post, hay = pre ++ mid ++ post /\ same_ignoring_case mid needle.

(** The order in which a sort by [key] leaves two elements. *)
Definition key_le {A : Type} (key : A -> Z) (a b : A) : Prop := key a <= key b.

(** Powers of two as rationals, to give Numbers their values. *)
Definition bpow (e : Z) : Q := (2 ^ e)%Q.

(** The place of a rational [u] between the integers [m] and [m + 1], as
    the rounding of [SpecFloat] records it. *)
Definition inb (m : Z) (l : location) (u : Q) : Prop :=
  match l with
  | loc_Exact => (u == inject_Z m)%Q
  | loc_Inexact Lt => (inject_Z m < u /\ u < inject_Z m + (1 # 2))%Q
  | loc_Inexact Eq => (u == inject_Z m + (1 # 2))%Q
  | loc_Inexact Gt => (inject_Z m + (1 # 2) < u /\ u < inject_Z m + 1)%Q
  end.

(** The non-negative Number of mantissa [m3] and exponent [e3]. *)
Definition of_mantissa (m3 e3 : Z) : spec_float :=
  match m3 with
  | Z0 => S754_zero false
  | Z.pos p => S754_finite false p e3
  | Z.neg _ => S754_nan
  end.

(** [Math.round((completed / total) * 100)] *)
Definition completion_rate (c t : Z) : option Z :=
  Math_round (Number_mul (Number_div (Number_of_Z c) (Number_of_Z t)) (Number_of_Z 100)).

(** The number of elements of [l] that satisfy [p]. *)
Fixpoint count_if {A : Type} (p : A -> bool) (l : list A) : Z :=
  match l with
  | [] => 0
  | a :: r => (if p a then 1 else 0) + count_if p r
  end.

(** Forty tasks, twenty-three of them completed. *)
Definition forty_tasks : list Task :=
  (repeat (scenario_task "d" "done" completed low 100 true) 23
   ++ repeat (scenario_task "p" "open" pending low 0 false) 17)%list.

(** *** Sample data for the worked instances *)

(** A task under the Greek title Alpha, Sigma, Beta, and the query Alpha,
    Sigma: its first two letters. *)
Definition greek_title : string := SpecialCasing.encode [913; 931; 914].
Definition greek_query : string := SpecialCasing.encode [913; 931].

Definition greek_task : Task :=
  {| id := "1705312800123-k3j9x2q1a"; title := greek_title;
     description := EmptyString;
     startDate := Some 1705276800000; dueDate := Some 1705881600000;
     completionPercentage := 0; status := pending;
     category := personal; priority := low; isCompleted := false;
     createdAt := Some 1705312800123; updatedAt := Some 1705312800123 |}.


Definition empty_storage : Storage := fun _ => None.

Definition sample_form : TaskFormData :=
  {| form_title := "Buy milk"; form_description := "two litres";
     form_startDate := "2024-01-15"; form_dueDate := "2024-01-22";
     form_category := personal; form_priority := low |}.

(** One task created on 15 January 2024 at 10:00:00.123 UTC. *)
Definition created_once : list Task :=
  handleCreateTask ISO8601.parse sample_form "1705312800123-k3j9x2q1a"
    1705312800123 1705312800123 [].

(** The same task checked two seconds later and unchecked one second after. *)
Definition checked_then_unchecked : list Task :=
  handleToggleComplete "1705312800123-k3j9x2q1a" 1705312803000
    (handleToggleComplete "1705312800123-k3j9x2q1a" 1705312802000 created_once).

(** The task that [checked_then_unchecked] holds. *)
Definition unchecked_task : Task :=
  {| id := "1705312800123-k3j9x2q1a"; title := "Buy milk";
     description := "two litres";
     startDate := Some 1705276800000; dueDate := Some 1705881600000;
     completionPercentage := 100; status := in_progress;
     category := personal; priority := low; isCompleted := false;
     createdAt := Some 1705312800123; updatedAt := Some 1705312803000 |}.

(** A form whose start date was left empty. *)
Definition form_without_start : TaskFormData :=
  {| form_title := "Call back"; form_description := EmptyString;
     form_startDate := EmptyString; form_dueDate := "2024-01-22";
     form_category := work; form_priority := medium |}.

Definition created_without_start : list Task :=
  handleCreateTask ISO8601.parse form_without_start "1705312800123-k3j9x2q1a"
    1705312800123 1705312800123 [].

(** *** Vocabulary of the further properties *)

(** The fields that no handler but create ever writes. *)
Definition identity_fields (t : Task) :=
  (id t, title t, description t, startDate t, dueDate t, category t, priority t,
   createdAt t).

(** What two toggles in a row leave of a task: the flag it had, 100
    percent, and the status that goes with the flag. *)
Definition toggled_twice (now : Z) (task : Task) : Task :=
  {| id := id task;
     title := title task;
     description := description task;
     startDate := startDate task;
     dueDate := dueDate task;
     completionPercentage := 100;
     status := if isCompleted task then completed else in_progress;
     category := category task;
     priority := priority task;
     isCompleted := isCompleted task;
     createdAt := createdAt task;
     updatedAt := Some now |}.

(** The collections built while the clock never runs backwards;
    [reachable_by now] holds the last reading. *)
Inductive reachable_by (Date_parse : string -> option Z) : Z -> list Task -> Prop :=
| by_initial now : reachable_by Date_parse now []
| by_create now tasks formData generatedId now1 now2 :
    reachable_by Date_parse now tasks -> now <= now1 -> now1 <= now2 ->
    reachable_by Date_parse now2
      (handleCreateTask Date_parse formData generatedId now1 now2 tasks)
| by_delete now tasks id' confirmed :
    reachable_by Date_parse now tasks ->
    reachable_by Date_parse now (handleDeleteTask id' confirmed tasks)
| by_toggle now tasks id' now' :
    reachable_by Date_parse now tasks -> now <= now' ->
    reachable_by Date_parse now' (handleToggleComplete id' now' tasks)
| by_progress now tasks id' progress now' :
    reachable_by Date_parse now tasks -> now <= now' ->
    reachable_by Date_parse now' (handleUpdateProgress id' progress now' tasks).

(** A task stamped in order: created no later than updated, updated no
    later than [now]. *)
Definition stamped_by (now : Z) (t : Task) : Prop :=
  exists c u, createdAt t = Some c /\ updatedAt t = Some u /\ c <= u /\ u <= now.

(** Dates in chronological order, both valid. *)
Definition Date_le (a b : Date) : Prop :=
  match a, b with
  | Some ta, Some tb => ta <= tb
  | _, _ => False
  end.

Definition has_Date (d : Date) : Prop := exists t, d = Some t.

(** A comparator that orders strings by their code units, the order a
    runtime without collation data falls back to. *)
Definition codeunit_compare (a b : string) : Z :=
  match String.compare a b with
  | Lt => -1
  | Eq => 0
  | Gt => 1
  end.

Section TaskListView.

Variable toLowerCase : string -> string.
Variable localeCompare : string -> string -> Z.

(** components/TaskList.tsx: [const sortedTasks = sortTasks(filteredTasks,
    sortBy, sortOrder)], the list the component renders. *)
Definition sortedTasks (tasks : list Task) (searchQuery : string)
    (filterStatus : StatusFilter) (sortBy : SortOption) (sortOrder : SortOrder)
    : list Task :=
  sortTasks toLowerCase localeCompare
    (filteredTasks toLowerCase tasks searchQuery filterStatus) sortBy sortOrder.

(** [Showing {sortedTasks.length} of {tasks.length} tasks] *)
Definition showing (tasks : list Task) (searchQuery : string)
    (filterStatus : StatusFilter) (sortBy : SortOption) (sortOrder : SortOrder)
    : Z * Z :=
  (Array_length (sortedTasks tasks searchQuery filterStatus sortBy sortOrder),
   Array_length tasks).

End TaskListView.

(** [a.getTime() === b.getTime()]; false with an Invalid Date on a side. *)
Definition Date_eqb (a b : Date) : bool :=
  match a, b with
  | Some ta, Some tb => ta =? tb
  | _, _ => false
  end.

(** What the load effect makes of a date that was saved: an Invalid Date
    was written as [null], and [new Date(null)] is the epoch. *)
Definition reloaded_Date (d : Date) : Date :=
  match d with
  | Some t => Some t
  | None => Some 0
  end.

Definition reloaded (task : Task) : Task :=
  {| id := id task;
     title := title task;
     description := description task;
     startDate := reloaded_Date (startDate task);
     dueDate := reloaded_Date (dueDate task);
     completionPercentage := completionPercentage task;
     status := status task;
     category := category task;
     priority := priority task;
     isCompleted := isCompleted task;
     createdAt := reloaded_Date (createdAt task);
     updatedAt := reloaded_Date (updatedAt task) |}.

(** A Date as the runtime can hold it: Invalid, or an instant in range. *)
Definition Date_in_range (d : Date) : Prop :=
  forall t, d = Some t -> - maxTime <= t <= maxTime.

Definition dates_in_range (t : Task) : Prop :=
  Date_in_range (startDate t) /\ Date_in_range (dueDate t) /\
  Date_in_range (createdAt t) /\ Date_in_range (updatedAt t).

(** [isNaN(d.getTime())] *)
Definition Date_isInvalid (d : Date) : bool :=
  match d with
  | Some _ => false
  | None => true
  end.

(** [s.split('T')[0]]: what stands before the first [T], or all of [s]. *)
Fixpoint split_T_0 (s : string) : string :=
  match s with
  | EmptyString => EmptyString
  | String c s' => if Ascii.eqb c "T" then EmptyString else String c (split_T_0 s')
  end.

Section ExportTasks.

Variable toISOString : Z -> string.

(** [link.download = `tasks-${new Date().toISOString().split('T')[0]}.json`] *)
Definition link_download (now : Z) : string :=
  "tasks-" ++ split_T_0 (toISOString now) ++ ".json".

(** App.tsx, handleExportTasks: the document that [JSON.stringify(tasks,
    null, 2)] writes, offered for download under that name. *)
Definition handleExportTasks (now : Z) (tasks : list Task) : text * string :=
  (Document (tasks_toJSON toISOString tasks), link_download now).

End ExportTasks.

(** *** components/TaskCard.tsx *)

Definition Number_sub : spec_float -> spec_float -> spec_float := SFsub prec emax.

(** [Math.ceil]: the least integer not below [x]; [None] stands for the
    results NaN and the infinities. For [x] in (-1, 0) the result is the
    negative zero, which compares and prints as zero. *)
Definition Math_ceil (x : spec_float) : option Z :=
  match x with
  | S754_zero _ => Some 0
  | S754_finite s m e =>
      let sm := if s then Z.neg m else Z.pos m in
      Some (if 0 <=? e then sm * 2 ^ e else - ((- sm) / 2 ^ (- e)))
  | S754_infinity _ | S754_nan => None
  end.

(** [Math.ceil((new Date(task.dueDate).getTime() - new Date().getTime()) /
    (1000 * 60 * 60 * 24))]; NaN with an Invalid Date as due date. *)
Definition daysUntilDue (now : Z) (task : Task) : option Z :=
  match dueDate task with
  | Some due =>
      Math_ceil (Number_div (Number_sub (Number_of_Z due) (Number_of_Z now))
                            (Number_of_Z (1000 * 60 * 60 * 24)))
  | None => None
  end.

(** [!task.isCompleted && daysUntilDue >= 0 && daysUntilDue <= 7 && <div>Due
    in {daysUntilDue} {daysUntilDue === 1 ? 'day' : 'days'}</div>]: the
    number and the noun of the line, [None] when it is not rendered. *)
Definition due_in_line (now : Z) (task : Task) : option (Z * string) :=
  match daysUntilDue now task with
  | Some n =>
      if negb (isCompleted task) && (0 <=? n) && (n <=? 7)
      then Some (n, if n =? 1 then "day" else "days")
      else None
  | None => None
  end.

(** The Number of sign [s] and magnitude [z], an integer of at most 53
    bits: 53 bits of mantissa, the exponent that goes with them. *)
Definition Number_canonical (s : bool) (z : Z) : spec_float :=
  S754_finite s (Z.to_pos (z * 2 ^ (53 - Zdigits2 z))) (Zdigits2 z - 53).

(** *** utils/taskUtils.ts: calculateTaskStats under a running clock

    [new Date()] stands in the callback of the overdue filter, behind
    [!t.isCompleted &&]: the clock is read once for every task that is
    not completed, in the order of the array. [clock k] is reading number
    [k] of the call, [k] counted from 0. *)
Fixpoint overdue_filter (clock : nat -> Z) (k : nat) (tasks : list Task) : list Task :=
  match tasks with
  | [] => []
  | t :: rest =>
      if isCompleted t then overdue_filter clock k rest
      else if Date_ltb (dueDate t) (Some (clock k))
           then t :: overdue_filter clock (S k) rest
           else overdue_filter clock (S k) rest
  end.

Definition calculateTaskStats_running (clock : nat -> Z) (tasks : list Task)
    : Stats.TaskStats :=
  let totalTasks := Array_length tasks in
  let completedTasks := Array_length (filter (fun t => isCompleted t) tasks) in
  let inProgressTasks :=
    Array_length (filter (fun t => TaskStatus_eqb (status t) in_progress) tasks) in
  let pendingTasks :=
    Array_length (filter (fun t => TaskStatus_eqb (status t) pending) tasks) in
  let overdueTasks := Array_length (overdue_filter clock 0 tasks) in
  let completionPercentage :=
    if 0 <? totalTasks
    then Math_round
           (Number_mul (Number_div (Number_of_Z completedTasks) (Number_of_Z totalTasks))
                       (Number_of_Z 100))
    else Some 0 in
  {| Stats.totalTasks := totalTasks;
     Stats.completedTasks := completedTasks;
     Stats.inProgressTasks := inProgressTasks;
     Stats.pendingTasks := pendingTasks;
     Stats.overdueTasks := overdueTasks;
     Stats.completionPercentage := completionPercentage |}.

(** Two tasks due at 5 and at 4, for a clock that reads 5, then 6. *)
Definition due_at (id' : string) (due : Z) : Task :=
  {| id := id'; title := id'; description := EmptyString;
     startDate := Some 0; dueDate := Some due;
     completionPercentage := 0; status := pending;
     category := other; priority := low; isCompleted := false;
     createdAt := Some 0; updatedAt := Some 0 |}.

(** ** Part II. Properties *)

(** *** The collection mutators *)

Section MutatorFacts.

Variable Date_parse : string -> option Z.

Lemma toggled_id now t : id (toggled now t) = id t.
Proof. reflexivity. Qed.

Lemma progressed_id p now t : id (progressed p now t) = id t.
Proof. reflexivity. Qed.

Lemma toggled_flag_agrees now t : flag_agrees t -> flag_agrees (toggled now t).
Proof.
  unfold flag_agrees, toggled; simpl.
  intros (Hs & Hp & Hr).
  destruct (isCompleted t); simpl.
  - destruct (0 <? completionPercentage t);
      repeat split; intros; try discriminate; lia.
  - repeat split; intros; auto; lia.
Qed.

Lemma progressed_flag_agrees p now t :
  0 <= p <= 100 -> flag_agrees (progressed p now t).
Proof.
  unfold flag_agrees, progressed; simpl. intros Hp.
  destruct (Z.eqb_spec p 100) as [->|Hne].
  - repeat split; intros; auto; lia.
  - destruct (0 <? p); repeat split; intros; try discriminate; lia.
Qed.

Lemma reachable_Forall_flag_agrees tasks :
  reachable Date_parse tasks -> Forall flag_agrees tasks.
Proof.
  induction 1 as [|tasks fd gid n1 n2 _ IH|tasks i c _ IH
                  |tasks i now _ IH|tasks i p now _ IH Hp].
  - constructor.
  - unfold handleCreateTask. apply Forall_app. split; [exact IH|].
    constructor; [|constructor].
    unfold flag_agrees; simpl.
    repeat split; intros; try discriminate; lia.
  - unfold handleDeleteTask. destruct c; [|exact IH].
    rewrite Forall_forall in *. intros t Ht.
    apply filter_In in Ht. apply IH, Ht.
  - unfold handleToggleComplete. rewrite Forall_map.
    eapply Forall_impl; [|exact IH]. intros t Ht.
    destruct (String.eqb (id t) i); auto using toggled_flag_agrees.
  - unfold handleUpdateProgress. rewrite Forall_map.
    eapply Forall_impl; [|exact IH]. intros t Ht.
    destruct (String.eqb (id t) i); auto using progressed_flag_agrees.
Qed.

End MutatorFacts.

Section MutatorClaims.

Variable Date_parse : string -> option Z.

(** C1 (as amended). In every collection the handlers can build, a task's
    completion flag is set exactly when its status is [completed], and a
    task whose flag is set stands at 100 percent (all percentages staying
    within 0..100). The converse, from 100 percent to the flag, is not
    part of it: unchecking a completed task leaves it at 100. *)
Theorem C1_reachable_flag_status_agree (tasks : list Task) (t : Task) :
  reachable Date_parse tasks -> In t tasks ->
  (isCompleted t = true <-> status t = completed) /\
  (isCompleted t = true -> completionPercentage t = 100) /\
  0 <= completionPercentage t <= 100.
Proof.
  intros Hr Hin.
  pose proof (reachable_Forall_flag_agrees Date_parse tasks Hr) as HF.
  rewrite Forall_forall in HF. exact (HF t Hin).
Qed.

(** C2. With [progress] in 0..100 and [id'] present, [handleUpdateProgress]
    keeps the length and the order of the collection; at every position
    holding a task with that id the new task has the given percentage, the
    status that percentage dictates, the flag [progress = 100], the new
    [updatedAt] and all other fields as before; every other position is
    unchanged. *)
Theorem C2_updateProgress_spec (tasks : list Task) (id' : string) (progress now : Z) :
  0 <= progress <= 100 ->
  In id' (map id tasks) ->
  let tasks' := handleUpdateProgress id' progress now tasks in
  List.length tasks' = List.length tasks /\
  (exists i t', nth_error tasks' i = Some t' /\ id t' = id' /\
                completionPercentage t' = progress) /\
  forall i t, nth_error tasks i = Some t ->
    exists t', nth_error tasks' i = Some t' /\
      (id t <> id' -> t' = t) /\
      (id t = id' ->
         completionPercentage t' = progress /\
         (progress = 100 -> status t' = completed) /\
         (0 < progress < 100 -> status t' = in_progress) /\
         (progress = 0 -> status t' = pending) /\
         isCompleted t' = (progress =? 100) /\
         updatedAt t' = Some now /\
         id t' = id t /\ title t' = title t /\ description t' = description t /\
         startDate t' = startDate t /\ dueDate t' = dueDate t /\
         category t' = category t /\ priority t' = priority t /\
         createdAt t' = createdAt t).
Proof.
  intros Hp Hin tasks'. subst tasks'. unfold handleUpdateProgress.
  split; [apply length_map|]. split.
  - apply in_map_iff in Hin. destruct Hin as (t & Hid & Ht).
    apply In_nth_error in Ht. destruct Ht as (i & Hi).
    exists i, (progressed progress now t).
    rewrite nth_error_map, Hi. simpl.
    apply String.eqb_eq in Hid. rewrite Hid.
    apply String.eqb_eq in Hid. auto.
  - intros i t Hi. rewrite nth_error_map, Hi. simpl.
    destruct (String.eqb_spec (id t) id') as [He|Hne].
    + exists (progressed progress now t). split; [reflexivity|].
      split; [intros Hc; contradiction|]. intros _.
      unfold progressed; simpl.
      repeat split; intros.
      * subst progress. reflexivity.
      * destruct (Z.eqb_spec progress 100); [lia|].
        destruct (Z.ltb_spec 0 progress); [reflexivity|lia].
      * subst progress. reflexivity.
    + exists t. split; [reflexivity|]. split; [reflexivity|].
      intros Hc; contradiction.
Qed.

(** C3. With [id'] present, [handleToggleComplete] flips the flag of each
    task with that id; a flag that becomes true comes with 100 percent and
    status [completed], whatever the percentage was; a flag that becomes
    false leaves the percentage alone and gives [in_progress] above zero,
    [pending] otherwise; [updatedAt] is the new instant in both cases. *)
Theorem C3_toggleComplete_spec (tasks : list Task) (id' : string) (now : Z) :
  In id' (map id tasks) ->
  let tasks' := handleToggleComplete id' now tasks in
  List.length tasks' = List.length tasks /\
  (exists i t', nth_error tasks' i = Some t' /\ id t' = id' /\
                updatedAt t' = Some now) /\
  forall i t, nth_error tasks i = Some t -> id t = id' ->
    exists t', nth_error tasks' i = Some t' /\
      isCompleted t' = negb (isCompleted t) /\
      (isCompleted t' = true ->
         completionPercentage t' = 100 /\ status t' = completed) /\
      (isCompleted t' = false ->
         completionPercentage t' = completionPercentage t /\
         (0 < completionPercentage t -> status t' = in_progress) /\
         (completionPercentage t <= 0 -> status t' = pending)) /\
      updatedAt t' = Some now.
Proof.
  intros Hin tasks'. subst tasks'. unfold handleToggleComplete.
  split; [apply length_map|]. split.
  - apply in_map_iff in Hin. destruct Hin as (t & Hid & Ht).
    apply In_nth_error in Ht. destruct Ht as (i & Hi).
    exists i, (toggled now t).
    rewrite nth_error_map, Hi. simpl.
    apply String.eqb_eq in Hid. rewrite Hid.
    apply String.eqb_eq in Hid. auto.
  - intros i t Hi Hid. rewrite nth_error_map, Hi. simpl.
    apply String.eqb_eq in Hid. rewrite Hid.
    exists (toggled now t). split; [reflexivity|].
    unfold toggled; simpl.
    destruct (isCompleted t); simpl.
    + repeat split; intros; try discriminate.
      * destruct (Z.ltb_spec 0 (completionPercentage t)); [reflexivity|lia].
      * destruct (Z.ltb_spec 0 (completionPercentage t)); [lia|reflexivity].
    + repeat split; intros; discriminate.
Qed.

(** C8. An id that no task carries makes delete, toggle and update return
    the very collection they were given; and whatever the collection, a
    second delete of an id just deleted returns its input. *)
Theorem C8_missing_id_noop (tasks : list Task) (id' : string) :
  (~ In id' (map id tasks) ->
   forall (confirmed : bool) (progress now : Z),
     handleDeleteTask id' confirmed tasks = tasks /\
     handleToggleComplete id' now tasks = tasks /\
     handleUpdateProgress id' progress now tasks = tasks) /\
  (forall confirmed : bool,
     handleDeleteTask id' confirmed (handleDeleteTask id' true tasks)
     = handleDeleteTask id' true tasks).
Proof.
  split.
  - intros Hnot confirmed progress now.
    assert (Hall : forall t, In t tasks -> String.eqb (id t) id' = false).
    { intros t Ht. apply String.eqb_neq. intros He. apply Hnot.
      apply in_map_iff. exists t. auto. }
    repeat split.
    + unfold handleDeleteTask. destruct confirmed; [|reflexivity].
      apply forallb_filter_id. apply forallb_forall.
      intros t Ht. rewrite (Hall t Ht). reflexivity.
    + unfold handleToggleComplete. rewrite <- (map_id tasks) at 2.
      apply map_ext_in. intros t Ht. rewrite (Hall t Ht). reflexivity.
    + unfold handleUpdateProgress. rewrite <- (map_id tasks) at 2.
      apply map_ext_in. intros t Ht. rewrite (Hall t Ht). reflexivity.
  - intros confirmed. unfold handleDeleteTask.
    destruct confirmed; [|reflexivity].
    apply forallb_filter_id. apply forallb_forall.
    intros t Ht. apply filter_In in Ht. apply Ht.
Qed.

End MutatorClaims.


(** *** The collection mutators, continued *)

Section MutatorLaws.

Variable Date_parse : string -> option Z.

Lemma delete_keeps_others (id' : string) (tasks : list Task) :
  ~ In id' (map id tasks) ->
  filter (fun task => negb (String.eqb (id task) id')) tasks = tasks.
Proof.
  intros Hnot. apply forallb_filter_id, forallb_forall. intros t Ht.
  apply negb_true_iff, String.eqb_neq. intros He. apply Hnot.
  apply in_map_iff. exists t. auto.
Qed.

(** X1. Creating a task under an id that no task carries and deleting that id
    again gives back the collection. *)
Theorem create_then_delete (formData : TaskFormData) (generatedId : string)
    (now1 now2 : Z) (tasks : list Task) :
  ~ In generatedId (map id tasks) ->
  handleDeleteTask generatedId true
    (handleCreateTask Date_parse formData generatedId now1 now2 tasks)
  = tasks.
Proof.
  intros Hfresh. unfold handleDeleteTask, handleCreateTask.
  rewrite filter_app. cbn [filter id]. rewrite String.eqb_refl. cbn [negb].
  rewrite app_nil_r. apply delete_keeps_others, Hfresh.
Qed.

(** X2. A confirmed delete removes every task of that id and nothing else:
    the rest stays, in its order. *)
Theorem delete_removes_exactly (id' : string) (tasks : list Task) :
  let tasks' := handleDeleteTask id' true tasks in
  ~ In id' (map id tasks') /\
  (forall t, In t tasks' <-> In t tasks /\ id t <> id') /\
  (forall other, other <> id' ->
     filter (fun t => String.eqb (id t) other) tasks'
     = filter (fun t => String.eqb (id t) other) tasks).
Proof.
  cbn zeta. unfold handleDeleteTask. split; [|split].
  - intros Hin. apply in_map_iff in Hin. destruct Hin as (t & Hid & Ht).
    apply filter_In in Ht. destruct Ht as [_ Hne].
    apply negb_true_iff, String.eqb_neq in Hne. contradiction.
  - intros t. rewrite filter_In, negb_true_iff, String.eqb_neq. reflexivity.
  - intros other Hne. induction tasks as [|t l IH]; [reflexivity|].
    cbn [filter]. destruct (String.eqb_spec (id t) id') as [He|Hd]; cbn [negb].
    + destruct (String.eqb_spec (id t) other) as [Ho|_]; [congruence|exact IH].
    + cbn [filter]. rewrite IH. reflexivity.
Qed.

(** X3. Two toggles in a row do not undo each other: the flag and the
    identity fields come back, the percentage comes back as 100 and the
    status as [completed] or [in_progress]. *)
Theorem toggle_twice (id' : string) (now1 now2 : Z) (tasks : list Task) :
  handleToggleComplete id' now2 (handleToggleComplete id' now1 tasks)
  = map (fun task => if String.eqb (id task) id' then toggled_twice now2 task else task)
        tasks.
Proof.
  unfold handleToggleComplete. rewrite map_map. apply map_ext. intros t.
  destruct (String.eqb (id t) id') eqn:E.
  - rewrite toggled_id, E. unfold toggled, toggled_twice; cbn.
    destruct (isCompleted t); cbn; [|reflexivity].
    destruct (0 <? completionPercentage t); reflexivity.
  - rewrite E. reflexivity.
Qed.

(** X4. A second progress update of an id replaces the first. *)
Theorem updateProgress_last_wins (id' : string) (p1 p2 now1 now2 : Z)
    (tasks : list Task) :
  handleUpdateProgress id' p2 now2 (handleUpdateProgress id' p1 now1 tasks)
  = handleUpdateProgress id' p2 now2 tasks.
Proof.
  unfold handleUpdateProgress. rewrite map_map. apply map_ext. intros t.
  destruct (String.eqb (id t) id') eqn:E.
  - rewrite progressed_id, E. reflexivity.
  - rewrite E. reflexivity.
Qed.

(** X5. Completing a task with the slider and unchecking it leaves it where
    unchecking always leaves a task: at 100 percent, [in_progress]. *)
Theorem updateProgress_then_toggle (id' : string) (now1 now2 : Z) (tasks : list Task)
    (t : Task) :
  In t (handleToggleComplete id' now2 (handleUpdateProgress id' 100 now1 tasks)) ->
  id t = id' ->
  completionPercentage t = 100 /\ isCompleted t = false /\ status t = in_progress /\
  updatedAt t = Some now2.
Proof.
  intros Ht Hid. unfold handleToggleComplete, handleUpdateProgress in Ht.
  rewrite map_map in Ht. apply in_map_iff in Ht. destruct Ht as (t0 & <- & _).
  destruct (String.eqb (id t0) id') eqn:E.
  - rewrite progressed_id, E. repeat split.
  - rewrite E in Hid |- *. apply String.eqb_neq in E. contradiction.
Qed.

(** X6. Handlers aimed at different ids do not interfere: in either order
    they give the same collection. *)
Theorem handlers_on_distinct_ids_commute (i j : string) (p q now1 now2 : Z)
    (tasks : list Task) :
  i <> j ->
  handleUpdateProgress i p now1 (handleToggleComplete j now2 tasks)
  = handleToggleComplete j now2 (handleUpdateProgress i p now1 tasks) /\
  handleToggleComplete i now1 (handleToggleComplete j now2 tasks)
  = handleToggleComplete j now2 (handleToggleComplete i now1 tasks) /\
  handleUpdateProgress i p now1 (handleUpdateProgress j q now2 tasks)
  = handleUpdateProgress j q now2 (handleUpdateProgress i p now1 tasks) /\
  handleDeleteTask i true (handleToggleComplete j now2 tasks)
  = handleToggleComplete j now2 (handleDeleteTask i true tasks) /\
  handleDeleteTask i true (handleUpdateProgress j q now2 tasks)
  = handleUpdateProgress j q now2 (handleDeleteTask i true tasks).
Proof.
  intros Hij.
  assert (Hex : forall t, String.eqb (id t) i = true -> String.eqb (id t) j = false).
  { intros t Hi. apply String.eqb_eq in Hi. apply String.eqb_neq. congruence. }
  unfold handleUpdateProgress, handleToggleComplete, handleDeleteTask.
  repeat split.
  - rewrite !map_map. apply map_ext. intros t.
    destruct (String.eqb (id t) i) eqn:Ei.
    + rewrite (Hex t Ei), Ei, progressed_id, (Hex t Ei). reflexivity.
    + destruct (String.eqb (id t) j) eqn:Ej;
        rewrite ?toggled_id, ?Ei, ?Ej; reflexivity.
  - rewrite !map_map. apply map_ext. intros t.
    destruct (String.eqb (id t) i) eqn:Ei.
    + rewrite (Hex t Ei), Ei, toggled_id, (Hex t Ei). reflexivity.
    + destruct (String.eqb (id t) j) eqn:Ej;
        rewrite ?toggled_id, ?Ei, ?Ej; reflexivity.
  - rewrite !map_map. apply map_ext. intros t.
    destruct (String.eqb (id t) i) eqn:Ei.
    + rewrite (Hex t Ei), Ei, progressed_id, (Hex t Ei). reflexivity.
    + destruct (String.eqb (id t) j) eqn:Ej;
        rewrite ?progressed_id, ?Ei, ?Ej; reflexivity.
  - induction tasks as [|t l IH]; [reflexivity|].
    cbn [map filter].
    replace (id (if String.eqb (id t) j then toggled now2 t else t)) with (id t)
      by (destruct (String.eqb (id t) j); reflexivity).
    destruct (negb (String.eqb (id t) i)); cbn [map]; rewrite IH; reflexivity.
  - induction tasks as [|t l IH]; [reflexivity|].
    cbn [map filter].
    replace (id (if String.eqb (id t) j then progressed q now2 t else t)) with (id t)
      by (destruct (String.eqb (id t) j); reflexivity).
    destruct (negb (String.eqb (id t) i)); cbn [map]; rewrite IH; reflexivity.
Qed.

(** X7. Toggle and update never touch the identity fields of any task: id,
    title, description, the two dates, category, priority and creation
    stamp stay, position by position. *)
Theorem identity_fields_kept (id' : string) (p now : Z) (tasks : list Task) :
  map identity_fields (handleToggleComplete id' now tasks) = map identity_fields tasks /\
  map identity_fields (handleUpdateProgress id' p now tasks) = map identity_fields tasks.
Proof.
  split.
  - unfold handleToggleComplete. rewrite map_map. apply map_ext. intros t.
    destruct (String.eqb (id t) id'); reflexivity.
  - unfold handleUpdateProgress. rewrite map_map. apply map_ext. intros t.
    destruct (String.eqb (id t) id'); reflexivity.
Qed.

(** X8. Ids that are pairwise distinct stay so under delete, toggle and
    update, and under create exactly when the generated id is new. *)
Theorem distinct_ids_kept (id' : string) (p now : Z) (confirmed : bool)
    (tasks : list Task) :
  NoDup (map id tasks) ->
  NoDup (map id (handleDeleteTask id' confirmed tasks)) /\
  NoDup (map id (handleToggleComplete id' now tasks)) /\
  NoDup (map id (handleUpdateProgress id' p now tasks)) /\
  (forall formData generatedId now1 now2,
     NoDup (map id (handleCreateTask Date_parse formData generatedId now1 now2 tasks))
     <-> ~ In generatedId (map id tasks)).
Proof.
  intros Hnd. split; [|split; [|split]].
  - unfold handleDeleteTask. destruct confirmed; [|exact Hnd].
    induction tasks as [|t l IH]; [constructor|].
    cbn [map] in Hnd. inversion Hnd as [|? ? Hnot Hl]; subst.
    cbn [filter]. destruct (negb (String.eqb (id t) id')); [|apply IH, Hl].
    cbn [map]. constructor; [|apply IH, Hl].
    intros Hin. apply Hnot. apply in_map_iff in Hin.
    destruct Hin as (t' & Hid & Ht'). apply filter_In in Ht'.
    apply in_map_iff. exists t'. split; [exact Hid|apply Ht'].
  - replace (map id (handleToggleComplete id' now tasks)) with (map id tasks);
      [exact Hnd|].
    unfold handleToggleComplete. rewrite map_map. apply map_ext. intros t.
    destruct (String.eqb (id t) id'); reflexivity.
  - replace (map id (handleUpdateProgress id' p now tasks)) with (map id tasks);
      [exact Hnd|].
    unfold handleUpdateProgress. rewrite map_map. apply map_ext. intros t.
    destruct (String.eqb (id t) id'); reflexivity.
  - intros. unfold handleCreateTask. rewrite map_app. cbn [map id]. split.
    + intros H. apply NoDup_remove_2 in H. rewrite app_nil_r in H. exact H.
    + intros H. apply NoDup_app; [exact Hnd|constructor; [intros []|constructor]|].
      intros x Hx [<-|[]]. contradiction.
Qed.

(** X9. While the clock does not run backwards, every task is created no later
    than it is updated, and carries no stamp from the future. *)
Theorem stamps_in_order (now : Z) (tasks : list Task) :
  reachable_by Date_parse now tasks -> Forall (stamped_by now) tasks.
Proof.
  assert (Hmono : forall n n' t, n <= n' -> stamped_by n t -> stamped_by n' t).
  { intros n n' t Hn (c & u & Hc & Hu & Hcu & Hun). exists c, u. repeat split; auto. lia. }
  induction 1 as [now|now tasks fd gid n1 n2 _ IH H1 H2|now tasks i c _ IH
                  |now tasks i n' _ IH Hn|now tasks i p n' _ IH Hn].
  - constructor.
  - unfold handleCreateTask. apply Forall_app. split.
    + eapply Forall_impl; [|exact IH]. intros t. apply Hmono. lia.
    + constructor; [|constructor]. exists n1, n2. cbn. repeat split; lia.
  - unfold handleDeleteTask. destruct c; [|exact IH].
    rewrite Forall_forall in *. intros t Ht. apply filter_In in Ht. apply IH, Ht.
  - unfold handleToggleComplete. rewrite Forall_map.
    eapply Forall_impl; [|exact IH]. intros t (c & u & Hc & Hu & Hcu & Hun).
    destruct (String.eqb (id t) i).
    + exists c, n'. cbn. repeat split; auto; lia.
    + exists c, u. repeat split; auto; lia.
  - unfold handleUpdateProgress. rewrite Forall_map.
    eapply Forall_impl; [|exact IH]. intros t (c & u & Hc & Hu & Hcu & Hun).
    destruct (String.eqb (id t) i).
    + exists c, n'. cbn. repeat split; auto; lia.
    + exists c, u. repeat split; auto; lia.
Qed.

End MutatorLaws.
(** *** Sorting *)

Section ArraySort.

Context {A : Type}.

Lemma insert_sorted_Permutation (cmp : A -> A -> Z) (x : A) (l : list A) :
  Permutation (x :: l) (insert_sorted cmp x l).
Proof.
  induction l as [|y r IH]; simpl.
  - apply Permutation_refl.
  - destruct (cmp x y <=? 0).
    + apply Permutation_refl.
    + eapply perm_trans; [apply perm_swap|]. apply perm_skip, IH.
Qed.

Lemma Array_sort_Permutation (cmp : A -> A -> Z) (l : list A) :
  Permutation l (Array_sort cmp l).
Proof.
  induction l as [|x l IH]; simpl.
  - apply perm_nil.
  - eapply perm_trans; [apply perm_skip, IH|].
    apply insert_sorted_Permutation.
Qed.

(** A comparator that subtracts keys, as every numeric branch of
    [sortTasks] does. *)
Variable key : A -> Z.
Variable cmp : A -> A -> Z.
Hypothesis cmp_is_difference : forall a b, cmp a b = key a - key b.

Lemma insert_sorted_HdRel (x a : A) (l : list A) :
  key_le key a x -> HdRel (key_le key) a l -> HdRel (key_le key) a (insert_sorted cmp x l).
Proof.
  intros Hax Hal. destruct l as [|y r]; simpl.
  - constructor. exact Hax.
  - destruct (cmp x y <=? 0); constructor; auto.
    inversion Hal; assumption.
Qed.

Lemma insert_sorted_Sorted (x : A) (l : list A) :
  Sorted (key_le key) l -> Sorted (key_le key) (insert_sorted cmp x l).
Proof.
  induction 1 as [|y r Hr IH Hhd]; simpl.
  - repeat constructor.
  - destruct (Z.leb_spec (cmp x y) 0) as [Hle|Hgt].
    + constructor; [constructor; assumption|].
      constructor. unfold key_le. rewrite cmp_is_difference in Hle. lia.
    + constructor; [exact IH|].
      apply insert_sorted_HdRel; [|exact Hhd].
      unfold key_le. rewrite cmp_is_difference in Hgt. lia.
Qed.

Lemma Array_sort_Sorted (l : list A) : Sorted (key_le key) (Array_sort cmp l).
Proof.
  induction l as [|x l IH]; simpl.
  - constructor.
  - apply insert_sorted_Sorted, IH.
Qed.

Lemma Array_sort_StronglySorted (l : list A) :
  StronglySorted (fun a b => key a <= key b) (Array_sort cmp l).
Proof.
  apply Sorted_StronglySorted.
  - intros a b c Hab Hbc. lia.
  - apply Array_sort_Sorted.
Qed.

(** Stability: elements with the same key keep their relative order. *)
Lemma insert_sorted_stable (k : Z) (x : A) (l : list A) :
  filter (fun a => key a =? k) (insert_sorted cmp x l)
  = filter (fun a => key a =? k) (x :: l).
Proof.
  induction l as [|y r IH]; [reflexivity|].
  simpl insert_sorted.
  destruct (Z.leb_spec (cmp x y) 0) as [Hle|Hgt]; [reflexivity|].
  rewrite cmp_is_difference in Hgt.
  simpl in *. rewrite IH.
  destruct (Z.eqb_spec (key y) k), (Z.eqb_spec (key x) k); try reflexivity; lia.
Qed.

Lemma Array_sort_stable (k : Z) (l : list A) :
  filter (fun a => key a =? k) (Array_sort cmp l)
  = filter (fun a => key a =? k) l.
Proof.
  induction l as [|x l IH]; [reflexivity|].
  simpl Array_sort. rewrite insert_sorted_stable.
  simpl. rewrite IH. reflexivity.
Qed.

End ArraySort.

Section SortClaims.

Variable toLowerCase : string -> string.
Variable localeCompare : string -> string -> Z.

Local Abbreviation sortTasks := (sortTasks toLowerCase localeCompare).
Local Abbreviation compareTasks := (compareTasks toLowerCase localeCompare).

(** C6. The priority ranks are high 3, medium 2, low 1; the priority
    comparator is [rank b - rank a], negated for ['desc']; so sorting by
    priority with order ['asc'] permutes the collection into
    non-increasing rank (high first), tasks of equal priority keeping
    their order; on the scenario collection the result is
    Write report, Pay rent, Buy milk. *)
Theorem C6_priority_sort_high_first (tasks : list Task) :
  (priorityOrder high = 3 /\ priorityOrder medium = 2 /\ priorityOrder low = 1) /\
  (forall a b : Task,
     compareTasks by_priority asc a b
       = priorityOrder (priority b) - priorityOrder (priority a) /\
     compareTasks by_priority desc a b
       = - (priorityOrder (priority b) - priorityOrder (priority a))) /\
  Permutation tasks (sortTasks tasks by_priority asc) /\
  StronglySorted
    (fun a b => priorityOrder (priority b) <= priorityOrder (priority a))
    (sortTasks tasks by_priority asc) /\
  (forall p : TaskPriority,
     filter (fun t => priorityOrder (priority t) =? priorityOrder p)
            (sortTasks tasks by_priority asc)
     = filter (fun t => priorityOrder (priority t) =? priorityOrder p) tasks) /\
  map title (sortTasks scenario by_priority asc)
    = ["Write report"; "Pay rent"; "Buy milk"].
Proof.
  assert (Hdiff : forall a b : Task,
            compareTasks by_priority asc a b
            = (- priorityOrder (priority a)) - (- priorityOrder (priority b))).
  { intros a b. simpl. lia. }
  split; [repeat split|].
  split; [intros a b; split; reflexivity|].
  split; [apply Array_sort_Permutation|].
  split.
  - pose proof (Array_sort_StronglySorted _ _ Hdiff tasks) as HS.
    unfold sortTasks. simpl.
    eapply StronglySorted_ind with (P := fun l => StronglySorted _ l);
      [constructor| |exact HS].
    intros a l _ IH Hall. constructor; [exact IH|].
    eapply Forall_impl; [|exact Hall]. simpl. intros b Hb. lia.
  - split; [|reflexivity].
    intros p. unfold sortTasks. simpl.
    pose proof (Array_sort_stable _ _ Hdiff (- priorityOrder p) tasks) as Hst.
    assert (Hext : forall l : list Task,
              filter (fun t => priorityOrder (priority t) =? priorityOrder p) l
              = filter (fun t => - priorityOrder (priority t) =? - priorityOrder p) l).
    { intros l. apply filter_ext. intros t.
      destruct (Z.eqb_spec (priorityOrder (priority t)) (priorityOrder p)),
               (Z.eqb_spec (- priorityOrder (priority t)) (- priorityOrder p));
        try reflexivity; lia. }
    rewrite !Hext. exact Hst.
Qed.

End SortClaims.

(** *** Search and status filter *)

Lemma occurs_here_spec (search s : string) :
  occurs_here s search = true <-> exists post, s = search ++ post.
Proof.
  revert s. induction search as [|c q IH]; intros s; simpl.
  - split; [intros _; exists s; reflexivity|destruct s; reflexivity].
  - destruct s as [|d s'].
    + split; [discriminate|]. intros (post & H). discriminate.
    + cbn [occurs_here]. rewrite andb_true_iff, IH. split.
      * intros (Hc & post & ->). apply Ascii.eqb_eq in Hc. subst d.
        exists post. reflexivity.
      * intros (post & H). injection H as -> ->.
        split; [apply Ascii.eqb_refl|]. exists post. reflexivity.
Qed.

Lemma includes_spec (s search : string) :
  includes s search = true <-> exists pre post, s = pre ++ search ++ post.
Proof.
  induction s as [|d s' IH].
  - cbn [includes]. rewrite orb_false_r, occurs_here_spec. split.
    + intros (post & H). exists EmptyString, post. exact H.
    + intros (pre & post & H). destruct pre as [|c pre]; [|discriminate].
      exists post. exact H.
  - cbn [includes]. rewrite orb_true_iff, occurs_here_spec, IH. split.
    + intros [(post & H)|(pre & post & H)].
      * exists EmptyString, post. exact H.
      * exists (String d pre), post. simpl. rewrite H. reflexivity.
    + intros (pre & post & H). destruct pre as [|c pre].
      * left. exists post. exact H.
      * right. simpl in H. injection H as _ H. exists pre, post. exact H.
Qed.

Lemma includes_empty (s : string) : includes s EmptyString = true.
Proof. apply includes_spec. exists EmptyString, s. reflexivity. Qed.

Lemma TaskStatus_eqb_eq (a b : TaskStatus) : TaskStatus_eqb a b = true <-> a = b.
Proof. destruct a, b; simpl; split; intros; congruence. Qed.

(** On every character the ASCII lowering sends two characters to one
    exactly when they are one letter. *)
Lemma ascii_toLowerCase_same_letter (c d : ascii) :
  ascii_toLowerCase c = ascii_toLowerCase d <-> same_letter c d.
Proof.
  unfold ascii_toLowerCase, same_letter. cbv zeta.
  pose proof (nat_ascii_bounded c) as Hc. pose proof (nat_ascii_bounded d) as Hd.
  assert (Hinj : nat_of_ascii c = nat_of_ascii d -> c = d).
  { intros H. rewrite <- (ascii_nat_embedding c), <- (ascii_nat_embedding d), H.
    reflexivity. }
  assert (Hup : forall x, (nat_of_ascii x + 32 < 256)%nat ->
                          nat_of_ascii (ascii_of_nat (nat_of_ascii x + 32))
                          = (nat_of_ascii x + 32)%nat)
    by (intros x Hx; apply nat_ascii_embedding; exact Hx).
  destruct (Nat.leb_spec 65 (nat_of_ascii c)), (Nat.leb_spec (nat_of_ascii c) 90),
           (Nat.leb_spec 65 (nat_of_ascii d)), (Nat.leb_spec (nat_of_ascii d) 90);
    cbn [andb]; split;
    try (intros [->|[[H3 H4]|[H3 H4]]]; try reflexivity; try lia);
    try (intros H3; left; exact H3);
    try (intros H3; apply (f_equal nat_of_ascii) in H3;
         rewrite ?Hup in H3 by lia;
         first [ left; apply Hinj; lia
               | right; left; split; lia
               | right; right; split; lia ]);
    try (rewrite <- H4, ascii_nat_embedding; reflexivity);
    try (rewrite <- (ascii_nat_embedding d), H4; reflexivity);
    try (rewrite <- (ascii_nat_embedding c), H4; reflexivity).
Qed.

Lemma string_toLowerCase_same (a b : string) :
  string_toLowerCase a = string_toLowerCase b <-> same_ignoring_case a b.
Proof.
  revert b. induction a as [|c a IH]; intros [|d b]; cbn [string_toLowerCase same_ignoring_case];
    try (split; [discriminate|intros []]); [split; auto|].
  rewrite <- IH, <- ascii_toLowerCase_same_letter. split.
  - intros H. injection H as H1 H2. auto.
  - intros [-> ->]. reflexivity.
Qed.

Lemma string_toLowerCase_app (a b : string) :
  string_toLowerCase (a ++ b) = string_toLowerCase a ++ string_toLowerCase b.
Proof.
  induction a as [|c a IH]; [reflexivity|]. cbn [append string_toLowerCase].
  rewrite IH. reflexivity.
Qed.

Lemma string_toLowerCase_app_inv (s a b : string) :
  string_toLowerCase s = a ++ b ->
  exists s1 s2, s = s1 ++ s2 /\ string_toLowerCase s1 = a /\ string_toLowerCase s2 = b.
Proof.
  revert s. induction a as [|c a IH]; intros s H.
  - exists EmptyString, s. auto.
  - destruct s as [|d s]; [discriminate|].
    cbn [append string_toLowerCase] in H. injection H as Hc H.
    destruct (IH s H) as (s1 & s2 & -> & H1 & H2).
    exists (String d s1), s2. cbn [append string_toLowerCase].
    rewrite Hc, H1. auto.
Qed.

(** On the ASCII lowering, the test of the code is case-insensitive
    containment. *)
Lemma includes_string_toLowerCase (hay needle : string) :
  includes (string_toLowerCase hay) (string_toLowerCase needle) = true
  <-> contains_case_insensitively hay needle.
Proof.
  rewrite includes_spec. unfold contains_case_insensitively. split.
  - intros (pre' & post' & H).
    apply string_toLowerCase_app_inv in H. destruct H as (pre & rest & -> & _ & H).
    apply string_toLowerCase_app_inv in H. destruct H as (mid & post & -> & H & _).
    exists pre, mid, post. split; [reflexivity|].
    apply string_toLowerCase_same, H.
  - intros (pre & mid & post & -> & H). apply string_toLowerCase_same in H.
    exists (string_toLowerCase pre), (string_toLowerCase post).
    rewrite !string_toLowerCase_app, H. reflexivity.
Qed.

Lemma ASCII_app (a b : string) : ASCII (a ++ b) <-> ASCII a /\ ASCII b.
Proof.
  induction a as [|c a IH]; cbn [append ASCII]; [tauto|]. rewrite IH. tauto.
Qed.

Section FilterClaims.

Variable toLowerCase : string -> string.

(** ECMAScript: on ASCII text [toLowerCase] sends A to Z to a to z and
    leaves every other character. *)
Hypothesis toLowerCase_ASCII :
  forall s, ASCII s -> toLowerCase s = string_toLowerCase s.

Lemma matchesSearch_ASCII (searchQuery : string) (t : Task) :
  ASCII searchQuery -> ASCII (title t) -> ASCII (description t) ->
  (matchesSearch toLowerCase searchQuery t = true <->
   contains_case_insensitively (title t) searchQuery \/
   contains_case_insensitively (description t) searchQuery).
Proof.
  intros Hq Ht Hd. unfold matchesSearch.
  rewrite !toLowerCase_ASCII by assumption.
  rewrite orb_true_iff, !includes_string_toLowerCase. reflexivity.
Qed.


End FilterClaims.

(** *** The lower-casing instance on ASCII text *)

Lemma decode_ASCII (c : ascii) (s : string) :
  (nat_of_ascii c < 128)%nat ->
  SpecialCasing.decode (String c s) = Z.of_nat (nat_of_ascii c) :: SpecialCasing.decode s.
Proof.
  intros Hc. cbn [SpecialCasing.decode]. destruct s as [|d s]; [reflexivity|].
  cbv zeta.
  replace (192 <=? Z.of_nat (nat_of_ascii c)) with false
    by (symmetry; apply Z.leb_gt; lia).
  reflexivity.
Qed.

(** On ASCII text the instance lowers A to Z and leaves the rest, as the
    search is assumed to. *)
Lemma SpecialCasing_toLowerCase_ASCII (s : string) :
  ASCII s -> SpecialCasing.toLowerCase s = string_toLowerCase s.
Proof.
  unfold SpecialCasing.toLowerCase. generalize false as after_cased.
  induction s as [|c s IH]; intros after_cased Hs; [reflexivity|].
  destruct Hs as [Hc Hs]. rewrite decode_ASCII by exact Hc.
  cbn [SpecialCasing.lower_points SpecialCasing.encode]. cbv zeta.
  rewrite IH by exact Hs.
  set (n := nat_of_ascii c) in *.
  replace (Z.of_nat n =? SpecialCasing.capital_sigma) with false
    by (symmetry; apply Z.eqb_neq; unfold SpecialCasing.capital_sigma; lia).
  cbn [andb string_toLowerCase].
  unfold SpecialCasing.lower_point, SpecialCasing.is_capital, ascii_toLowerCase.
  cbv zeta. fold n.
  replace (913 <=? Z.of_nat n) with false by (symmetry; apply Z.leb_gt; lia).
  cbn [andb orb]. rewrite orb_false_r.
  destruct (Nat.leb_spec 65 n), (Nat.leb_spec n 90);
    destruct (Z.leb_spec 65 (Z.of_nat n)), (Z.leb_spec (Z.of_nat n) 90);
    try lia; cbn [andb]; unfold SpecialCasing.encode_point;
    first
      [ solve [ replace (Z.of_nat n + 32 <? 128) with true
                  by (symmetry; apply Z.ltb_lt; lia);
                cbn [append]; f_equal; f_equal; lia ]
      | solve [ replace (Z.of_nat n <? 128) with true
                  by (symmetry; apply Z.ltb_lt; lia);
                cbn [append]; f_equal; rewrite Nat2Z.id; apply ascii_nat_embedding ] ].
Qed.
(** *** Persistence *)

Lemma TaskStatus_ofString_toString (s : TaskStatus) :
  TaskStatus_ofString (TaskStatus_toString s) = Some s.
Proof. destruct s; reflexivity. Qed.

Lemma TaskCategory_ofString_toString (c : TaskCategory) :
  TaskCategory_ofString (TaskCategory_toString c) = Some c.
Proof. destruct c; reflexivity. Qed.

Lemma TaskPriority_ofString_toString (p : TaskPriority) :
  TaskPriority_ofString (TaskPriority_toString p) = Some p.
Proof. destruct p; reflexivity. Qed.

Lemma traverse_map_id {A B : Type} (f : A -> B) (g : B -> option A) (l : list A) :
  Forall (fun a => g (f a) = Some a) l -> traverse g (map f l) = Some l.
Proof.
  induction 1 as [|a l Ha _ IH]; simpl.
  - reflexivity.
  - rewrite Ha. simpl. rewrite IH. reflexivity.
Qed.

Section PersistenceClaims.

Variable toISOString : Z -> string.
Variable Date_parse : string -> option Z.

(** ECMAScript: [Date.parse(x.toISOString())] is the time value of [x]. *)
Hypothesis Date_parse_toISOString :
  forall t, - maxTime <= t <= maxTime -> Date_parse (toISOString t) = Some t.

Lemma new_Date_toJSON (d : Date) :
  valid_Date d -> new_Date Date_parse (Some (Date_toJSON toISOString d)) = Some d.
Proof.
  intros (t & -> & Ht). simpl. rewrite Date_parse_toISOString by exact Ht.
  reflexivity.
Qed.

Lemma revive_toJSON (t : Task) :
  valid_dates t -> revive Date_parse (Task_toJSON toISOString t) = Some t.
Proof.
  intros (Hs & Hd & Hc & Hu). destruct t; simpl in *.
  destruct Hs as (ts & -> & Hs), Hd as (td & -> & Hd),
           Hc as (tc & -> & Hc), Hu as (tu & -> & Hu).
  unfold revive, Task_toJSON.
  cbn [member String.eqb Ascii.eqb Bool.eqb].
  rewrite TaskStatus_ofString_toString, TaskCategory_ofString_toString,
          TaskPriority_ofString_toString.
  cbn [bind Date_toJSON].
  rewrite !Date_parse_toISOString by assumption. reflexivity.
Qed.

Lemma existsb_is_null_toJSON (tasks : list Task) :
  existsb is_null (map (Task_toJSON toISOString) tasks) = false.
Proof. induction tasks; simpl; auto. Qed.

(** C5 (as amended). For a collection whose four date fields hold
    instants in every task, saving and then loading gives back exactly
    that collection, dates included to the millisecond, and logs nothing. *)
Theorem C5_load_save_valid_dates (tasks : list Task) (localStorage : Storage) :
  Forall valid_dates tasks ->
  load Date_parse (save toISOString tasks localStorage) = Some (tasks, []).
Proof.
  intros Hv. unfold load, save, getItem, setItem. simpl.
  rewrite existsb_is_null_toJSON.
  rewrite traverse_map_id; [reflexivity|].
  eapply Forall_impl; [|exact Hv]. intros t. apply revive_toJSON.
Qed.

(** C9. With no ['tasks'] slot the load effect leaves the empty collection
    and logs nothing; with a non-empty text on which [JSON.parse] throws it
    leaves the empty collection and logs one [console.error] carrying the
    SyntaxError, nothing escaping the effect. (An empty string is falsy and
    never parsed: it is handled like the missing slot.) *)
Theorem C9_load_absent_or_malformed (localStorage : Storage) :
  (getItem "tasks" localStorage = None ->
   load Date_parse localStorage = Some ([], [])) /\
  (getItem "tasks" localStorage = Some Malformed ->
   load Date_parse localStorage
   = Some ([], [console_error "Error loading tasks:" SyntaxError])) /\
  (getItem "tasks" localStorage = Some EmptyText ->
   load Date_parse localStorage = Some ([], [])).
Proof.
  unfold load. repeat split; intros ->; reflexivity.
Qed.

End PersistenceClaims.


(** *** Binary64 arithmetic of the completion rate *)

Section Binary64.
Local Open Scope Q_scope.

Lemma bpow_pos e : 0 < bpow e.
Proof. apply Qpower_0_lt. reflexivity. Qed.

Lemma bpow_add a b : bpow (a + b) == bpow a * bpow b.
Proof. apply Qpower_plus. discriminate. Qed.

Lemma bpow_succ e : bpow (e + 1) == 2 * bpow e.
Proof. rewrite bpow_add. unfold bpow at 2. simpl. ring. Qed.

Lemma bpow_pred e : bpow (e - 1) == bpow e / 2.
Proof.
  assert (H := bpow_succ (e - 1)).
  replace (e - 1 + 1)%Z with e in H by lia. rewrite H. field.
Qed.

Lemma bpow_le a b : (a <= b)%Z -> bpow a <= bpow b.
Proof. intros H. apply Qpower_le_compat_l; [exact H|]. discriminate. Qed.

Lemma bpow_lt a b : (a < b)%Z -> bpow a < bpow b.
Proof. intros H. apply Qpower_lt_compat_l; [exact H|]. reflexivity. Qed.

Lemma bpow_lt_inv a b : bpow a < bpow b -> (a < b)%Z.
Proof. intros H. eapply Qpower_lt_compat_l_inv; [exact H|]. reflexivity. Qed.

Lemma bpow_Z e : (0 <= e)%Z -> bpow e == inject_Z (2 ^ e).
Proof. intros H. unfold bpow. rewrite Zpower_Qpower by exact H. reflexivity. Qed.

Lemma bpow_inv e : bpow e * bpow (- e) == 1.
Proof. rewrite <- bpow_add. replace (e + - e)%Z with 0%Z by lia. reflexivity. Qed.

Lemma inb_bounds m l u : inb m l u -> inject_Z m <= u /\ u < inject_Z m + 1.
Proof. destruct l as [|[]]; simpl; intros; lra. Qed.

Lemma shr_record_of_loc_m m l : shr_m (shr_record_of_loc m l) = m.
Proof. destruct l as [|[]]; reflexivity. Qed.

Lemma loc_of_shr_record_of_loc m l :
  loc_of_shr_record (shr_record_of_loc m l) = l.
Proof. destruct l as [|[]]; reflexivity. Qed.

Lemma inject_Z_xO p : inject_Z (Z.pos p~0) == 2 * inject_Z (Z.pos p).
Proof. rewrite Pos2Z.inj_xO, inject_Z_mult. reflexivity. Qed.

Lemma inject_Z_xI p : inject_Z (Z.pos p~1) == 2 * inject_Z (Z.pos p) + 1.
Proof. rewrite Pos2Z.inj_xI, inject_Z_plus, inject_Z_mult. reflexivity. Qed.

Ltac loc_cases :=
  simpl in *;
  change (inject_Z 0) with 0%Q in *; change (inject_Z 1) with 1%Q in *;
  repeat split; try lia; try lra.

Lemma shr_1_inb rs u :
  (0 <= shr_m rs)%Z ->
  inb (shr_m rs) (loc_of_shr_record rs) u ->
  inb (shr_m (shr_1 rs)) (loc_of_shr_record (shr_1 rs)) (u * (1 # 2)) /\
  (0 <= shr_m (shr_1 rs))%Z /\ shr_m (shr_1 rs) = (shr_m rs / 2)%Z.
Proof.
  destruct rs as [m r s]. simpl shr_m at 1 2.
  intros Hm H.
  destruct m as [|p|p]; [| |lia].
  - destruct r, s; loc_cases.
  - destruct p as [p|p|].
    + assert (Hd : (Z.pos p~1 / 2 = Z.pos p)%Z).
      { rewrite Pos2Z.inj_xI. symmetry. apply (Z.div_unique _ 2 _ 1); lia. }
      cbn [shr_m]. rewrite Hd.
      destruct r, s; simpl in *; rewrite ?inject_Z_xI in H; loc_cases.
    + assert (Hd : (Z.pos p~0 / 2 = Z.pos p)%Z).
      { rewrite Pos2Z.inj_xO. symmetry. apply (Z.div_unique _ 2 _ 0); lia. }
      cbn [shr_m]. rewrite Hd.
      destruct r, s; simpl in *; rewrite ?inject_Z_xO in H; loc_cases.
    + destruct r, s; loc_cases.
Qed.

Lemma inb_compat m l u u' : u == u' -> inb m l u -> inb m l u'.
Proof. intros E. destruct l as [|[]]; simpl; rewrite E; auto. Qed.

Lemma iter_pos_shr_1_inb p : forall rs u,
  (0 <= shr_m rs)%Z ->
  inb (shr_m rs) (loc_of_shr_record rs) u ->
  inb (shr_m (SpecFloat.iter_pos shr_1 p rs)) (loc_of_shr_record (SpecFloat.iter_pos shr_1 p rs))
      (u * bpow (- Z.pos p)) /\
  (0 <= shr_m (SpecFloat.iter_pos shr_1 p rs))%Z.
Proof.
  induction p as [p IH|p IH|]; intros rs u Hm H; cbn [SpecFloat.iter_pos].
  - destruct (shr_1_inb rs u Hm H) as (H1 & Hm1 & _).
    destruct (IH _ _ Hm1 H1) as (H2 & Hm2).
    destruct (IH _ _ Hm2 H2) as (H3 & Hm3).
    split; [|exact Hm3].
    eapply inb_compat; [|exact H3].
    rewrite Pos2Z.inj_xI.
    replace (- (2 * Z.pos p + 1))%Z with (- Z.pos p + - Z.pos p + -1)%Z by lia.
    rewrite !bpow_add. change (bpow (-1)) with (1 # 2). ring.
  - destruct (IH _ _ Hm H) as (H2 & Hm2).
    destruct (IH _ _ Hm2 H2) as (H3 & Hm3).
    split; [|exact Hm3].
    eapply inb_compat; [|exact H3].
    rewrite Pos2Z.inj_xO.
    replace (- (2 * Z.pos p))%Z with (- Z.pos p + - Z.pos p)%Z by lia.
    rewrite !bpow_add. ring.
  - destruct (shr_1_inb rs u Hm H) as (H1 & Hm1 & _).
    split; [|exact Hm1]. exact H1.
Qed.

Lemma shr_inb rs e n u :
  (0 <= shr_m rs)%Z ->
  inb (shr_m rs) (loc_of_shr_record rs) u ->
  snd (shr rs e n) = (e + Z.max 0 n)%Z /\
  inb (shr_m (fst (shr rs e n))) (loc_of_shr_record (fst (shr rs e n)))
      (u * bpow (- Z.max 0 n)) /\
  (0 <= shr_m (fst (shr rs e n)))%Z.
Proof.
  intros Hm H. destruct n as [|p|p]; cbn [shr fst snd].
  - split; [lia|]. split; [|exact Hm].
    eapply inb_compat; [|exact H]. change (bpow (- Z.max 0 0)) with 1. ring.
  - destruct (iter_pos_shr_1_inb p rs u Hm H) as (H1 & Hm1).
    split; [lia|]. split; [|exact Hm1].
    replace (Z.max 0 (Z.pos p)) with (Z.pos p) by lia. exact H1.
  - split; [lia|]. split; [|exact Hm].
    eapply inb_compat; [|exact H].
    replace (Z.max 0 (Z.neg p)) with 0%Z by lia. change (bpow (- 0)) with 1. ring.
Qed.

(** Digits. *)
Lemma digits2_pos_bounds p :
  (2 ^ (Z.pos (digits2_pos p) - 1) <= Z.pos p < 2 ^ Z.pos (digits2_pos p))%Z.
Proof.
  induction p as [p IH|p IH|]; cbn [digits2_pos].
  - rewrite Pos2Z.inj_succ. change (Z.pos p~1) with (2 * Z.pos p + 1)%Z.
    replace (Z.succ (Z.pos (digits2_pos p)) - 1)%Z
      with (Z.succ (Z.pos (digits2_pos p) - 1))%Z by lia.
    rewrite !Z.pow_succ_r by lia.
    destruct IH as [IH1 IH2].
    generalize dependent (2 ^ (Z.pos (digits2_pos p) - 1))%Z.
    generalize dependent (2 ^ Z.pos (digits2_pos p))%Z. intros; lia.
  - rewrite Pos2Z.inj_succ. change (Z.pos p~0) with (2 * Z.pos p)%Z.
    replace (Z.succ (Z.pos (digits2_pos p)) - 1)%Z
      with (Z.succ (Z.pos (digits2_pos p) - 1))%Z by lia.
    rewrite !Z.pow_succ_r by lia.
    destruct IH as [IH1 IH2].
    generalize dependent (2 ^ (Z.pos (digits2_pos p) - 1))%Z.
    generalize dependent (2 ^ Z.pos (digits2_pos p))%Z. intros; lia.
  - simpl. lia.
Qed.

Lemma Zdigits2_pos m : (0 < m)%Z -> (0 < Zdigits2 m)%Z.
Proof. destruct m; simpl; lia. Qed.

Lemma Zdigits2_lower m :
  (0 < m)%Z -> bpow (Zdigits2 m - 1) <= inject_Z m.
Proof.
  intros Hm. destruct m as [|p|p]; try lia. cbn [Zdigits2].
  rewrite bpow_Z by lia. rewrite <- Zle_Qle. apply digits2_pos_bounds.
Qed.

Lemma Zdigits2_upper m :
  (0 < m)%Z -> inject_Z m < bpow (Zdigits2 m).
Proof.
  intros Hm. destruct m as [|p|p]; try lia. cbn [Zdigits2].
  rewrite bpow_Z by lia. rewrite <- Zlt_Qlt. apply digits2_pos_bounds.
Qed.

(** A positive mantissa below [2^K] at exponent [e] has at most [K - e]
    digits. *)
Lemma Zdigits2_value_bound m e K :
  (0 < m)%Z -> inject_Z m * bpow e < bpow K -> (Zdigits2 m + e <= K)%Z.
Proof.
  intros Hm H.
  assert (H1 := Zdigits2_lower m Hm).
  assert (H2 : bpow (Zdigits2 m - 1 + e) < bpow K).
  { rewrite bpow_add. eapply Qle_lt_trans; [|exact H].
    apply Qmult_le_compat_r; [exact H1|]. apply Qlt_le_weak, bpow_pos. }
  apply bpow_lt_inv in H2. lia.
Qed.

Lemma round_nearest_even_spec m l u :
  inb m l u ->
  (round_nearest_even m l = m \/ round_nearest_even m l = (m + 1)%Z) /\
  - (1 # 2) <= inject_Z (round_nearest_even m l) - u <= 1 # 2.
Proof.
  intros H. destruct l as [|[]]; cbn [round_nearest_even inb] in *.
  - split; [left; reflexivity|]. lra.
  - destruct (Z.even m).
    + split; [left; reflexivity|]. lra.
    + split; [right; reflexivity|]. rewrite inject_Z_plus.
      change (inject_Z 1) with 1. lra.
  - split; [left; reflexivity|]. lra.
  - split; [right; reflexivity|]. rewrite inject_Z_plus.
    change (inject_Z 1) with 1. lra.
Qed.

Lemma shr_fexp_inb m e l u :
  (0 <= m)%Z -> inb m l u ->
  let n := Z.max 0 (fexp prec emax (Zdigits2 m + e) - e) in
  snd (shr_fexp prec emax m e l) = (e + n)%Z /\
  inb (shr_m (fst (shr_fexp prec emax m e l)))
      (loc_of_shr_record (fst (shr_fexp prec emax m e l)))
      (u * bpow (- n)) /\
  (0 <= shr_m (fst (shr_fexp prec emax m e l)))%Z.
Proof.
  intros Hm H. unfold shr_fexp. apply shr_inb.
  - rewrite shr_record_of_loc_m. exact Hm.
  - rewrite shr_record_of_loc_m, loc_of_shr_record_of_loc. exact H.
Qed.

Lemma scale_back u e n : u * bpow (- n) * bpow (e + n) == u * bpow e.
Proof.
  rewrite <- Qmult_assoc, <- bpow_add.
  replace (- n + (e + n))%Z with e by lia. reflexivity.
Qed.

(** Rounding a non-negative value [u * 2^e] below [2^K]: the result is
    zero or a positive finite number within [2^(F+1)] of the value, [F]
    being the exponent of the format at [2^K]. *)
Lemma binary_round_aux_error m e l u K :
  (0 <= m)%Z -> inb m l u ->
  u * bpow e < bpow K -> (K < emax)%Z -> (e <= fexp prec emax (K + 1))%Z ->
  exists m3 e3,
    (0 <= m3)%Z /\ (e3 <= fexp prec emax (K + 1))%Z /\
    binary_round_aux prec emax false m e l
    = match m3 with
      | Z0 => S754_zero false
      | Z.pos p => S754_finite false p e3
      | Z.neg _ => S754_nan
      end /\
    - bpow (fexp prec emax (K + 1) + 1) <= inject_Z m3 * bpow e3 - u * bpow e /\
    inject_Z m3 * bpow e3 - u * bpow e <= bpow (fexp prec emax (K + 1) + 1).
Proof.
  intros Hm H Hv HK He.
  set (F := fexp prec emax (K + 1)) in *.
  (* first shift *)
  destruct (shr_fexp_inb m e l u Hm H) as (He1 & H1 & Hm1).
  set (n1 := Z.max 0 (fexp prec emax (Zdigits2 m + e) - e)) in *.
  unfold binary_round_aux.
  destruct (shr_fexp prec emax m e l) as [rs1 e1] eqn:E1.
  cbn [fst snd] in He1, H1, Hm1.
  set (m1 := shr_m rs1) in *. set (l1 := loc_of_shr_record rs1) in *.
  set (w1 := u * bpow (- n1)) in *.
  assert (Hu0 : 0 <= u).
  { apply inb_bounds in H. eapply Qle_trans; [|apply H].
    change 0 with (inject_Z 0). rewrite <- Zle_Qle. exact Hm. }
  assert (Hde : (fexp prec emax (Zdigits2 m + e) <= F)%Z).
  { destruct (Z.eq_dec m 0) as [->|Hm0].
    - subst F. unfold fexp, emin, prec, emax in *. simpl Zdigits2. lia.
    - assert (Hd : (Zdigits2 m + e <= K)%Z).
      { apply Zdigits2_value_bound; [lia|].
        eapply Qle_lt_trans; [|exact Hv].
        apply Qmult_le_compat_r; [apply inb_bounds in H; apply H|].
        apply Qlt_le_weak, bpow_pos. }
      subst F. unfold fexp, emin, prec, emax in *. lia. }
  assert (He1F : (e1 <= F)%Z) by lia.
  (* rounding *)
  destruct (round_nearest_even_spec m1 l1 w1 H1) as (Hm2 & Hr).
  set (m2 := round_nearest_even m1 l1) in *.
  assert (Hm2pos : (0 <= m2)%Z) by lia.
  assert (Hex : inb m2 loc_Exact (inject_Z m2)) by (simpl; reflexivity).
  (* second shift *)
  destruct (shr_fexp_inb m2 e1 loc_Exact (inject_Z m2) Hm2pos Hex) as (He2 & H3 & Hm3).
  set (n2 := Z.max 0 (fexp prec emax (Zdigits2 m2 + e1) - e1)) in *.
  destruct (shr_fexp prec emax m2 e1 loc_Exact) as [rs3 e3] eqn:E3.
  cbn [fst snd] in He2, H3, Hm3.
  set (m3 := shr_m rs3) in *.
  assert (Hv1 : w1 * bpow e1 == u * bpow e).
  { subst w1. rewrite He1. apply scale_back. }
  assert (Hw1 : inject_Z m1 <= w1) by (apply inb_bounds in H1; apply H1).
  assert (Hde2 : (fexp prec emax (Zdigits2 m2 + e1) <= F)%Z).
  { destruct (Z.eq_dec m1 0) as [Hz|Hnz].
    - assert (Hc : m2 = 0%Z \/ m2 = 1%Z) by lia.
      subst F. destruct Hc as [-> | ->]; simpl Zdigits2;
        unfold fexp, emin, prec, emax in *; lia.
    - assert (Hd : (Zdigits2 m2 + e1 <= K + 1)%Z).
      { apply Zdigits2_value_bound; [lia|].
        assert (Hle : inject_Z m2 <= 2 * inject_Z m1).
        { change 2 with (inject_Z 2). rewrite <- inject_Z_mult, <- Zle_Qle. lia. }
        rewrite bpow_succ.
        assert (Hb := bpow_pos e1).
        assert (Hx : inject_Z m2 * bpow e1 <= 2 * (w1 * bpow e1)).
        { rewrite Qmult_assoc. apply Qmult_le_compat_r; [lra|lra]. }
        rewrite Hv1 in Hx. lra. }
      subst F. unfold fexp, emin, prec, emax in *. lia. }
  assert (He3F : (e3 <= F)%Z) by lia.
  exists m3, e3. split; [exact Hm3|]. split; [exact He3F|]. split.
  - destruct m3 as [|p|p] eqn:Em3; [reflexivity| |lia].
    assert (Hle : (e3 <=? emax - prec)%Z = true).
    { apply Z.leb_le. subst F. unfold fexp, emin, prec, emax in *. lia. }
    rewrite Hle. reflexivity.
  - assert (Hb1 := bpow_pos e1). assert (Hb3 := bpow_pos e3).
    assert (Hv3 : inject_Z m2 * bpow (- n2) * bpow e3 == inject_Z m2 * bpow e1).
    { rewrite He2. apply scale_back. }
    apply inb_bounds in H3. destruct H3 as [H3a H3b].
    assert (Hlo : inject_Z m2 * bpow e1 - bpow e3 <= inject_Z m3 * bpow e3).
    { rewrite <- Hv3.
      assert (inject_Z m2 * bpow (- n2) * bpow e3
              <= (inject_Z m3 + 1) * bpow e3).
      { apply Qmult_le_compat_r; lra. }
      lra. }
    assert (Hhi : inject_Z m3 * bpow e3 <= inject_Z m2 * bpow e1).
    { rewrite <- Hv3. apply Qmult_le_compat_r; lra. }
    assert (Hr1 : - (1 # 2) * bpow e1 <= inject_Z m2 * bpow e1 - w1 * bpow e1).
    { assert (- (1 # 2) * bpow e1 <= (inject_Z m2 - w1) * bpow e1).
      { apply Qmult_le_compat_r; lra. }
      lra. }
    assert (Hr2 : inject_Z m2 * bpow e1 - w1 * bpow e1 <= (1 # 2) * bpow e1).
    { assert ((inject_Z m2 - w1) * bpow e1 <= (1 # 2) * bpow e1).
      { apply Qmult_le_compat_r; lra. }
      lra. }
    rewrite Hv1 in Hr1, Hr2.
    assert (HbF := bpow_succ F).
    assert (H1F := bpow_le e1 F He1F). assert (H3F := bpow_le e3 F He3F).
    assert (HF := bpow_pos F).
    split; lra.
Qed.

(** A mantissa that needs no shift is kept as it is. *)
Lemma binary_round_aux_exact s p e :
  (fexp prec emax (Zdigits2 (Z.pos p) + e) <= e)%Z -> (e <= emax - prec)%Z ->
  binary_round_aux prec emax s (Z.pos p) e loc_Exact = S754_finite s p e.
Proof.
  intros Hc He. unfold binary_round_aux, shr_fexp.
  assert (Hn : forall rs, shr rs e (fexp prec emax (Zdigits2 (Z.pos p) + e) - e) = (rs, e)).
  { intros rs. destruct (fexp prec emax (Zdigits2 (Z.pos p) + e) - e)%Z eqn:E;
      try reflexivity. lia. }
  rewrite Hn. cbn [shr_record_of_loc shr_m loc_of_shr_record round_nearest_even].
  rewrite Hn. cbn [shr_record_of_loc shr_m].
  apply Z.leb_le in He. rewrite He. reflexivity.
Qed.

Lemma iter_xO_value m k : Z.pos (Pos.iter xO m k) = (Z.pos m * 2 ^ Z.pos k)%Z.
Proof.
  induction k as [|k IH] using Pos.peano_ind.
  - simpl. lia.
  - rewrite Pos.iter_succ, Pos2Z.inj_succ, Z.pow_succ_r by lia.
    change (Z.pos (Pos.iter xO m k)~0) with (2 * Z.pos (Pos.iter xO m k))%Z.
    rewrite IH. ring.
Qed.

Lemma iter_xO_digits m k :
  Z.pos (digits2_pos (Pos.iter xO m k)) = (Z.pos (digits2_pos m) + Z.pos k)%Z.
Proof.
  induction k as [|k IH] using Pos.peano_ind.
  - simpl. lia.
  - rewrite Pos.iter_succ. cbn [digits2_pos]. rewrite !Pos2Z.inj_succ, IH. lia.
Qed.

(** Integers below [2^53] are Numbers. *)
Lemma Number_of_Z_exact z :
  (0 < z < 2 ^ 53)%Z ->
  exists m e, Number_of_Z z = S754_finite false m e /\
              inject_Z (Z.pos m) * bpow e == inject_Z z.
Proof.
  intros Hz. destruct z as [|p|p]; try lia.
  unfold Number_of_Z, binary_normalize, binary_round.
  assert (Hd : (Z.pos (digits2_pos p) <= 53)%Z).
  { assert (Hb := digits2_pos_bounds p).
    destruct (Z_le_gt_dec (Z.pos (digits2_pos p)) 53) as [Hle|Hgt]; [exact Hle|].
    assert (2 ^ 53 <= 2 ^ (Z.pos (digits2_pos p) - 1))%Z
      by (apply Z.pow_le_mono_r; lia).
    lia. }
  assert (Hf : fexp prec emax (Z.pos (digits2_pos p) + 0)
               = (Z.pos (digits2_pos p) - 53)%Z).
  { unfold fexp, emin, prec, emax. lia. }
  rewrite Hf. unfold shl_align.
  destruct (Z.pos (digits2_pos p) - 53 - 0)%Z as [|k|k] eqn:Ek; try lia.
  - exists p, 0%Z. split.
    + apply binary_round_aux_exact.
      * cbn [Zdigits2]. unfold fexp, emin, prec, emax. lia.
      * unfold prec, emax. lia.
    + change (bpow 0) with 1. ring.
  - exists (Pos.iter xO p k), (Z.pos (digits2_pos p) - 53)%Z. split.
    + apply binary_round_aux_exact.
      * cbn [Zdigits2]. rewrite iter_xO_digits.
        unfold fexp, emin, prec, emax. lia.
      * unfold prec, emax. lia.
    + rewrite iter_xO_value, inject_Z_mult, <- bpow_Z by lia.
      rewrite <- Qmult_assoc, <- bpow_add.
      replace (Z.pos k + (Z.pos (digits2_pos p) - 53))%Z with 0%Z by lia.
      change (bpow 0) with 1. ring.
Qed.

Lemma new_location_inb m2 q r :
  (0 < m2)%Z -> (0 <= r < m2)%Z ->
  inb q (new_location m2 r) (inject_Z (m2 * q + r) / inject_Z m2).
Proof.
  intros Hm2 Hr.
  assert (HM : 0 < inject_Z m2).
  { change 0 with (inject_Z 0). rewrite <- Zlt_Qlt. exact Hm2. }
  assert (Hu : inject_Z (m2 * q + r) / inject_Z m2
               == inject_Z q + inject_Z r / inject_Z m2).
  { rewrite inject_Z_plus, inject_Z_mult. field. lra. }
  eapply inb_compat; [symmetry; exact Hu|].
  set (rho := inject_Z r / inject_Z m2).
  assert (Hlt : forall a b : Z, (a * r < b * m2)%Z -> inject_Z a * rho < inject_Z b).
  { intros a b Hab. unfold rho.
    setoid_replace (inject_Z a * (inject_Z r / inject_Z m2))
      with (inject_Z (a * r) / inject_Z m2)
      by (rewrite inject_Z_mult; field; lra).
    apply Qlt_shift_div_r; [exact HM|].
    rewrite <- inject_Z_mult, <- Zlt_Qlt. exact Hab. }
  assert (Hgt : forall a b : Z, (b * m2 < a * r)%Z -> inject_Z b < inject_Z a * rho).
  { intros a b Hab. unfold rho.
    setoid_replace (inject_Z a * (inject_Z r / inject_Z m2))
      with (inject_Z (a * r) / inject_Z m2)
      by (rewrite inject_Z_mult; field; lra).
    apply Qlt_shift_div_l; [exact HM|].
    rewrite <- inject_Z_mult, <- Zlt_Qlt. exact Hab. }
  assert (Heq : (2 * r = m2)%Z -> rho == 1 # 2).
  { intros E. unfold rho. rewrite <- E, inject_Z_mult.
    change (inject_Z 2) with 2. field.
    intros Hc. rewrite <- E, inject_Z_mult in HM. change (inject_Z 2) with 2 in HM.
    lra. }
  assert (H0 : r = 0%Z -> rho == 0).
  { intros ->. unfold rho. change (inject_Z 0) with 0. field. lra. }
  assert (Hpos : (0 < r)%Z -> 0 < rho).
  { intros Hp. specialize (Hgt 1%Z 0%Z). change (inject_Z 1) with 1 in Hgt.
    change (inject_Z 0) with 0 in Hgt. rewrite Qmult_1_l in Hgt. apply Hgt. lia. }
  assert (Hlt1 : rho < 1).
  { specialize (Hlt 1%Z 1%Z). change (inject_Z 1) with 1 in Hlt.
    rewrite Qmult_1_l in Hlt. apply Hlt. lia. }
  assert (Hhalf_lt : (2 * r < m2)%Z -> rho < 1 # 2).
  { intros Hp. specialize (Hlt 2%Z 1%Z ltac:(lia)). change (inject_Z 2) with 2 in Hlt.
    change (inject_Z 1) with 1 in Hlt. lra. }
  assert (Hhalf_gt : (m2 < 2 * r)%Z -> 1 # 2 < rho).
  { intros Hp. specialize (Hgt 2%Z 1%Z). change (inject_Z 2) with 2 in Hgt.
    change (inject_Z 1) with 1 in Hgt. assert (1 < 2 * rho) by (apply Hgt; lia). lra. }
  unfold new_location, new_location_even, new_location_odd.
  destruct (Z.even m2) eqn:Ev; cbv beta;
    (destruct (Z.eqb_spec r 0) as [Hr0|Hr0];
     [specialize (H0 Hr0); cbn [inb]; lra|]);
    assert (Hrp : 0 < rho) by (apply Hpos; lia).
  - destruct (Z.compare_spec (2 * r) m2) as [E|E|E]; cbn [inb].
    + specialize (Heq E). lra.
    + specialize (Hhalf_lt E). lra.
    + specialize (Hhalf_gt E). lra.
  - assert (Hodd : (2 * r <> m2)%Z).
    { intros E. rewrite <- E, Z.even_mul in Ev. discriminate. }
    destruct (Z.compare_spec (2 * r + 1) m2) as [E|E|E]; cbn [inb].
    + assert (Hl : (2 * r < m2)%Z) by lia. specialize (Hhalf_lt Hl). lra.
    + assert (Hl : (2 * r < m2)%Z) by lia. specialize (Hhalf_lt Hl). lra.
    + assert (Hl : (m2 < 2 * r)%Z) by lia. specialize (Hhalf_gt Hl). lra.
Qed.

(** The quotient of two positive Numbers [x <= y] is within [2^-50] of
    [x / y]. *)
Lemma SFdiv_error mx ex my ey :
  inject_Z (Z.pos mx) * bpow ex <= inject_Z (Z.pos my) * bpow ey ->
  exists m3 e3,
    (0 <= m3)%Z /\ (e3 <= -51)%Z /\
    SFdiv prec emax (S754_finite false mx ex) (S754_finite false my ey)
    = of_mantissa m3 e3 /\
    - bpow (-50) <= inject_Z m3 * bpow e3
                    - (inject_Z (Z.pos mx) * bpow ex) / (inject_Z (Z.pos my) * bpow ey) /\
    inject_Z m3 * bpow e3
      - (inject_Z (Z.pos mx) * bpow ex) / (inject_Z (Z.pos my) * bpow ey)
    <= bpow (-50).
Proof.
  intros Hxy.
  set (x := inject_Z (Z.pos mx) * bpow ex) in *.
  set (y := inject_Z (Z.pos my) * bpow ey) in *.
  assert (HMx : 0 < inject_Z (Z.pos mx)) by reflexivity.
  assert (HMy : 0 < inject_Z (Z.pos my)) by reflexivity.
  assert (Hx : 0 < x) by (apply Qmult_lt_0_compat; [exact HMx|apply bpow_pos]).
  assert (Hy : 0 < y) by (apply Qmult_lt_0_compat; [exact HMy|apply bpow_pos]).
  cbn [SFdiv xorb]. unfold SFdiv_core_binary.
  set (d1 := Zdigits2 (Z.pos mx)). set (d2 := Zdigits2 (Z.pos my)).
  set (e' := Z.min (fexp prec emax (d1 + ex - (d2 + ey))) (ex - ey)).
  set (s := (ex - ey - e')%Z).
  assert (Hs : (0 <= s)%Z) by (subst s e'; lia).
  set (m' := match s with
             | 0%Z => Z.pos mx
             | Z.pos _ => Z.shiftl (Z.pos mx) s
             | Z.neg _ => 0%Z
             end).
  assert (Hm' : m' = (Z.pos mx * 2 ^ s)%Z).
  { subst m'. destruct s as [|k|k] eqn:Es;
      [simpl; lia | apply Z.shiftl_mul_pow2; lia | lia]. }
  assert (Hdm := Z_div_mod m' (Z.pos my) ltac:(lia)).
  destruct (Z.div_eucl m' (Z.pos my)) as [q r]. destruct Hdm as [Hqr Hr].
  assert (Hq : (0 <= q)%Z).
  { assert (0 <= m')%Z by (rewrite Hm'; apply Z.mul_nonneg_nonneg; [lia|apply Z.pow_nonneg; lia]).
    destruct (Z_lt_le_dec q 0) as [Hneg|]; [|assumption]. nia. }
  assert (Hin := new_location_inb (Z.pos my) q r ltac:(lia) Hr).
  rewrite <- Hqr in Hin.
  set (u := inject_Z m' / inject_Z (Z.pos my)) in *.
  assert (Hval : u * bpow e' == x / y).
  { subst u x y. rewrite Hm', inject_Z_mult, <- bpow_Z by lia.
    assert (Hex : bpow ex == bpow s * bpow e' * bpow ey).
    { rewrite <- !bpow_add. replace (s + e' + ey)%Z with ex by (subst s; lia).
      reflexivity. }
    rewrite Hex. field. split.
    - assert (Hb := bpow_pos ey). lra.
    - lra. }
  assert (Hle1 : x / y <= 1).
  { apply Qle_shift_div_r; [exact Hy|]. lra. }
  assert (He' : (e' <= -53)%Z).
  { assert (Hd : (d1 + ex - (d2 + ey) <= 0)%Z).
    { assert (H1 := Zdigits2_lower (Z.pos mx) ltac:(lia)).
      assert (H2 := Zdigits2_upper (Z.pos my) ltac:(lia)).
      fold d1 in H1. fold d2 in H2.
      assert (H3 : bpow (d1 - 1 + ex) < bpow (d2 + ey)).
      { rewrite !bpow_add.
        assert (Hbx := bpow_pos ex). assert (Hby := bpow_pos ey).
        assert (bpow (d1 - 1) * bpow ex <= x)
          by (apply Qmult_le_compat_r; lra).
        assert (y < bpow d2 * bpow ey)
          by (apply Qmult_lt_compat_r; lra).
        lra. }
      apply bpow_lt_inv in H3. lia. }
    subst e'. unfold fexp, emin, prec, emax. lia. }
  destruct (binary_round_aux_error q e' (new_location (Z.pos my) r) u 1 Hq Hin)
    as (m3 & e3 & Hm3 & He3 & Hres & Hlo & Hhi).
  - rewrite Hval. change (bpow 1) with 2. lra.
  - unfold emax. lia.
  - unfold fexp, emin, prec, emax. lia.
  - exists m3, e3. split; [exact Hm3|]. split.
    + unfold fexp, emin, prec, emax in He3. lia.
    + split; [exact Hres|].
      rewrite Hval in Hlo, Hhi.
      change (fexp prec emax (1 + 1) + 1)%Z with (-50)%Z in Hlo, Hhi.
      split; assumption.
Qed.

(** The product of two positive Numbers, when below [2^K], is within
    [2^(F+1)] of the exact product. *)
Lemma SFmul_error mx ex my ey K :
  inject_Z (Z.pos mx) * bpow ex * (inject_Z (Z.pos my) * bpow ey) < bpow K ->
  (K < emax)%Z -> (ex + ey <= fexp prec emax (K + 1))%Z ->
  exists m3 e3,
    (0 <= m3)%Z /\
    SFmul prec emax (S754_finite false mx ex) (S754_finite false my ey)
    = of_mantissa m3 e3 /\
    - bpow (fexp prec emax (K + 1) + 1)
      <= inject_Z m3 * bpow e3
         - inject_Z (Z.pos mx) * bpow ex * (inject_Z (Z.pos my) * bpow ey) /\
    inject_Z m3 * bpow e3
      - inject_Z (Z.pos mx) * bpow ex * (inject_Z (Z.pos my) * bpow ey)
    <= bpow (fexp prec emax (K + 1) + 1).
Proof.
  intros Hv HK He. cbn [SFmul xorb].
  assert (Hval : inject_Z (Z.pos (mx * my)) * bpow (ex + ey)
                 == inject_Z (Z.pos mx) * bpow ex * (inject_Z (Z.pos my) * bpow ey)).
  { rewrite Pos2Z.inj_mul, inject_Z_mult, bpow_add. ring. }
  destruct (binary_round_aux_error (Z.pos (mx * my)) (ex + ey) loc_Exact
              (inject_Z (Z.pos (mx * my))) K)
    as (m3 & e3 & Hm3 & _ & Hres & Hlo & Hhi);
    [lia | simpl; reflexivity | rewrite Hval; exact Hv | exact HK | exact He |].
  exists m3, e3. rewrite Hval in Hlo, Hhi. auto.
Qed.

(** [Math.round] of a non-negative Number [x] is [floor (x + 1/2)]. *)
Lemma Math_round_of_mantissa m3 e3 :
  (0 <= m3)%Z ->
  exists n, Math_round (of_mantissa m3 e3) = Some n /\
            inject_Z n <= inject_Z m3 * bpow e3 + (1 # 2) /\
            inject_Z m3 * bpow e3 + (1 # 2) < inject_Z n + 1.
Proof.
  intros Hm. destruct m3 as [|p|p]; [| |lia]; cbn [of_mantissa Math_round].
  - exists 0%Z. split; [reflexivity|]. change (inject_Z 0) with 0. lra.
  - destruct (Z.leb_spec 0 e3) as [He|He].
    + exists (Z.pos p * 2 ^ e3)%Z. split; [reflexivity|].
      rewrite inject_Z_mult, <- bpow_Z by exact He. lra.
    + set (h := (2 ^ (- e3 - 1))%Z).
      assert (Hh : (0 < h)%Z) by (apply Z.pow_pos_nonneg; lia).
      assert (HD : (2 ^ (- e3) = 2 * h)%Z).
      { subst h. rewrite <- Z.pow_succ_r by lia. f_equal. lia. }
      rewrite HD.
      exists ((Z.pos p + h) / (2 * h))%Z. split; [reflexivity|].
      set (n := ((Z.pos p + h) / (2 * h))%Z).
      assert (H1 : (2 * h * n <= Z.pos p + h)%Z)
        by (apply Z.mul_div_le; lia).
      assert (H2 : (Z.pos p + h < 2 * h * (n + 1))%Z).
      { replace (n + 1)%Z with (Z.succ n) by lia. apply Z.mul_succ_div_gt. lia. }
      set (b := bpow e3).
      assert (Hb : 0 < b) by apply bpow_pos.
      assert (Hinv : inject_Z (2 * h) * b == 1).
      { rewrite <- HD, <- bpow_Z by lia. subst b.
        rewrite <- bpow_add. replace (- e3 + e3)%Z with 0%Z by lia. reflexivity. }
      rewrite inject_Z_mult in Hinv. change (inject_Z 2) with 2 in Hinv.
      rewrite Zle_Qle in H1. rewrite Zlt_Qlt in H2.
      rewrite ?inject_Z_mult, ?inject_Z_plus, ?inject_Z_mult in H1, H2.
      change (inject_Z 2) with 2 in H1, H2. change (inject_Z 1) with 1 in H2.
      assert (Hn : inject_Z n == (2 * inject_Z h * inject_Z n) * b).
      { transitivity (inject_Z n * (2 * inject_Z h * b)); [rewrite Hinv|]; ring. }
      assert (Hp : (inject_Z (Z.pos p) + inject_Z h) * b
                   == inject_Z (Z.pos p) * b + (1 # 2)).
      { transitivity (inject_Z (Z.pos p) * b + (1 # 2) * (2 * inject_Z h * b));
          [|rewrite Hinv]; ring. }
      assert (Hn1 : inject_Z n + 1 == (2 * inject_Z h * (inject_Z n + 1)) * b).
      { transitivity ((inject_Z n + 1) * (2 * inject_Z h * b)); [rewrite Hinv|]; ring. }
      split.
      * rewrite Hn, <- Hp.
        apply Qmult_le_compat_r; [exact H1|apply Qlt_le_weak, Hb].
      * rewrite Hn1, <- Hp.
        apply Qmult_lt_compat_r; [exact Hb|].
        rewrite inject_Z_plus in H2. exact H2.
Qed.

(** The rate computed for [c] of [t] tasks is an integer nearest to
    [100 * c / t]. *)
Lemma completion_rate_nearest c t :
  (0 <= c <= t)%Z -> (0 < t < 2 ^ 32)%Z ->
  exists n, completion_rate c t = Some n /\
            (- t <= 2 * n * t - 200 * c <= t)%Z.
Proof.
  intros Hc Ht. unfold completion_rate, Number_mul, Number_div.
  destruct (Number_of_Z_exact t) as (mt & et & ET & HT); [lia|].
  destruct (Z.eq_dec c 0) as [->|Hc0].
  { exists 0%Z. rewrite ET. split; [reflexivity|lia]. }
  destruct (Number_of_Z_exact c) as (mc & ec & EC & HC); [lia|].
  rewrite EC, ET.
  remember (inject_Z c) as C eqn:EqC. remember (inject_Z t) as T eqn:EqT.
  assert (HC1 : 1 <= C).
  { subst C. change 1 with (inject_Z 1). rewrite <- Zle_Qle. lia. }
  assert (HT1 : 1 <= T).
  { subst T. change 1 with (inject_Z 1). rewrite <- Zle_Qle. lia. }
  assert (HCT : C <= T) by (subst C T; rewrite <- Zle_Qle; lia).
  assert (HT32 : T < 4294967296).
  { subst T. change 4294967296 with (inject_Z (2 ^ 32)). rewrite <- Zlt_Qlt. lia. }
  remember (C / T) as r eqn:Er.
  assert (HrT : r * T == C) by (rewrite Er; field; lra).
  assert (Hr1 : r <= 1) by (rewrite Er; apply Qle_shift_div_r; lra).
  assert (Hr0 : 1 # 4294967296 < r).
  { rewrite Er. apply Qlt_shift_div_l; lra. }
  (* the quotient *)
  destruct (SFdiv_error mc ec mt et) as (m3 & e3 & Hm3 & He3 & -> & Hlo3 & Hhi3).
  { rewrite HC, HT. exact HCT. }
  rewrite HC, HT, <- Er in Hlo3, Hhi3.
  assert (H50 : bpow (-50) == 1 # 1125899906842624) by reflexivity.
  rewrite H50 in Hlo3, Hhi3.
  destruct m3 as [|p3|p3]; [| |lia].
  { exfalso. change (inject_Z 0) with 0 in Hlo3. lra. }
  cbn [of_mantissa].
  remember (inject_Z (Z.pos p3) * bpow e3) as q3 eqn:Eq3.
  (* the product *)
  assert (E100 : Number_of_Z 100
                 = S754_finite false 7036874417766400 (-46)) by reflexivity.
  rewrite E100.
  assert (V100 : inject_Z (Z.pos 7036874417766400) * bpow (-46) == 100)
    by reflexivity.
  destruct (SFmul_error p3 e3 7036874417766400 (-46) 7)
    as (m4 & e4 & Hm4 & -> & Hlo4 & Hhi4).
  { rewrite <- Eq3, V100. change (bpow 7) with 128. lra. }
  { unfold emax. lia. }
  { unfold fexp, emin, prec, emax. lia. }
  rewrite <- Eq3, V100 in Hlo4, Hhi4.
  assert (H44 : bpow (fexp prec emax (7 + 1) + 1) == 1 # 17592186044416)
    by reflexivity.
  rewrite H44 in Hlo4, Hhi4.
  (* the rounding *)
  destruct (Math_round_of_mantissa m4 e4 Hm4) as (n & -> & Hn1 & Hn2).
  remember (inject_Z m4 * bpow e4) as x4 eqn:Ex4.
  exists n. split; [reflexivity|].
  remember (inject_Z n) as N eqn:EqN.
  assert (Hup : N * T <= (100 * r + (1 # 4398046511104) + (1 # 2)) * T).
  { apply Qmult_le_compat_r; lra. }
  assert (Hdn : (100 * r - (1 # 4398046511104) - (1 # 2)) * T < N * T).
  { apply Qmult_lt_compat_r; lra. }
  setoid_replace ((100 * r + (1 # 4398046511104) + (1 # 2)) * T)
    with (100 * (r * T) + (1 # 4398046511104) * T + (1 # 2) * T) in Hup by ring.
  setoid_replace ((100 * r - (1 # 4398046511104) - (1 # 2)) * T)
    with (100 * (r * T) - (1 # 4398046511104) * T - (1 # 2) * T) in Hdn by ring.
  rewrite HrT in Hup, Hdn.
  assert (HNT : N * T == inject_Z (n * t))
    by (rewrite EqN, EqT, inject_Z_mult; reflexivity).
  rewrite HNT in Hup, Hdn.
  remember (inject_Z (n * t)) as NT eqn:ENT.
  assert (Hz1 : inject_Z (2 * (n * t) - 200 * c - t) < inject_Z 1).
  { unfold Z.sub. rewrite !inject_Z_plus, !inject_Z_opp, !inject_Z_mult.
    rewrite <- inject_Z_mult, <- ENT, <- EqC, <- EqT. change (inject_Z 2) with 2.
    change (inject_Z 200) with 200. change (inject_Z 1) with 1. lra. }
  assert (Hz2 : inject_Z (-1) < inject_Z (2 * (n * t) - 200 * c + t)).
  { unfold Z.sub. rewrite !inject_Z_plus, !inject_Z_opp, !inject_Z_mult.
    rewrite <- inject_Z_mult, <- ENT, <- EqC, <- EqT. change (inject_Z 2) with 2.
    change (inject_Z 200) with 200. change (inject_Z (-1)) with (-1). lra. }
  rewrite <- Zlt_Qlt in Hz1, Hz2. lia.
Qed.

Lemma completion_rate_range c t :
  (0 <= c <= t)%Z -> (0 < t < 2 ^ 32)%Z ->
  exists n, completion_rate c t = Some n /\ (0 <= n <= 100)%Z.
Proof.
  intros Hc Ht. destruct (completion_rate_nearest c t Hc Ht) as (n & Hn & Hb).
  exists n. split; [exact Hn|]. nia.
Qed.

End Binary64.

(** *** Statistics *)

Lemma Array_length_filter {A : Type} (f : A -> bool) (l : list A) :
  0 <= Array_length (filter f l) <= Array_length l.
Proof.
  unfold Array_length. pose proof (filter_length_le f l). lia.
Qed.

Lemma calculateTaskStats_rate (now : Z) (tasks : list Task) :
  Stats.completionPercentage (calculateTaskStats now tasks)
  = if 0 <? Array_length tasks
    then completion_rate (Array_length (filter isCompleted tasks)) (Array_length tasks)
    else Some 0.
Proof. reflexivity. Qed.

Lemma Array_length_filter_count {A : Type} (p : A -> bool) (l : list A) :
  Array_length (filter p l) = count_if p l.
Proof.
  unfold Array_length. induction l as [|a r IH]; [reflexivity|].
  simpl. destruct (p a); simpl List.length; lia.
Qed.

(** The five counters are the counts the specification names. *)
Lemma calculateTaskStats_counts (now : Z) (tasks : list Task) :
  let s := calculateTaskStats now tasks in
  Stats.totalTasks s = Z.of_nat (List.length tasks) /\
  Stats.completedTasks s = count_if isCompleted tasks /\
  Stats.inProgressTasks s
    = count_if (fun t => TaskStatus_eqb (status t) in_progress) tasks /\
  Stats.pendingTasks s
    = count_if (fun t => TaskStatus_eqb (status t) pending) tasks /\
  Stats.overdueTasks s
    = count_if (fun t => negb (isCompleted t) && Date_ltb (dueDate t) (Some now)) tasks.
Proof.
  cbn [calculateTaskStats Stats.totalTasks Stats.completedTasks
       Stats.inProgressTasks Stats.pendingTasks Stats.overdueTasks].
  rewrite !Array_length_filter_count.
  repeat split; reflexivity.
Qed.

(** The displayed rate is always an integer nearest to
    [100 * completed / total]; which of the two it is when that value lies
    halfway is left to the binary64 product. *)
Lemma calculateTaskStats_rate_nearest (now : Z) (tasks : list Task) :
  0 < Array_length tasks < 2 ^ 32 ->
  let s := calculateTaskStats now tasks in
  exists n, Stats.completionPercentage s = Some n /\
            - Stats.totalTasks s
            <= 2 * n * Stats.totalTasks s - 200 * Stats.completedTasks s
            <= Stats.totalTasks s.
Proof.
  intros Hlen s. subst s. rewrite calculateTaskStats_rate.
  cbn [calculateTaskStats Stats.totalTasks Stats.completedTasks].
  destruct (Z.ltb_spec 0 (Array_length tasks)) as [_|Hc]; [|lia].
  apply completion_rate_nearest; [|exact Hlen].
  apply Array_length_filter.
Qed.

Lemma round_half_up_percent_spec (c t : Z) :
  0 < t ->
  2 * t * round_half_up_percent c t <= 200 * c + t
  < 2 * t * (round_half_up_percent c t + 1).
Proof.
  intros Ht. unfold round_half_up_percent.
  split.
  - apply Z.mul_div_le. lia.
  - replace ((200 * c + t) / (2 * t) + 1) with (Z.succ ((200 * c + t) / (2 * t)))
      by lia.
    apply Z.mul_succ_div_gt. lia.
Qed.

(** X23. Away from the exact halves the displayed rate is the half-up rounding
    of the specification; on an exact half it is that value or one less. *)
Lemma calculateTaskStats_rate_half_up_unless_tie (now : Z) (tasks : list Task) :
  0 < Array_length tasks < 2 ^ 32 ->
  let s := calculateTaskStats now tasks in
  let r := round_half_up_percent (Stats.completedTasks s) (Stats.totalTasks s) in
  exists n, Stats.completionPercentage s = Some n /\
            (n = r \/
             n = r - 1 /\
             200 * Stats.completedTasks s + Stats.totalTasks s
             = 2 * Stats.totalTasks s * r).
Proof.
  intros Hlen s r.
  destruct (calculateTaskStats_rate_nearest now tasks Hlen) as (n & Hn & Hb).
  fold s in Hn, Hb. exists n. split; [exact Hn|].
  assert (Ht : 0 < Stats.totalTasks s) by (subst s; simpl; lia).
  pose proof (round_half_up_percent_spec (Stats.completedTasks s)
                (Stats.totalTasks s) Ht) as Hr.
  fold r in Hr.
  set (t := Stats.totalTasks s) in *. set (c := Stats.completedTasks s) in *.
  clearbody t c r. clear -Hb Hr Ht.
  assert (Hle : n <= r) by nia.
  assert (Hge : r - 1 <= n) by nia.
  destruct (Z.eq_dec n r) as [->|Hne]; [left; reflexivity|].
  right. split; [lia|].
  assert (n = r - 1) by lia. subst n. nia.
Qed.

(** C10. For a collection of any content (a JS array has fewer than
    [2^32] elements), each of the four counters lies between 0 and the
    total, and the completion percentage is an integer between 0 and 100. *)
Theorem C10_stats_bounded (now : Z) (tasks : list Task) :
  Array_length tasks < 2 ^ 32 ->
  let s := calculateTaskStats now tasks in
  0 <= Stats.completedTasks s <= Stats.totalTasks s /\
  0 <= Stats.inProgressTasks s <= Stats.totalTasks s /\
  0 <= Stats.pendingTasks s <= Stats.totalTasks s /\
  0 <= Stats.overdueTasks s <= Stats.totalTasks s /\
  exists n, Stats.completionPercentage s = Some n /\ 0 <= n <= 100.
Proof.
  intros Hlen s. subst s.
  repeat (split; [apply Array_length_filter|]).
  rewrite calculateTaskStats_rate.
  destruct (Z.ltb_spec 0 (Array_length tasks)) as [Hpos|Hzero].
  - apply completion_rate_range; [apply Array_length_filter|lia].
  - exists 0. split; [reflexivity|lia].
Qed.

(** C4, at a collection of 40 tasks of which 23 are completed: the
    counters are 40 and 23, the exact rate 57.5 rounds half-up to 58, and
    the program yields 57, the binary64 product [(23 / 40) * 100] lying
    just below 57.5. *)
Theorem C4_rate_23_of_40_is_57 :
  let s := calculateTaskStats 0 forty_tasks in
  Stats.totalTasks s = 40 /\ Stats.completedTasks s = 23 /\
  round_half_up_percent (Stats.completedTasks s) (Stats.totalTasks s) = 58 /\
  Stats.completionPercentage s = Some 57.
Proof. vm_compute. repeat split. Qed.

(** *** The ISO 8601 instance reads back what it writes *)

Section ISO8601Facts.

Import ISO8601.

Lemma InLeapYear_range y : 0 <= InLeapYear y <= 1.
Proof. unfold InLeapYear. destruct (_ && _)%bool; lia. Qed.

Lemma DayFromYear_succ y :
  DayFromYear (y + 1) = DayFromYear y + 365 + InLeapYear y.
Proof.
  unfold DayFromYear, InLeapYear.
  destruct (Z.eqb_spec (y mod 4) 0), (Z.eqb_spec (y mod 100) 0),
           (Z.eqb_spec (y mod 400) 0); cbn [negb andb orb];
    Z.to_euclidean_division_equations; lia.
Qed.

Lemma YearFromDay_spec day :
  DayFromYear (YearFromDay day) <= day < DayFromYear (YearFromDay day + 1).
Proof.
  unfold YearFromDay.
  set (y0 := 1970 + 400 * day / 146097).
  assert (Hlo : DayFromYear (y0 - 1) <= day).
  { unfold DayFromYear, y0. Z.to_euclidean_division_equations. lia. }
  assert (Hhi : day < DayFromYear (y0 + 2)).
  { unfold DayFromYear, y0. Z.to_euclidean_division_equations. lia. }
  destruct (Z.ltb_spec day (DayFromYear y0)) as [H1|H1].
  - replace (y0 - 1 + 1) with y0 by lia. lia.
  - destruct (Z.leb_spec (DayFromYear (y0 + 1)) day) as [H2|H2].
    + replace (y0 + 1 + 1) with (y0 + 2) by lia. lia.
    + lia.
Qed.

Lemma MonthFromDay_range leap d :
  0 <= leap <= 1 -> 0 <= d < 365 + leap ->
  0 <= MonthFromDay leap d <= 11 /\
  1 <= d - month_start leap (MonthFromDay leap d) + 1 <= 31.
Proof.
  intros Hl Hd. unfold MonthFromDay.
  repeat (match goal with
          | |- context [?a <? ?b] => destruct (Z.ltb_spec a b)
          end; [cbn [month_start]; lia|]).
  cbn [month_start]. lia.
Qed.

Lemma digit_value_digit k : 0 <= k <= 9 -> digit_value (digit k) = Some k.
Proof.
  intros Hk. unfold digit_value, digit.
  rewrite nat_ascii_embedding by lia.
  replace (Nat.leb 48 (48 + Z.to_nat k)) with true
    by (symmetry; apply Nat.leb_le; lia).
  replace (Nat.leb (48 + Z.to_nat k) 57) with true
    by (symmetry; apply Nat.leb_le; lia).
  cbn [andb]. f_equal. lia.
Qed.

Lemma string_app_assoc (a b c : string) : (a ++ b) ++ c = a ++ (b ++ c).
Proof. induction a as [|x a IH]; simpl; [reflexivity|rewrite IH; reflexivity]. Qed.

Lemma digits_S_end n : forall acc s,
  digits (S n) acc s
  = r <- digits n acc s ;; let (v, s') := r in digits 1 v s'.
Proof.
  induction n as [|n IH]; intros acc s.
  - reflexivity.
  - cbn [digits]. destruct s as [|c s']; [reflexivity|].
    destruct (digit_value c) as [v|]; [|reflexivity].
    cbn [bind]. rewrite <- IH. reflexivity.
Qed.

Lemma digits_pad n : forall x acc rest,
  0 <= x < 10 ^ Z.of_nat n ->
  digits n acc (pad n x ++ rest) = Some (acc * 10 ^ Z.of_nat n + x, rest).
Proof.
  induction n as [|n IH]; intros x acc rest Hx.
  - cbn [pad digits append]. f_equal. f_equal. simpl in Hx. simpl. lia.
  - rewrite Nat2Z.inj_succ, Z.pow_succ_r in * by lia.
    rewrite digits_S_end. cbn [pad].
    rewrite string_app_assoc. cbn [append].
    rewrite IH by (Z.to_euclidean_division_equations; lia).
    cbn [bind digits].
    rewrite digit_value_digit by (Z.to_euclidean_division_equations; lia).
    cbn [bind]. f_equal. f_equal.
    Z.to_euclidean_division_equations. lia.
Qed.

Lemma parse_digit_start k s :
  0 <= k <= 9 -> parse (String (digit k) s) = parse_fields 4 1 (String (digit k) s).
Proof.
  intros Hk.
  assert (Hc : k = 0 \/ k = 1 \/ k = 2 \/ k = 3 \/ k = 4 \/ k = 5 \/ k = 6
               \/ k = 7 \/ k = 8 \/ k = 9) by lia.
  repeat (destruct Hc as [->|Hc]; [reflexivity|]). subst k. reflexivity.
Qed.

Lemma parse_signed (neg : bool) (p rest : string) :
  parse (((if neg then "-" else "+") ++ p) ++ rest)
  = parse_fields 6 (if neg then -1 else 1) (p ++ rest).
Proof. destruct neg; reflexivity. Qed.

Lemma YearFromDay_bounds day :
  -100000000 <= day <= 100000000 ->
  -271822 <= YearFromDay day <= 275760.
Proof.
  intros Hd. pose proof (YearFromDay_spec day) as Hy.
  set (y := YearFromDay day) in *. clearbody y.
  unfold DayFromYear in Hy. Z.to_euclidean_division_equations. lia.
Qed.

Lemma digits_pad_0 n x rest :
  0 <= x < 10 ^ Z.of_nat n -> digits n 0 (pad n x ++ rest) = Some (x, rest).
Proof. intros Hx. rewrite digits_pad by exact Hx. reflexivity. Qed.

Lemma in_range_true lo hi x : lo <= x <= hi -> in_range lo hi x = true.
Proof.
  intros H. unfold in_range. apply andb_true_iff. split; apply Z.leb_le; lia.
Qed.

(** The parser reads back the fields that the formatter wrote. *)
Lemma parse_fields_written n sign y mo d h mi sec ms :
  0 <= y < 10 ^ Z.of_nat n -> 1 <= mo <= 12 -> 1 <= d <= 31 ->
  0 <= h <= 23 -> 0 <= mi <= 59 -> 0 <= sec <= 59 -> 0 <= ms < 1000 ->
  parse_fields n sign
    (pad n y ++ "-" ++ pad 2 mo ++ "-" ++ pad 2 d ++ "T" ++ pad 2 h ++ ":"
           ++ pad 2 mi ++ ":" ++ pad 2 sec ++ "." ++ pad 3 ms ++ "Z")
  = let y' := sign * y in
    let day := DayFromYear y' + month_start (InLeapYear y') (mo - 1) + d - 1 in
    TimeClip (day * msPerDay + h * 3600000 + mi * 60000 + sec * 1000 + ms).
Proof.
  intros Hy Hmo Hd Hh Hmi Hsec Hms. unfold parse_fields.
  rewrite digits_pad_0 by exact Hy. cbn [bind append expect Ascii.eqb Bool.eqb].
  rewrite digits_pad_0 by (simpl; lia). cbn [bind append expect Ascii.eqb Bool.eqb].
  rewrite digits_pad_0 by (simpl; lia). cbn [bind].
  rewrite (in_range_true 1 12 mo Hmo), (in_range_true 1 31 d Hd).
  cbn [bind append expect Ascii.eqb Bool.eqb andb negb].
  rewrite digits_pad_0 by (simpl; lia). cbn [bind append expect Ascii.eqb Bool.eqb].
  rewrite digits_pad_0 by (simpl; lia). cbn [bind append expect Ascii.eqb Bool.eqb].
  rewrite digits_pad_0 by (simpl; lia). cbn [bind append expect Ascii.eqb Bool.eqb].
  rewrite digits_pad_0 by (simpl; lia).
  cbn [bind append expect Ascii.eqb Bool.eqb].
  rewrite (in_range_true 0 23 h Hh), (in_range_true 0 59 mi Hmi),
          (in_range_true 0 59 sec Hsec).
  cbn [andb negb].
  reflexivity.
Qed.

Theorem parse_toISOString t :
  - maxTime <= t <= maxTime -> parse (toISOString t) = Some t.
Proof.
  intros Ht. unfold toISOString.
  set (day := t / msPerDay). set (tod := t mod msPerDay).
  set (y := YearFromDay day). set (leap := InLeapYear y).
  set (doy := day - DayFromYear y).
  set (m := MonthFromDay leap doy).
  set (d := doy - month_start leap m + 1).
  assert (Hday : -100000000 <= day <= 100000000).
  { subst day. unfold maxTime, msPerDay in *.
    Z.to_euclidean_division_equations. lia. }
  assert (Htod : 0 <= tod < 86400000).
  { subst tod. unfold msPerDay. Z.to_euclidean_division_equations. lia. }
  assert (Hsplit : t = day * 86400000 + tod).
  { subst day tod. unfold msPerDay. Z.to_euclidean_division_equations. lia. }
  pose proof (YearFromDay_bounds day Hday) as Hy. fold y in Hy.
  pose proof (YearFromDay_spec day) as Hys. fold y in Hys.
  rewrite DayFromYear_succ in Hys. fold leap in Hys.
  pose proof (InLeapYear_range y) as Hl. fold leap in Hl.
  assert (Hdoy : 0 <= doy < 365 + leap) by (subst doy; lia).
  destruct (MonthFromDay_range leap doy Hl Hdoy) as [Hm Hd]. fold m in Hm, Hd. fold d in Hd.
  assert (Hback : forall y', y' = y ->
            TimeClip ((DayFromYear y' + month_start (InLeapYear y') (m + 1 - 1) + d - 1)
                      * msPerDay + tod / 3600000 * 3600000
                      + tod / 60000 mod 60 * 60000 + tod / 1000 mod 60 * 1000
                      + tod mod 1000) = Some t).
  { intros y' ->. fold leap. replace (m + 1 - 1) with m by lia.
    assert (E : (DayFromYear y + month_start leap m + d - 1) * msPerDay
                + tod / 3600000 * 3600000 + tod / 60000 mod 60 * 60000
                + tod / 1000 mod 60 * 1000 + tod mod 1000 = t).
    { replace (DayFromYear y + month_start leap m + d - 1) with day
        by (subst d doy; lia).
      unfold msPerDay. clear -Hsplit Htod.
      Z.to_euclidean_division_equations. lia. }
    rewrite E. unfold TimeClip.
    replace (Z.abs t <=? maxTime) with true; [reflexivity|].
    symmetry. apply Z.leb_le. lia. }
  assert (Hh : 0 <= tod / 3600000 <= 23)
    by (clearbody tod; Z.to_euclidean_division_equations; lia).
  assert (Hmi : 0 <= tod / 60000 mod 60 <= 59)
    by (clearbody tod; Z.to_euclidean_division_equations; lia).
  assert (Hse : 0 <= tod / 1000 mod 60 <= 59)
    by (clearbody tod; Z.to_euclidean_division_equations; lia).
  assert (Hms : 0 <= tod mod 1000 < 1000)
    by (clearbody tod; Z.to_euclidean_division_equations; lia).
  destruct ((0 <=? y) && (y <=? 9999))%bool eqn:Hrange.
  - apply andb_true_iff in Hrange. destruct Hrange as [H0 H9].
    apply Z.leb_le in H0, H9.
    assert (Hstart : exists k s', 0 <= k <= 9 /\ pad 4 y = String (digit k) s').
    { cbn [pad append]. eexists _, _. split; [|reflexivity].
      clear -H0 H9. Z.to_euclidean_division_equations. lia. }
    destruct Hstart as (k & s' & Hk & Hs').
    assert (Hp : forall rest, parse (pad 4 y ++ rest) = parse_fields 4 1 (pad 4 y ++ rest)).
    { intros rest. rewrite Hs'. cbn [append]. apply parse_digit_start, Hk. }
    rewrite Hp.
    rewrite parse_fields_written by (try lia; simpl; lia).
    cbv zeta. apply Hback. lia.
  - assert (Hout : y < 0 \/ 9999 < y).
    { apply andb_false_iff in Hrange. destruct Hrange as [H|H];
        [apply Z.leb_gt in H|apply Z.leb_gt in H]; lia. }
    rewrite parse_signed.
    rewrite parse_fields_written by (try lia; simpl; lia).
    cbv zeta. apply Hback.
    destruct (Z.ltb_spec y 0); lia.
Qed.

End ISO8601Facts.

(** *** Sorting, continued *)

Section ArraySortLaws.

Context {A : Type}.

Lemma insert_sorted_ext_in (cmp cmp' : A -> A -> Z) (x : A) (l : list A) :
  (forall y, In y l -> cmp x y = cmp' x y) ->
  insert_sorted cmp x l = insert_sorted cmp' x l.
Proof.
  induction l as [|y r IH]; intros Hext; [reflexivity|].
  cbn [insert_sorted]. rewrite (Hext y) by (left; reflexivity).
  rewrite IH; [reflexivity|]. intros z Hz. apply Hext. right. exact Hz.
Qed.

(** The sort only asks the comparator about elements of the array. *)
Lemma Array_sort_ext_in (cmp cmp' : A -> A -> Z) (l : list A) :
  (forall a b, In a l -> In b l -> cmp a b = cmp' a b) ->
  Array_sort cmp l = Array_sort cmp' l.
Proof.
  induction l as [|x l IH]; intros Hext; [reflexivity|].
  cbn [Array_sort fold_right]. fold (Array_sort cmp l). fold (Array_sort cmp' l).
  rewrite IH by (intros a b Ha Hb; apply Hext; right; assumption).
  apply insert_sorted_ext_in. intros y Hy. apply Hext; [left; reflexivity|].
  right. eapply Permutation_in; [|exact Hy].
  apply Permutation_sym, Array_sort_Permutation.
Qed.

Variable cmp : A -> A -> Z.

(** An array whose neighbours are in order is left as it is. *)
Lemma Array_sort_Sorted_id (l : list A) :
  Sorted (fun a b => cmp a b <= 0) l -> Array_sort cmp l = l.
Proof.
  induction 1 as [|x l Hl IH Hhd]; [reflexivity|].
  cbn [Array_sort fold_right]. fold (Array_sort cmp l). rewrite IH.
  destruct Hhd as [|y r Hxy]; [reflexivity|].
  cbn [insert_sorted]. destruct (Z.leb_spec (cmp x y) 0); [reflexivity|lia].
Qed.

(** A comparator that never puts two elements each after the other. *)
Hypothesis cmp_total : forall a b, 0 < cmp a b -> cmp b a <= 0.

Lemma insert_sorted_Sorted_total (x : A) (l : list A) :
  Sorted (fun a b => cmp a b <= 0) l ->
  Sorted (fun a b => cmp a b <= 0) (insert_sorted cmp x l).
Proof.
  induction 1 as [|y r Hr IH Hhd]; cbn [insert_sorted].
  - repeat constructor.
  - destruct (Z.leb_spec (cmp x y) 0) as [Hle|Hgt].
    + constructor; [constructor; assumption|]. constructor. exact Hle.
    + constructor; [exact IH|].
      destruct r as [|z r']; cbn [insert_sorted].
      * constructor. apply cmp_total, Hgt.
      * destruct (cmp x z <=? 0); constructor.
        -- apply cmp_total, Hgt.
        -- inversion Hhd; assumption.
Qed.

Lemma Array_sort_Sorted_total (l : list A) :
  Sorted (fun a b => cmp a b <= 0) (Array_sort cmp l).
Proof.
  induction l as [|x l IH]; [constructor|].
  cbn [Array_sort fold_right]. apply insert_sorted_Sorted_total, IH.
Qed.

Lemma Array_sort_idempotent (l : list A) :
  Array_sort cmp (Array_sort cmp l) = Array_sort cmp l.
Proof. apply Array_sort_Sorted_id, Array_sort_Sorted_total. Qed.

End ArraySortLaws.

Section SortLaws.

Variable toLowerCase : string -> string.
Variable localeCompare : string -> string -> Z.

Local Abbreviation sortTasks' := (sortTasks toLowerCase localeCompare).
Local Abbreviation compareTasks' := (compareTasks toLowerCase localeCompare).

(** X10. Whatever the key and the order, sorting neither loses nor duplicates
    nor invents a task. *)
Theorem sortTasks_Permutation (tasks : list Task) (sortBy : SortOption)
    (order : SortOrder) :
  Permutation tasks (sortTasks' tasks sortBy order) /\
  List.length (sortTasks' tasks sortBy order) = List.length tasks /\
  (forall t, In t (sortTasks' tasks sortBy order) <-> In t tasks).
Proof.
  assert (HP : Permutation tasks (sortTasks' tasks sortBy order))
    by apply Array_sort_Permutation.
  split; [exact HP|]. split.
  - symmetry. apply Permutation_length, HP.
  - intros t. split; apply Permutation_in; [apply Permutation_sym|]; exact HP.
Qed.

(** X11. By completion: ascending puts lower percentages first, descending
    higher ones first; either way tasks of one percentage keep the order
    they came in. *)
Theorem sortTasks_by_completion (tasks : list Task) :
  StronglySorted (fun a b => completionPercentage a <= completionPercentage b)
    (sortTasks' tasks by_completion asc) /\
  StronglySorted (fun a b => completionPercentage b <= completionPercentage a)
    (sortTasks' tasks by_completion desc) /\
  (forall order p,
     filter (fun t => completionPercentage t =? p) (sortTasks' tasks by_completion order)
     = filter (fun t => completionPercentage t =? p) tasks).
Proof.
  assert (Hasc : forall a b, compareTasks' by_completion asc a b
                             = completionPercentage a - completionPercentage b)
    by reflexivity.
  assert (Hdesc : forall a b, compareTasks' by_completion desc a b
                              = (- completionPercentage a) - (- completionPercentage b))
    by (intros; cbn; lia).
  split; [|split].
  - apply (Array_sort_StronglySorted _ _ Hasc).
  - pose proof (Array_sort_StronglySorted _ _ Hdesc tasks) as HS.
    unfold sortTasks. cbn zeta.
    induction HS as [|a l _ IH Hall]; constructor; [exact IH|].
    eapply Forall_impl; [|exact Hall]. cbn beta. intros b Hb. lia.
  - intros [|] p; unfold sortTasks; cbn zeta.
    + apply (Array_sort_stable _ _ Hasc).
    + pose proof (Array_sort_stable _ _ Hdesc (- p) tasks) as Hst.
      assert (Hext : forall l : list Task,
                filter (fun t => completionPercentage t =? p) l
                = filter (fun t => - completionPercentage t =? - p) l).
      { intros l. apply filter_ext. intros t.
        destruct (Z.eqb_spec (completionPercentage t) p),
                 (Z.eqb_spec (- completionPercentage t) (- p)); try reflexivity; lia. }
      rewrite !Hext. exact Hst.
Qed.

Lemma StronglySorted_impl_in {A : Type} (P : A -> Prop) (R R' : A -> A -> Prop)
    (l : list A) :
  (forall a b, P a -> P b -> R a b -> R' a b) ->
  Forall P l -> StronglySorted R l -> StronglySorted R' l.
Proof.
  intros Himp HP HS. induction HS as [|a l _ IH Hall]; constructor.
  - apply IH. inversion HP; assumption.
  - inversion HP as [|? ? Pa Pl]; subst.
    rewrite Forall_forall in *. intros b Hb. apply Himp; auto.
Qed.

(** Sorting by a date field of tasks that all have a valid one. *)
Lemma sort_by_date (field : Task -> Date) (sortBy : SortOption) (tasks : list Task) :
  (forall a b, comparison toLowerCase localeCompare sortBy a b
               = getTime_diff (field a) (field b)) ->
  Forall (fun t => has_Date (field t)) tasks ->
  StronglySorted (fun a b => Date_le (field a) (field b)) (sortTasks' tasks sortBy asc) /\
  StronglySorted (fun a b => Date_le (field b) (field a)) (sortTasks' tasks sortBy desc) /\
  (forall order d,
     filter (fun t => Date_eqb (field t) d) (sortTasks' tasks sortBy order)
     = filter (fun t => Date_eqb (field t) d) tasks).
Proof.
  intros Hcmp Hvalid.
  set (key := fun t : Task => match field t with Some x => x | None => 0 end).
  assert (Hdiff : forall a b, has_Date (field a) -> has_Date (field b) ->
                    getTime_diff (field a) (field b) = key a - key b).
  { intros a b [x Hx] [y Hy]. unfold key. rewrite Hx, Hy. reflexivity. }
  assert (Hin : forall t, In t tasks -> has_Date (field t))
    by (apply Forall_forall, Hvalid).
  assert (Hasc : sortTasks' tasks sortBy asc
                 = Array_sort (fun a b => key a - key b) tasks).
  { apply Array_sort_ext_in. intros a b Ha Hb. cbn [compareTasks].
    rewrite Hcmp. apply Hdiff; auto. }
  assert (Hdesc : sortTasks' tasks sortBy desc
                  = Array_sort (fun a b => (- key a) - (- key b)) tasks).
  { apply Array_sort_ext_in. intros a b Ha Hb. cbn [compareTasks].
    rewrite Hcmp, Hdiff by auto. lia. }
  assert (Hsorted : forall cmp, Forall (fun t => has_Date (field t)) (Array_sort cmp tasks)).
  { intros cmp. eapply Permutation_Forall; [apply Array_sort_Permutation|exact Hvalid]. }
  assert (Hfilter : forall d l,
            Forall (fun t => has_Date (field t)) l ->
            filter (fun t => Date_eqb (field t) d) l
            = match d with
              | Some k => filter (fun t => key t =? k) l
              | None => []
              end).
  { intros [k|] l Hl; induction Hl as [|t l [x Hx] _ IH]; try reflexivity.
    - cbn [filter]. rewrite IH.
      replace (Date_eqb (field t) (Some k)) with (key t =? k)
        by (unfold key; rewrite Hx; reflexivity).
      reflexivity.
    - cbn [filter]. rewrite IH, Hx. reflexivity. }
  split; [|split].
  - rewrite Hasc.
    eapply StronglySorted_impl_in;
      [|apply Hsorted
       |apply (Array_sort_StronglySorted key _ (fun a b => eq_refl))].
    intros a b [x Hx] [y Hy]. unfold key, Date_le. rewrite Hx, Hy. auto.
  - rewrite Hdesc.
    eapply StronglySorted_impl_in;
      [|apply Hsorted
       |apply (Array_sort_StronglySorted (fun t => - key t) _ (fun a b => eq_refl))].
    intros a b [x Hx] [y Hy]. unfold key, Date_le. rewrite Hx, Hy. cbn beta. lia.
  - intros order d. rewrite !Hfilter; [|exact Hvalid|].
    + destruct d as [k|]; [|reflexivity]. destruct order.
      * rewrite Hasc. apply (Array_sort_stable key _ (fun a b => eq_refl)).
      * rewrite Hdesc.
        pose proof (Array_sort_stable (fun t => - key t) _ (fun a b => eq_refl) (- k) tasks)
          as Hst.
        assert (Hext : forall l : list Task,
                  filter (fun t => key t =? k) l = filter (fun t => - key t =? - k) l).
        { intros l. apply filter_ext. intros t.
          destruct (Z.eqb_spec (key t) k), (Z.eqb_spec (- key t) (- k));
            try reflexivity; lia. }
        rewrite !Hext. exact Hst.
    + apply Hsorted.
Qed.

(** X12. By start date and by due date, when every task has valid ones:
    ascending is chronological, descending the reverse, and tasks of one
    instant keep the order they came in. *)
Theorem sortTasks_by_date (tasks : list Task) :
  Forall (fun t => has_Date (startDate t) /\ has_Date (dueDate t)) tasks ->
  StronglySorted (fun a b => Date_le (startDate a) (startDate b))
    (sortTasks' tasks by_start_date asc) /\
  StronglySorted (fun a b => Date_le (startDate b) (startDate a))
    (sortTasks' tasks by_start_date desc) /\
  (forall order d,
     filter (fun t => Date_eqb (startDate t) d) (sortTasks' tasks by_start_date order)
     = filter (fun t => Date_eqb (startDate t) d) tasks) /\
  StronglySorted (fun a b => Date_le (dueDate a) (dueDate b))
    (sortTasks' tasks by_due_date asc) /\
  StronglySorted (fun a b => Date_le (dueDate b) (dueDate a))
    (sortTasks' tasks by_due_date desc) /\
  (forall order d,
     filter (fun t => Date_eqb (dueDate t) d) (sortTasks' tasks by_due_date order)
     = filter (fun t => Date_eqb (dueDate t) d) tasks).
Proof.
  intros Hvalid.
  destruct (sort_by_date startDate by_start_date tasks) as (H1 & H2 & H3);
    [reflexivity|eapply Forall_impl; [|exact Hvalid]; intros t H; apply H|].
  destruct (sort_by_date dueDate by_due_date tasks) as (H4 & H5 & H6);
    [reflexivity|eapply Forall_impl; [|exact Hvalid]; intros t H; apply H|].
  repeat split; assumption.
Qed.

(** X13. Alphabetical order, for a [localeCompare] that is a consistent
    comparator: titles ascend, or descend, ignoring case. *)
Theorem sortTasks_alphabetical (tasks : list Task) :
  (forall a b, Z.sgn (localeCompare b a) = - Z.sgn (localeCompare a b)) ->
  (forall a b c, localeCompare a b <= 0 -> localeCompare b c <= 0 ->
                 localeCompare a c <= 0) ->
  StronglySorted
    (fun a b => localeCompare (toLowerCase (title a)) (toLowerCase (title b)) <= 0)
    (sortTasks' tasks by_alphabetical asc) /\
  StronglySorted
    (fun a b => localeCompare (toLowerCase (title b)) (toLowerCase (title a)) <= 0)
    (sortTasks' tasks by_alphabetical desc).
Proof.
  intros Hanti Htrans. split.
  - apply Sorted_StronglySorted.
    + intros a b c. apply Htrans.
    + apply (Array_sort_Sorted_total (compareTasks' by_alphabetical asc)).
      intros a b. cbn [compareTasks comparison].
      specialize (Hanti (toLowerCase (title a)) (toLowerCase (title b))). lia.
  - apply Sorted_StronglySorted.
    + intros a b c Hab Hbc. eapply Htrans; eassumption.
    + pose proof (Array_sort_Sorted_total (compareTasks' by_alphabetical desc)) as HS.
      eapply Sorted_ind with (P := fun l => Sorted _ l);
        [constructor| |apply HS].
      * intros a l _ IH Hhd. constructor; [exact IH|].
        destruct Hhd as [|b r Hab]; constructor.
        cbn [compareTasks comparison] in Hab.
        specialize (Hanti (toLowerCase (title a)) (toLowerCase (title b))). lia.
      * intros a b. cbn [compareTasks comparison].
        specialize (Hanti (toLowerCase (title a)) (toLowerCase (title b))). lia.
Qed.

(** X14. Sorting what is already sorted by the same key and order changes
    nothing, where the comparator is consistent: for a [localeCompare]
    whose sign flips with its arguments, and dates that are valid. *)
Theorem sortTasks_idempotent (tasks : list Task) (sortBy : SortOption)
    (order : SortOrder) :
  (forall a b, Z.sgn (localeCompare b a) = - Z.sgn (localeCompare a b)) ->
  Forall (fun t => has_Date (startDate t) /\ has_Date (dueDate t)) tasks ->
  sortTasks' (sortTasks' tasks sortBy order) sortBy order = sortTasks' tasks sortBy order.
Proof.
  intros Hanti _. apply Array_sort_idempotent.
  assert (Hdiff : forall x y, 0 < getTime_diff x y -> getTime_diff y x <= 0).
  { intros [x|] [y|]; cbn; lia. }
  intros a b.
  destruct order, sortBy; cbn [compareTasks comparison]; try lia.
  - specialize (Hanti (toLowerCase (title a)) (toLowerCase (title b))). lia.
  - apply Hdiff.
  - apply Hdiff.
  - specialize (Hanti (toLowerCase (title a)) (toLowerCase (title b))). lia.
  - pose proof (Hdiff (startDate b) (startDate a)).
    pose proof (Hdiff (startDate a) (startDate b)).
    destruct (startDate a), (startDate b); cbn in *; lia.
  - destruct (dueDate a), (dueDate b); cbn in *; lia.
Qed.

End SortLaws.

(** *** The task list view *)

Section ViewLaws.

Variable toLowerCase : string -> string.
Variable localeCompare : string -> string -> Z.

Local Abbreviation filteredTasks' := (filteredTasks toLowerCase).
Local Abbreviation sortedTasks' := (sortedTasks toLowerCase localeCompare).

(** X15. The list that is rendered holds exactly the tasks that pass the search
    and the status filter, each as often as the collection holds it; the
    count shown never exceeds the total shown. *)
Theorem sortedTasks_shows_matches (tasks : list Task) (searchQuery : string)
    (filterStatus : StatusFilter) (sortBy : SortOption) (sortOrder : SortOrder) :
  Permutation (filteredTasks' tasks searchQuery filterStatus)
              (sortedTasks' tasks searchQuery filterStatus sortBy sortOrder) /\
  (forall t, In t (sortedTasks' tasks searchQuery filterStatus sortBy sortOrder)
             <-> In t tasks /\ matchesSearch toLowerCase searchQuery t = true
                 /\ matchesFilter filterStatus t = true) /\
  0 <= fst (showing toLowerCase localeCompare tasks searchQuery filterStatus
              sortBy sortOrder)
    <= snd (showing toLowerCase localeCompare tasks searchQuery filterStatus
              sortBy sortOrder).
Proof.
  assert (HP : Permutation (filteredTasks' tasks searchQuery filterStatus)
                 (sortedTasks' tasks searchQuery filterStatus sortBy sortOrder))
    by apply Array_sort_Permutation.
  split; [exact HP|]. split.
  - intros t. split.
    + intros H. apply (Permutation_in _ (Permutation_sym HP)) in H.
      apply filter_In in H. destruct H as [Hin H].
      apply andb_true_iff in H. tauto.
    + intros (Hin & Hs & Hf). apply (Permutation_in _ HP).
      apply filter_In. split; [exact Hin|]. rewrite Hs, Hf. reflexivity.
  - cbn [showing fst snd]. unfold Array_length at 1 2.
    rewrite <- (Permutation_length HP).
    unfold filteredTasks. apply Array_length_filter.
Qed.

(** X16. The three status filters split what the filter [all] shows: the
    counts add up, and no task passes two of them. *)
Theorem status_filters_partition (tasks : list Task) (searchQuery : string)
    (s s' : TaskStatus) :
  Array_length (filteredTasks' tasks searchQuery all)
  = Array_length (filteredTasks' tasks searchQuery (only pending))
    + Array_length (filteredTasks' tasks searchQuery (only in_progress))
    + Array_length (filteredTasks' tasks searchQuery (only completed)) /\
  filteredTasks' (filteredTasks' tasks searchQuery (only s)) searchQuery (only s')
  = (if TaskStatus_eqb s s' then filteredTasks' tasks searchQuery (only s) else []) /\
  (forall t, In t (filteredTasks' tasks searchQuery all) <->
             exists s0, In t (filteredTasks' tasks searchQuery (only s0))).
Proof.
  split; [|split].
  - unfold filteredTasks, Array_length. cbn [matchesFilter].
    induction tasks as [|t l IH]; [reflexivity|].
    cbn [filter].
    destruct (matchesSearch toLowerCase searchQuery t); cbn [andb]; [|exact IH].
    destruct (status t); cbn [TaskStatus_eqb List.length];
      rewrite !Nat2Z.inj_succ; lia.
  - unfold filteredTasks. cbn [matchesFilter].
    induction tasks as [|t l IH]; [destruct (TaskStatus_eqb s s'); reflexivity|].
    cbn [filter].
    destruct (matchesSearch toLowerCase searchQuery t) eqn:Em; cbn [andb]; [|exact IH].
    destruct (TaskStatus_eqb (status t) s) eqn:Es; [|exact IH].
    cbn [filter]. rewrite Em, IH. cbn [andb].
    apply TaskStatus_eqb_eq in Es. rewrite Es.
    destruct (TaskStatus_eqb s s'); reflexivity.
  - unfold filteredTasks. intros t. split.
    + intros H. apply filter_In in H. destruct H as [Hin H].
      exists (status t). apply filter_In. split; [exact Hin|].
      rewrite andb_true_r in H. rewrite H. apply TaskStatus_eqb_eq. reflexivity.
    + intros [s0 H]. apply filter_In in H. destruct H as [Hin H].
      apply filter_In. split; [exact Hin|].
      apply andb_true_iff in H. rewrite (proj1 H). reflexivity.
Qed.

Lemma includes_app_l (s a b : string) : includes s (a ++ b) = true -> includes s a = true.
Proof.
  rewrite !includes_spec. intros (pre & post & ->).
  exists pre, (b ++ post). rewrite string_app_assoc. reflexivity.
Qed.

Lemma includes_app_r (s a b : string) : includes s (a ++ b) = true -> includes s b = true.
Proof.
  rewrite !includes_spec. intros (pre & post & ->).
  exists (pre ++ a), post. rewrite !string_app_assoc. reflexivity.
Qed.

Lemma filter_filter_implied {A : Type} (p q : A -> bool) (l : list A) :
  (forall a, In a l -> q a = true -> p a = true) -> filter q (filter p l) = filter q l.
Proof.
  intros Himp. induction l as [|a l IH]; [reflexivity|].
  cbn [filter]. destruct (p a) eqn:Ep.
  - cbn [filter]. rewrite IH by (intros b Hb; apply Himp; right; exact Hb).
    reflexivity.
  - destruct (q a) eqn:Eq.
    + rewrite (Himp a (or_introl eq_refl) Eq) in Ep. discriminate.
    + apply IH. intros b Hb. apply Himp. right. exact Hb.
Qed.

(** ECMAScript: on ASCII text [toLowerCase] sends A to Z to a to z and
    leaves every other character. *)
Hypothesis toLowerCase_ASCII :
  forall s, ASCII s -> toLowerCase s = string_toLowerCase s.

(** X17. Typing on narrows the search, on ASCII text: a longer query shows no
    task that either of its parts hides, and searching within the earlier
    result is the same as searching the whole collection. *)
Theorem search_narrows (tasks : list Task) (searchQuery more : string)
    (filterStatus : StatusFilter) :
  ASCII searchQuery -> ASCII more ->
  Forall (fun t => ASCII (title t) /\ ASCII (description t)) tasks ->
  incl (filteredTasks' tasks (searchQuery ++ more) filterStatus)
       (filteredTasks' tasks searchQuery filterStatus) /\
  incl (filteredTasks' tasks (searchQuery ++ more) filterStatus)
       (filteredTasks' tasks more filterStatus) /\
  filteredTasks' (filteredTasks' tasks searchQuery filterStatus)
                 (searchQuery ++ more) filterStatus
  = filteredTasks' tasks (searchQuery ++ more) filterStatus.
Proof.
  intros Hq Hmore Htasks. rewrite Forall_forall in Htasks.
  assert (Hqm : ASCII (searchQuery ++ more)) by (apply ASCII_app; auto).
  assert (Hl : forall t, In t tasks ->
                 matchesSearch toLowerCase (searchQuery ++ more) t = true ->
                 matchesSearch toLowerCase searchQuery t = true).
  { intros t Hin. destruct (Htasks t Hin) as [Ht Hd]. unfold matchesSearch.
    rewrite !toLowerCase_ASCII by assumption.
    rewrite string_toLowerCase_app, !orb_true_iff.
    intros [H|H]; [left|right]; eapply includes_app_l; exact H. }
  assert (Hr : forall t, In t tasks ->
                 matchesSearch toLowerCase (searchQuery ++ more) t = true ->
                 matchesSearch toLowerCase more t = true).
  { intros t Hin. destruct (Htasks t Hin) as [Ht Hd]. unfold matchesSearch.
    rewrite !toLowerCase_ASCII by assumption.
    rewrite string_toLowerCase_app, !orb_true_iff.
    intros [H|H]; [left|right]; eapply includes_app_r; exact H. }
  unfold filteredTasks. split; [|split].
  - intros t Ht. apply filter_In in Ht. apply filter_In.
    destruct Ht as [Hin H]. apply andb_true_iff in H. destruct H as [Hs Hf].
    split; [exact Hin|]. rewrite (Hl t Hin Hs), Hf. reflexivity.
  - intros t Ht. apply filter_In in Ht. apply filter_In.
    destruct Ht as [Hin H]. apply andb_true_iff in H. destruct H as [Hs Hf].
    split; [exact Hin|]. rewrite (Hr t Hin Hs), Hf. reflexivity.
  - apply filter_filter_implied. intros t Hin H.
    apply andb_true_iff in H. destruct H as [Hs Hf].
    rewrite (Hl t Hin Hs), Hf. reflexivity.
Qed.

End ViewLaws.

(** *** Statistics, continued *)

Lemma count_if_Permutation {A : Type} (p : A -> bool) (l l' : list A) :
  Permutation l l' -> count_if p l = count_if p l'.
Proof.
  induction 1 as [|x l l' _ IH|x y l|l l' l'' _ IH1 _ IH2]; cbn [count_if];
    try lia.
Qed.

Lemma overdue_filter_standing (now : Z) (tasks : list Task) : forall k,
  overdue_filter (fun _ => now) k tasks
  = filter (fun t => negb (isCompleted t) && Date_ltb (dueDate t) (Some now)) tasks.
Proof.
  induction tasks as [|t l IH]; intros k; [reflexivity|].
  cbn [overdue_filter filter]. destruct (isCompleted t); cbn [negb andb].
  - apply IH.
  - rewrite IH. reflexivity.
Qed.

Lemma clock_monotone (clock : nat -> Z) :
  (forall k, clock k <= clock (S k)) -> forall k j, clock k <= clock (k + j)%nat.
Proof.
  intros Hstep k j. induction j as [|j IH].
  - rewrite Nat.add_0_r. lia.
  - rewrite Nat.add_succ_r. specialize (Hstep (k + j)%nat). lia.
Qed.

Lemma count_overdue_monotone (now now' : Z) (tasks : list Task) :
  now <= now' ->
  count_if (fun t => negb (isCompleted t) && Date_ltb (dueDate t) (Some now)) tasks
  <= count_if (fun t => negb (isCompleted t) && Date_ltb (dueDate t) (Some now')) tasks.
Proof.
  intros Hle. induction tasks as [|t l IH]; [reflexivity|]. cbn [count_if].
  destruct (isCompleted t); cbn [negb andb]; [exact IH|].
  destruct (dueDate t) as [d|]; cbn [Date_ltb]; [|exact IH].
  destruct (Z.ltb_spec d now), (Z.ltb_spec d now'); lia.
Qed.

(** Under a clock that never runs backwards the count of the code lies
    between the counts at its first and at its last reading. *)
Lemma overdue_filter_bracket (clock : nat -> Z) (tasks : list Task) :
  (forall k, clock k <= clock (S k)) ->
  forall k,
  count_if (fun t => negb (isCompleted t) && Date_ltb (dueDate t) (Some (clock k))) tasks
  <= Array_length (overdue_filter clock k tasks)
  <= count_if (fun t => negb (isCompleted t)
                        && Date_ltb (dueDate t)
                             (Some (clock (k + List.length tasks)%nat))) tasks.
Proof.
  intros Hstep. pose proof (clock_monotone clock Hstep) as Hmono.
  unfold Array_length.
  induction tasks as [|t l IH]; intros k; [cbn; lia|].
  cbn [overdue_filter count_if List.length].
  destruct (isCompleted t); cbn [negb andb].
  - specialize (IH k).
    pose proof (count_overdue_monotone (clock (k + List.length l)%nat)
                  (clock (k + S (List.length l))%nat) l) as Hup.
    rewrite Nat.add_succ_r in Hup |- *. specialize (Hup (Hstep _)). lia.
  - specialize (IH (S k)).
    pose proof (count_overdue_monotone (clock k) (clock (S k)) l (Hstep k)) as Hlow.
    replace (k + S (List.length l))%nat with (S k + List.length l)%nat by lia.
    pose proof (Hmono k (S (List.length l))) as Hk.
    replace (k + S (List.length l))%nat with (S k + List.length l)%nat in Hk by lia.
    destruct (dueDate t) as [d|]; cbn [Date_ltb].
    + destruct (Z.ltb_spec d (clock k)),
               (Z.ltb_spec d (clock (S k + List.length l)%nat));
        cbn [List.length]; rewrite ?Nat2Z.inj_succ; lia.
    + lia.
Qed.


Section StatsLaws.

Variable Date_parse : string -> option Z.

(** X19. In a collection built by the handlers every task counts under
    exactly one of completed, in progress and pending. *)
Theorem stats_partition_reachable (now : Z) (tasks : list Task) :
  reachable Date_parse tasks ->
  let s := calculateTaskStats now tasks in
  Stats.completedTasks s + Stats.inProgressTasks s + Stats.pendingTasks s
  = Stats.totalTasks s.
Proof.
  intros Hr. apply reachable_Forall_flag_agrees in Hr.
  destruct (calculateTaskStats_counts now tasks) as (Ht & Hc & Hi & Hp & _).
  cbv zeta in *. rewrite Ht, Hc, Hi, Hp. clear Ht Hc Hi Hp.
  induction Hr as [|t l [Hflag _] _ IH]; [reflexivity|].
  cbn [count_if List.length]. rewrite Nat2Z.inj_succ.
  destruct (isCompleted t) eqn:Ec.
  - rewrite (proj1 Hflag eq_refl). cbn [TaskStatus_eqb]. lia.
  - destruct (status t) eqn:Es; cbn [TaskStatus_eqb]; try lia.
    destruct Hflag as [_ Hflag]. specialize (Hflag eq_refl). discriminate.
Qed.

End StatsLaws.

(** X20. A completed task is never counted overdue, and as time passes the
    overdue count only grows; nothing else in the statistics depends on
    the clock. *)
Theorem overdue_grows_with_time (now now' : Z) (tasks : list Task) :
  now <= now' ->
  let s := calculateTaskStats now tasks in
  let s' := calculateTaskStats now' tasks in
  Stats.overdueTasks s <= Stats.overdueTasks s' /\
  Stats.overdueTasks s + Stats.completedTasks s <= Stats.totalTasks s /\
  Stats.totalTasks s' = Stats.totalTasks s /\
  Stats.completedTasks s' = Stats.completedTasks s /\
  Stats.inProgressTasks s' = Stats.inProgressTasks s /\
  Stats.pendingTasks s' = Stats.pendingTasks s /\
  Stats.completionPercentage s' = Stats.completionPercentage s.
Proof.
  intros Hle.
  destruct (calculateTaskStats_counts now tasks) as (Ht & Hc & _ & _ & Ho).
  destruct (calculateTaskStats_counts now' tasks) as (_ & _ & _ & _ & Ho').
  cbv zeta in *.
  split; [|split; [|repeat split; reflexivity]]; rewrite ?Ho, ?Ho', ?Hc, ?Ht;
    clear Ho Ho' Hc Ht.
  - induction tasks as [|t l IH]; [reflexivity|]. cbn [count_if].
    destruct (isCompleted t); cbn [negb andb]; [exact IH|].
    destruct (dueDate t) as [d|]; cbn [Date_ltb]; [|exact IH].
    destruct (Z.ltb_spec d now), (Z.ltb_spec d now'); lia.
  - induction tasks as [|t l IH]; [reflexivity|].
    cbn [count_if List.length]. rewrite Nat2Z.inj_succ.
    destruct (isCompleted t); cbn [negb andb]; [lia|].
    destruct (Date_ltb (dueDate t) (Some now)); lia.
Qed.

(** X21. With every task completed the rate is 100 and with none it is 0; a
    rate of 100 is shown from 99.5 percent on, a rate of 0 up to half a
    percent. *)
Theorem rate_extremes (now : Z) (tasks : list Task) :
  0 < Array_length tasks < 2 ^ 32 ->
  let s := calculateTaskStats now tasks in
  (Stats.completedTasks s = Stats.totalTasks s ->
   Stats.completionPercentage s = Some 100) /\
  (Stats.completedTasks s = 0 -> Stats.completionPercentage s = Some 0) /\
  (Stats.completionPercentage s = Some 100 ->
   199 * Stats.totalTasks s <= 200 * Stats.completedTasks s) /\
  (Stats.completionPercentage s = Some 0 ->
   200 * Stats.completedTasks s <= Stats.totalTasks s).
Proof.
  intros Hlen s.
  destruct (calculateTaskStats_rate_nearest now tasks Hlen) as (n & Hn & Hb).
  fold s in Hn, Hb.
  assert (Ht : Stats.totalTasks s = Array_length tasks) by reflexivity.
  rewrite Hn. repeat split.
  - intros Hc. rewrite Hc in Hb. f_equal. nia.
  - intros Hc. rewrite Hc in Hb. f_equal. nia.
  - intros Hs. injection Hs as ->. lia.
  - intros Hs. injection Hs as ->. lia.
Qed.

Lemma map_if_absent (f : Task -> Task) (id' : string) (tasks : list Task) :
  ~ In id' (map id tasks) ->
  map (fun task => if String.eqb (id task) id' then f task else task) tasks = tasks.
Proof.
  intros Hnot. induction tasks as [|t l IH]; [reflexivity|].
  cbn [map]. rewrite IH by (intros H; apply Hnot; right; exact H).
  destruct (String.eqb_spec (id t) id') as [He|_]; [|reflexivity].
  exfalso. apply Hnot. left. exact He.
Qed.

(** X22. With distinct ids, checking a task raises the completed count by
    one and unchecking lowers it by one, the total staying; deleting it
    lowers the total by one. *)
Theorem stats_follow_the_handlers (id' : string) (now clock : Z)
    (tasks : list Task) (t : Task) :
  NoDup (map id tasks) -> In t tasks -> id t = id' ->
  let s := calculateTaskStats clock tasks in
  let toggled_s := calculateTaskStats clock (handleToggleComplete id' now tasks) in
  let deleted_s := calculateTaskStats clock (handleDeleteTask id' true tasks) in
  Stats.totalTasks toggled_s = Stats.totalTasks s /\
  Stats.completedTasks toggled_s
  = Stats.completedTasks s + (if isCompleted t then -1 else 1) /\
  Stats.totalTasks deleted_s = Stats.totalTasks s - 1.
Proof.
  intros Hnd Hin Hid.
  destruct (calculateTaskStats_counts clock tasks) as (Ht & Hc & _).
  destruct (calculateTaskStats_counts clock (handleToggleComplete id' now tasks))
    as (Ht1 & Hc1 & _).
  destruct (calculateTaskStats_counts clock (handleDeleteTask id' true tasks))
    as (Ht2 & _).
  cbv zeta in *. rewrite Ht, Hc, Ht1, Hc1, Ht2. clear Ht Hc Ht1 Hc1 Ht2.
  unfold handleToggleComplete, handleDeleteTask.
  split; [rewrite length_map; reflexivity|].
  induction tasks as [|t0 l IH]; [destruct Hin|].
  cbn [map] in Hnd. inversion Hnd as [|? ? Hnot Hl]; subst.
  cbn [map filter count_if List.length].
  destruct (String.eqb_spec (id t0) (id t)) as [He|Hne].
  - assert (t = t0) as ->.
    { destruct Hin as [H|H]; [auto|]. exfalso. apply Hnot. rewrite He.
      apply in_map. exact H. }
    rewrite map_if_absent by exact Hnot. cbn [negb].
    rewrite delete_keeps_others by exact Hnot.
    split; [|lia]. unfold toggled; cbn [isCompleted].
    destruct (isCompleted t0); cbn [negb]; lia.
  - destruct Hin as [H|H]; [congruence|].
    destruct (IH Hl H) as [IH1 IH2]. cbn [negb List.length].
    rewrite IH1, Nat2Z.inj_succ, IH2. split; lia.
Qed.

(** *** Persistence, continued *)

Lemma traverse_map {A B C : Type} (f : A -> B) (g : B -> option C) (h : A -> C)
    (l : list A) :
  Forall (fun a => g (f a) = Some (h a)) l -> traverse g (map f l) = Some (map h l).
Proof.
  induction 1 as [|a l Ha _ IH]; [reflexivity|].
  cbn [map traverse]. rewrite Ha. cbn [bind]. rewrite IH. reflexivity.
Qed.

Section PersistenceLaws.

Variable toISOString : Z -> string.
Variable Date_parse : string -> option Z.

Hypothesis Date_parse_toISOString :
  forall t, - maxTime <= t <= maxTime -> Date_parse (toISOString t) = Some t.

Lemma new_Date_toJSON_reloaded (d : Date) :
  Date_in_range d ->
  new_Date Date_parse (Some (Date_toJSON toISOString d)) = Some (reloaded_Date d).
Proof.
  intros Hd. destruct d as [t|]; [|reflexivity].
  cbn [Date_toJSON new_Date reloaded_Date].
  rewrite Date_parse_toISOString by (apply Hd; reflexivity). reflexivity.
Qed.

Lemma revive_toJSON_reloaded (t : Task) :
  dates_in_range t -> revive Date_parse (Task_toJSON toISOString t) = Some (reloaded t).
Proof.
  intros (Hs & Hd & Hc & Hu). unfold revive, Task_toJSON.
  cbn [member String.eqb Ascii.eqb Bool.eqb].
  rewrite TaskStatus_ofString_toString, TaskCategory_ofString_toString,
          TaskPriority_ofString_toString.
  cbn [bind].
  rewrite !new_Date_toJSON_reloaded by assumption. reflexivity.
Qed.

Lemma reloaded_dates_in_range (t : Task) : dates_in_range t -> valid_dates (reloaded t).
Proof.
  assert (H : forall d, Date_in_range d -> valid_Date (reloaded_Date d)).
  { intros [x|] Hd; cbn [reloaded_Date].
    - exists x. split; [reflexivity|]. apply Hd. reflexivity.
    - exists 0. split; [reflexivity|]. unfold maxTime. lia. }
  intros (Hs & Hd & Hc & Hu). repeat split; apply H; assumption.
Qed.

Lemma load_save_map_reloaded (tasks : list Task) (localStorage : Storage) :
  Forall dates_in_range tasks ->
  load Date_parse (save toISOString tasks localStorage) = Some (map reloaded tasks, []).
Proof.
  intros Hl. unfold load, save, getItem, setItem, tasks_toJSON.
  cbn [String.eqb Ascii.eqb Bool.eqb]. rewrite existsb_is_null_toJSON.
  rewrite (traverse_map _ _ reloaded); [reflexivity|].
  eapply Forall_impl; [|exact Hl]. intros t. apply revive_toJSON_reloaded.
Qed.

(** X24. Saving and loading any collection gives it back with every Invalid
    Date replaced by the epoch and nothing else changed; what was loaded
    survives further save and load cycles as it is. *)
Theorem load_save_reloaded (tasks : list Task) (localStorage localStorage' : Storage) :
  Forall dates_in_range tasks ->
  load Date_parse (save toISOString tasks localStorage)
  = Some (map reloaded tasks, []) /\
  load Date_parse (save toISOString (map reloaded tasks) localStorage')
  = Some (map reloaded tasks, []).
Proof.
  intros Hv.
  split; [apply load_save_map_reloaded, Hv|].
  rewrite load_save_map_reloaded.
  - rewrite map_map. f_equal. f_equal. apply map_ext_in. intros t Ht.
    rewrite Forall_forall in Hv. specialize (Hv t Ht).
    unfold reloaded; cbn.
    destruct (startDate t), (dueDate t), (createdAt t), (updatedAt t); reflexivity.
  - rewrite Forall_map. eapply Forall_impl; [|exact Hv].
    intros t Ht. destruct (reloaded_dates_in_range t Ht) as (Hs & Hd & Hc & Hu).
    assert (H : forall d, valid_Date d -> Date_in_range d).
    { intros d (y & -> & Hr) x Hx. injection Hx as <-. exact Hr. }
    split; [|split; [|split]]; apply H; assumption.
Qed.

End PersistenceLaws.

Section ReloadLaws.

Variable toISOString : Z -> string.
Variable Date_parse : string -> option Z.

Hypothesis Date_parse_toISOString :
  forall t, - maxTime <= t <= maxTime -> Date_parse (toISOString t) = Some t.

(** X25. A task without a valid due date is never overdue while the page
    stays open, but after a reload its due date is the epoch: every such
    task that is not completed then counts as overdue. The other counters
    are what they were. *)
Theorem reload_makes_undated_tasks_overdue (now : Z) (tasks : list Task)
    (localStorage : Storage) :
  Forall dates_in_range tasks -> 0 < now ->
  exists tasks',
    load Date_parse (save toISOString tasks localStorage) = Some (tasks', []) /\
    let s := calculateTaskStats now tasks in
    let s' := calculateTaskStats now tasks' in
    Stats.overdueTasks s'
    = Stats.overdueTasks s
      + count_if (fun t => negb (isCompleted t) && Date_isInvalid (dueDate t)) tasks /\
    Stats.totalTasks s' = Stats.totalTasks s /\
    Stats.completedTasks s' = Stats.completedTasks s /\
    Stats.inProgressTasks s' = Stats.inProgressTasks s /\
    Stats.pendingTasks s' = Stats.pendingTasks s /\
    Stats.completionPercentage s' = Stats.completionPercentage s.
Proof.
  intros Hv Hnow. exists (map reloaded tasks).
  split; [apply (load_save_map_reloaded toISOString Date_parse Date_parse_toISOString
                   tasks localStorage Hv)|].
  cbv zeta.
  assert (Hf : forall p : Task -> bool,
            (forall t, p (reloaded t) = p t) ->
            Array_length (filter p (map reloaded tasks)) = Array_length (filter p tasks)).
  { intros p Hp. rewrite !Array_length_filter_count.
    clear Hv. induction tasks as [|t l IH]; [reflexivity|].
    cbn [map count_if]. rewrite Hp, IH. reflexivity. }
  assert (Hlen : Array_length (map reloaded tasks) = Array_length tasks)
    by (unfold Array_length; rewrite length_map; reflexivity).
  split; [|repeat split].
  - destruct (calculateTaskStats_counts now tasks) as (_ & _ & _ & _ & Ho).
    destruct (calculateTaskStats_counts now (map reloaded tasks)) as (_ & _ & _ & _ & Ho').
    cbv zeta in Ho, Ho'. rewrite Ho, Ho'. clear Ho Ho' Hf Hlen Hv.
    induction tasks as [|t l IH]; [reflexivity|].
    cbn [map count_if]. rewrite IH. cbn [reloaded isCompleted dueDate].
    destruct (isCompleted t); cbn [negb andb]; [lia|].
    destruct (dueDate t) as [d|]; cbn [reloaded_Date Date_ltb Date_isInvalid]; [lia|].
    destruct (Z.ltb_spec 0 now); lia.
  - exact Hlen.
  - apply (Hf isCompleted). reflexivity.
  - apply (Hf (fun t => TaskStatus_eqb (status t) in_progress)). reflexivity.
  - apply (Hf (fun t => TaskStatus_eqb (status t) pending)). reflexivity.
  - rewrite !calculateTaskStats_rate, Hlen, (Hf isCompleted) by reflexivity.
    reflexivity.
Qed.

End ReloadLaws.

(** *** Export *)

Section ExportLaws.

Import ISO8601.

Lemma digit_not_T k : 0 <= k <= 9 -> Ascii.eqb (digit k) "T" = false.
Proof.
  intros Hk.
  assert (Hc : k = 0 \/ k = 1 \/ k = 2 \/ k = 3 \/ k = 4 \/ k = 5 \/ k = 6
               \/ k = 7 \/ k = 8 \/ k = 9) by lia.
  repeat (destruct Hc as [->|Hc]; [reflexivity|]). subst k. reflexivity.
Qed.

Lemma split_T_0_pad n : forall x rest,
  split_T_0 (pad n x ++ rest) = pad n x ++ split_T_0 rest.
Proof.
  induction n as [|n IH]; intros x rest; [reflexivity|].
  cbn [pad]. rewrite !string_app_assoc, IH. cbn [append split_T_0].
  rewrite digit_not_T; [reflexivity|].
  Z.to_euclidean_division_equations; lia.
Qed.

Lemma split_T_0_sign (neg : bool) (s : string) :
  split_T_0 ((if neg then "-" else "+") ++ s)
  = (if neg then "-" else "+") ++ split_T_0 s.
Proof. destruct neg; reflexivity. Qed.

Lemma parse_fields_date_written n sign y mo d :
  0 <= y < 10 ^ Z.of_nat n -> 1 <= mo <= 12 -> 1 <= d <= 31 ->
  parse_fields n sign (pad n y ++ "-" ++ pad 2 mo ++ "-" ++ pad 2 d ++ EmptyString)
  = let y' := sign * y in
    TimeClip ((DayFromYear y' + month_start (InLeapYear y') (mo - 1) + d - 1) * msPerDay).
Proof.
  intros Hy Hmo Hd. unfold parse_fields.
  rewrite digits_pad_0 by exact Hy. cbn [bind append expect Ascii.eqb Bool.eqb].
  rewrite digits_pad_0 by (simpl; lia). cbn [bind append expect Ascii.eqb Bool.eqb].
  rewrite digits_pad_0 by (simpl; lia). cbn [bind].
  rewrite (in_range_true 1 12 mo Hmo), (in_range_true 1 31 d Hd).
  cbn [andb negb]. reflexivity.
Qed.

(** X26. An export offers the document that saving stores, under the name
    [tasks-], the UTC calendar day of the export, [.json]: the day in it
    reads back as the UTC midnight before the export, and two exports of
    one UTC day share their name. *)
Theorem handleExportTasks_utc_day (now : Z) (tasks : list Task) :
  - maxTime <= now <= maxTime ->
  exists date,
    snd (handleExportTasks toISOString now tasks) = "tasks-" ++ date ++ ".json" /\
    parse date = Some (now / msPerDay * msPerDay) /\
    now / msPerDay * msPerDay <= now < now / msPerDay * msPerDay + msPerDay /\
    (forall now' tasks', now' / msPerDay = now / msPerDay ->
       snd (handleExportTasks toISOString now' tasks') = "tasks-" ++ date ++ ".json") /\
    (forall localStorage,
       getItem "tasks" (save toISOString tasks localStorage)
       = Some (fst (handleExportTasks toISOString now tasks))).
Proof.
  intros Ht.
  assert (Hname : forall t,
    link_download toISOString t
    = "tasks-" ++
      (let day := t / msPerDay in
       let y := YearFromDay day in
       let leap := InLeapYear y in
       let doy := day - DayFromYear y in
       let m := MonthFromDay leap doy in
       let d := doy - month_start leap m + 1 in
       (if (0 <=? y) && (y <=? 9999) then pad 4 y
        else (if y <? 0 then "-" else "+") ++ pad 6 (Z.abs y))
       ++ "-" ++ pad 2 (m + 1) ++ "-" ++ pad 2 d ++ EmptyString) ++ ".json").
  { intros t. unfold link_download, toISOString. cbv zeta.
    f_equal. f_equal.
    destruct ((0 <=? YearFromDay (t / msPerDay)) && (YearFromDay (t / msPerDay) <=? 9999))%bool.
    - rewrite split_T_0_pad. f_equal. cbn [append split_T_0 Ascii.eqb Bool.eqb].
      f_equal. rewrite split_T_0_pad. f_equal.
      cbn [append split_T_0 Ascii.eqb Bool.eqb].
      f_equal. rewrite split_T_0_pad. reflexivity.
    - rewrite string_app_assoc, split_T_0_sign.
      rewrite string_app_assoc. f_equal.
      rewrite split_T_0_pad. f_equal. cbn [append split_T_0 Ascii.eqb Bool.eqb].
      f_equal. rewrite split_T_0_pad. f_equal.
      cbn [append split_T_0 Ascii.eqb Bool.eqb].
      f_equal. rewrite split_T_0_pad. reflexivity. }
  eexists. split; [apply Hname|]. cbv zeta.
  set (day := now / msPerDay).
  set (y := YearFromDay day). set (leap := InLeapYear y).
  set (doy := day - DayFromYear y).
  set (m := MonthFromDay leap doy).
  set (d := doy - month_start leap m + 1).
  assert (Hday : -100000000 <= day <= 100000000).
  { subst day. unfold maxTime, msPerDay in *.
    Z.to_euclidean_division_equations. lia. }
  cbn [handleExportTasks fst snd].
  split; [|split; [|split]].
  - pose proof (YearFromDay_bounds day Hday) as Hy. fold y in Hy.
    pose proof (YearFromDay_spec day) as Hys. fold y in Hys.
    rewrite DayFromYear_succ in Hys. fold leap in Hys.
    pose proof (InLeapYear_range y) as Hl. fold leap in Hl.
    assert (Hdoy : 0 <= doy < 365 + leap) by (subst doy; lia).
    destruct (MonthFromDay_range leap doy Hl Hdoy) as [Hm Hd].
    fold m in Hm, Hd. fold d in Hd.
    assert (Hback : forall y', y' = y ->
              TimeClip ((DayFromYear y' + month_start (InLeapYear y') (m + 1 - 1) + d - 1)
                        * msPerDay) = Some (day * msPerDay)).
    { intros y' ->. fold leap. replace (m + 1 - 1) with m by lia.
      replace (DayFromYear y + month_start leap m + d - 1) with day
        by (subst d doy; lia).
      unfold TimeClip.
      replace (Z.abs (day * msPerDay) <=? maxTime) with true; [reflexivity|].
      symmetry. apply Z.leb_le. subst day. unfold maxTime, msPerDay in *.
      Z.to_euclidean_division_equations. lia. }
    destruct ((0 <=? y) && (y <=? 9999))%bool eqn:Hrange.
    + apply andb_true_iff in Hrange. destruct Hrange as [H0 H9].
      apply Z.leb_le in H0, H9.
      assert (Hstart : exists k s', 0 <= k <= 9 /\ pad 4 y = String (digit k) s').
      { cbn [pad append]. eexists _, _. split; [|reflexivity].
        clear -H0 H9. Z.to_euclidean_division_equations. lia. }
      destruct Hstart as (k & s' & Hk & Hs').
      assert (Hp : forall rest, parse (pad 4 y ++ rest) = parse_fields 4 1 (pad 4 y ++ rest)).
      { intros rest. rewrite Hs'. cbn [append]. apply parse_digit_start, Hk. }
      rewrite Hp.
      rewrite parse_fields_date_written by (try lia; simpl; lia).
      cbv zeta. apply Hback. lia.
    + assert (Hout : y < 0 \/ 9999 < y).
      { apply andb_false_iff in Hrange. destruct Hrange as [H|H];
          [apply Z.leb_gt in H|apply Z.leb_gt in H]; lia. }
      rewrite parse_signed.
      rewrite parse_fields_date_written by (try lia; simpl; lia).
      cbv zeta. apply Hback.
      destruct (Z.ltb_spec y 0); lia.
  - subst day. unfold msPerDay. clear. Z.to_euclidean_division_equations. lia.
  - intros now' _ Hsame. rewrite Hname. cbv zeta. rewrite Hsame. reflexivity.
  - reflexivity.
Qed.

End ExportLaws.

(** *** The task card: days until due *)

Section DaysUntilDue.

Local Open Scope Q_scope.

Lemma Zdigits2_unique m n :
  (2 ^ (n - 1) <= m < 2 ^ n)%Z -> (0 < n)%Z -> Zdigits2 m = n.
Proof.
  intros [Hlo Hhi] Hn.
  assert (Hm : (0 < m)%Z).
  { assert (0 < 2 ^ (n - 1))%Z by (apply Z.pow_pos_nonneg; lia). lia. }
  destruct m as [|p|p]; try lia. cbn [Zdigits2].
  pose proof (digits2_pos_bounds p) as [Hl Hu].
  set (d := Z.pos (digits2_pos p)) in *.
  assert (Hd : (0 < d)%Z) by (subst d; lia).
  destruct (Z.lt_trichotomy d n) as [Hlt|[Heq|Hgt]]; [|exact Heq|].
  - assert (2 ^ d <= 2 ^ (n - 1))%Z by (apply Z.pow_le_mono_r; lia). lia.
  - assert (2 ^ n <= 2 ^ (d - 1))%Z by (apply Z.pow_le_mono_r; lia). lia.
Qed.

Lemma Zdigits2_bounds m :
  (0 < m)%Z -> (2 ^ (Zdigits2 m - 1) <= m < 2 ^ Zdigits2 m)%Z.
Proof.
  intros Hm. destruct m as [|p|p]; try lia. apply digits2_pos_bounds.
Qed.

Lemma Zdigits2_shift z k :
  (0 < z)%Z -> (0 <= k)%Z -> Zdigits2 (z * 2 ^ k) = (Zdigits2 z + k)%Z.
Proof.
  intros Hz Hk. pose proof (Zdigits2_bounds z Hz) as [Hl Hu].
  pose proof (Zdigits2_pos z Hz) as Hd.
  assert (Hp : (0 < 2 ^ k)%Z) by (apply Z.pow_pos_nonneg; lia).
  apply Zdigits2_unique; [|lia]. split.
  - replace (Zdigits2 z + k - 1)%Z with (Zdigits2 z - 1 + k)%Z by lia.
    rewrite Z.pow_add_r by lia. nia.
  - rewrite Z.pow_add_r by lia. nia.
Qed.

Lemma Zdigits2_le_53 z : (0 < z < 2 ^ 53)%Z -> (1 <= Zdigits2 z <= 53)%Z.
Proof.
  intros Hz. pose proof (Zdigits2_bounds z ltac:(lia)) as [Hl _].
  pose proof (Zdigits2_pos z ltac:(lia)).
  split; [lia|].
  destruct (Z_le_gt_dec (Zdigits2 z) 53) as [Hle|Hgt]; [exact Hle|].
  assert (2 ^ 53 <= 2 ^ (Zdigits2 z - 1))%Z by (apply Z.pow_le_mono_r; lia).
  lia.
Qed.

(** An integer sits exactly on a mantissa. *)
Lemma inb_integer m l k : inb m l (inject_Z k) -> m = k /\ l = loc_Exact.
Proof.
  intros H. pose proof (inb_bounds _ _ _ H) as [Hlo Hhi].
  assert (Hmk : m = k).
  { rewrite <- Zle_Qle in Hlo.
    change 1 with (inject_Z 1) in Hhi. rewrite <- inject_Z_plus, <- Zlt_Qlt in Hhi.
    lia. }
  split; [exact Hmk|]. subst k.
  destruct l as [|[ | | ]]; [reflexivity| | |]; cbn [inb] in H; lra.
Qed.

Lemma Number_canonical_mantissa z :
  (0 < z < 2 ^ 53)%Z ->
  Z.pos (Z.to_pos (z * 2 ^ (53 - Zdigits2 z))) = (z * 2 ^ (53 - Zdigits2 z))%Z.
Proof.
  intros Hz. pose proof (Zdigits2_le_53 z Hz).
  apply Z2Pos.id. apply Z.mul_pos_pos; [lia|apply Z.pow_pos_nonneg; lia].
Qed.

(** Rounding a mantissa whose value is an integer of at most 53 bits
    gives that integer. *)
Lemma binary_round_aux_integer s M e z :
  (0 < z < 2 ^ 53)%Z -> (e <= 0)%Z -> Z.pos M = (z * 2 ^ (- e))%Z ->
  (e <= Zdigits2 z - 53)%Z ->
  binary_round_aux prec emax s (Z.pos M) e loc_Exact = Number_canonical s z.
Proof.
  intros Hz He HM Hfe.
  pose proof (Zdigits2_le_53 z Hz) as HD.
  set (D := Zdigits2 z) in *.
  assert (HdM : Zdigits2 (Z.pos M) = (D - e)%Z).
  { rewrite HM, Zdigits2_shift by lia. fold D. lia. }
  assert (Hfexp : fexp prec emax (Zdigits2 (Z.pos M) + e) = (D - 53)%Z).
  { rewrite HdM. unfold fexp, emin, prec, emax. lia. }
  pose proof (Number_canonical_mantissa z Hz) as Hcan. fold D in Hcan.
  destruct (Z.eq_dec e (D - 53)) as [Heq|Hne].
  - rewrite binary_round_aux_exact by (rewrite ?Hfexp; unfold prec, emax; lia).
    unfold Number_canonical. fold D. f_equal; [|exact Heq].
    apply Pos2Z.inj. rewrite Hcan, HM. f_equal. f_equal. lia.
  - assert (Hex : inb (Z.pos M) loc_Exact (inject_Z (Z.pos M))) by (simpl; reflexivity).
    destruct (shr_fexp_inb (Z.pos M) e loc_Exact _ ltac:(lia) Hex) as (He1 & H1 & Hm1).
    rewrite Hfexp in He1, H1.
    replace (Z.max 0 (D - 53 - e)) with (D - 53 - e)%Z in He1, H1 by lia.
    unfold binary_round_aux.
    destruct (shr_fexp prec emax (Z.pos M) e loc_Exact) as [rs1 e1] eqn:E1.
    cbn [fst snd] in He1, H1, Hm1.
    assert (Hval : inject_Z (Z.pos M) * bpow (- (D - 53 - e))
                   == inject_Z (z * 2 ^ (53 - D))).
    { rewrite HM, !inject_Z_mult, <- !bpow_Z by lia.
      rewrite <- Qmult_assoc, <- bpow_add.
      replace (- e + - (D - 53 - e))%Z with (53 - D)%Z by lia. reflexivity. }
    apply (inb_compat _ _ _ _ Hval) in H1.
    apply inb_integer in H1. destruct H1 as [Hm Hl].
    rewrite Hm, Hl. cbn [round_nearest_even].
    unfold shr_fexp.
    replace (fexp prec emax (Zdigits2 (z * 2 ^ (53 - D)) + e1) - e1)%Z with 0%Z.
    + cbn [shr shr_record_of_loc shr_m]. rewrite <- Hcan.
      replace (e1 <=? emax - prec)%Z with true
        by (symmetry; apply Z.leb_le; unfold emax, prec; lia).
      unfold Number_canonical. fold D. f_equal. lia.
    + rewrite Zdigits2_shift by lia. fold D.
      unfold fexp, emin, prec, emax. lia.
Qed.

Lemma binary_round_integer s p e z :
  (0 < z < 2 ^ 53)%Z -> (e <= 0)%Z -> Z.pos p = (z * 2 ^ (- e))%Z ->
  binary_round prec emax s p e = Number_canonical s z.
Proof.
  intros Hz He Hp.
  pose proof (Zdigits2_le_53 z Hz) as HD.
  assert (Hdp : Z.pos (digits2_pos p) = (Zdigits2 z - e)%Z).
  { change (Z.pos (digits2_pos p)) with (Zdigits2 (Z.pos p)).
    rewrite Hp, Zdigits2_shift by lia. lia. }
  unfold binary_round. rewrite Hdp.
  replace (fexp prec emax (Zdigits2 z - e + e)) with (Zdigits2 z - 53)%Z
    by (unfold fexp, emin, prec, emax; lia).
  unfold shl_align.
  destruct (Zdigits2 z - 53 - e)%Z as [|k|k] eqn:Ek.
  - apply binary_round_aux_integer; try assumption. lia.
  - apply binary_round_aux_integer; try assumption. lia.
  - apply binary_round_aux_integer; try lia.
    rewrite iter_xO_value, Hp, <- Z.mul_assoc, <- Z.pow_add_r by lia.
    f_equal. f_equal. lia.
Qed.

(** Every integer of at most 53 bits is a Number. *)
Lemma Number_of_Z_canonical z :
  (0 < Z.abs z < 2 ^ 53)%Z -> Number_of_Z z = Number_canonical (z <? 0)%Z (Z.abs z).
Proof.
  intros Hz. unfold Number_of_Z, binary_normalize.
  destruct z as [|p|p]; [simpl in Hz; lia| |].
  - apply binary_round_integer; [exact Hz|lia|]. simpl. lia.
  - apply binary_round_integer; [exact Hz|lia|]. simpl. lia.
Qed.

Lemma Number_canonical_exponent z :
  (0 < z < 2 ^ 53)%Z ->
  (Zdigits2 z - 53 <= 0)%Z /\
  Z.pos (Z.to_pos (z * 2 ^ (53 - Zdigits2 z))) = (z * 2 ^ (- (Zdigits2 z - 53)))%Z.
Proof.
  intros Hz. pose proof (Zdigits2_le_53 z Hz). split; [lia|].
  rewrite Number_canonical_mantissa by exact Hz. f_equal. f_equal. lia.
Qed.

Lemma shl_align_value m e e' :
  (e' <= e)%Z -> Z.pos (fst (shl_align m e e')) = (Z.pos m * 2 ^ (e - e'))%Z.
Proof.
  intros He. unfold shl_align. destruct (e' - e)%Z as [|k|k] eqn:Ek; cbn [fst].
  - replace (e - e')%Z with 0%Z by lia. simpl. lia.
  - lia.
  - rewrite iter_xO_value. f_equal. f_equal. lia.
Qed.

Lemma binary_normalize_integer d e :
  (0 < Z.abs d < 2 ^ 53)%Z -> (e <= 0)%Z ->
  binary_normalize prec emax (d * 2 ^ (- e)) e false
  = Number_canonical (d <? 0)%Z (Z.abs d).
Proof.
  intros Hd He.
  assert (Hp : (0 < 2 ^ (- e))%Z) by (apply Z.pow_pos_nonneg; lia).
  destruct (2 ^ (- e))%Z as [|P|P] eqn:EP; try lia.
  destruct d as [|p|p]; [simpl in Hd; lia| |];
    cbn [Z.mul binary_normalize Z.ltb Z.compare Z.abs];
    (apply binary_round_integer; [exact Hd|exact He|rewrite EP; reflexivity]).
Qed.

Lemma cond_Zopp_sub a b P :
  (cond_Zopp (a <? 0) (Z.abs a * P) - cond_Zopp (b <? 0) (Z.abs b * P)
   = (a - b) * P)%Z.
Proof.
  unfold cond_Zopp.
  destruct (Z.ltb_spec a 0), (Z.ltb_spec b 0);
    rewrite ?(Z.abs_eq a), ?(Z.abs_neq a), ?(Z.abs_eq b), ?(Z.abs_neq b) by lia;
    ring.
Qed.

(** The difference of two integers is exact when it has at most 53 bits. *)
Lemma Number_sub_exact a b :
  (Z.abs a < 2 ^ 53)%Z -> (Z.abs b < 2 ^ 53)%Z -> (Z.abs (a - b) < 2 ^ 53)%Z ->
  Number_sub (Number_of_Z a) (Number_of_Z b) = Number_of_Z (a - b).
Proof.
  intros Ha Hb Hab.
  destruct (Z.eq_dec a 0) as [->|Ha0]; [|destruct (Z.eq_dec b 0) as [->|Hb0]].
  - destruct (Z.eq_dec b 0) as [->|Hb0]; [reflexivity|].
    rewrite (Number_of_Z_canonical b), (Number_of_Z_canonical (0 - b)) by lia.
    change (Number_of_Z 0) with (S754_zero false).
    unfold Number_canonical, Number_sub. cbn [SFsub].
    replace (Z.abs (0 - b)) with (Z.abs b) by lia.
    f_equal. destruct (Z.ltb_spec b 0), (Z.ltb_spec (0 - b) 0); try reflexivity; lia.
  - rewrite Z.sub_0_r. rewrite (Number_of_Z_canonical a) by lia. reflexivity.
  - rewrite (Number_of_Z_canonical a), (Number_of_Z_canonical b) by lia.
    destruct (Number_canonical_exponent (Z.abs a) ltac:(lia)) as [Hea Hma].
    destruct (Number_canonical_exponent (Z.abs b) ltac:(lia)) as [Heb Hmb].
    unfold Number_canonical, Number_sub. cbn [SFsub].
    set (ea := (Zdigits2 (Z.abs a) - 53)%Z) in *.
    set (eb := (Zdigits2 (Z.abs b) - 53)%Z) in *.
    set (ma := Z.to_pos (Z.abs a * 2 ^ (53 - Zdigits2 (Z.abs a)))) in *.
    set (mb := Z.to_pos (Z.abs b * 2 ^ (53 - Zdigits2 (Z.abs b)))) in *.
    set (ez := Z.min ea eb).
    assert (Hez : (ez <= ea /\ ez <= eb /\ ez <= 0)%Z) by (subst ez; lia).
    clearbody ez ea eb ma mb.
    rewrite !shl_align_value by lia.
    rewrite Hma, Hmb, <- !Z.mul_assoc, <- !Z.pow_add_r by lia.
    replace (- ea + (ea - ez))%Z with (- ez)%Z by lia.
    replace (- eb + (eb - ez))%Z with (- ez)%Z by lia.
    rewrite cond_Zopp_sub.
    destruct (Z.eq_dec (a - b) 0) as [H0|H0].
    + rewrite H0. reflexivity.
    + rewrite (Number_of_Z_canonical (a - b)) by (clear -Hab H0; lia).
      apply binary_normalize_integer; [clear -Hab H0; lia|lia].
Qed.

(** The sign takes no part in the rounding. *)
Lemma binary_round_aux_opp m e l :
  binary_round_aux prec emax true m e l
  = SFopp (binary_round_aux prec emax false m e l).
Proof.
  unfold binary_round_aux.
  destruct (shr_fexp prec emax m e l) as [rs1 e1].
  destruct (shr_fexp prec emax _ e1 loc_Exact) as [rs2 e2].
  destruct (shr_m rs2); [reflexivity| |reflexivity].
  destruct (e2 <=? emax - prec)%Z; reflexivity.
Qed.

Lemma SFdiv_opp mx ex my ey :
  SFdiv prec emax (S754_finite true mx ex) (S754_finite false my ey)
  = SFopp (SFdiv prec emax (S754_finite false mx ex) (S754_finite false my ey)).
Proof.
  cbn [SFdiv xorb].
  destruct (SFdiv_core_binary prec emax (Z.pos mx) ex (Z.pos my) ey) as [[mz ez] lz].
  apply binary_round_aux_opp.
Qed.

Lemma Number_canonical_value z :
  (0 < z < 2 ^ 53)%Z ->
  Number_canonical false z
  = of_mantissa (Z.pos (Z.to_pos (z * 2 ^ (53 - Zdigits2 z)))) (Zdigits2 z - 53) /\
  inject_Z (Z.pos (Z.to_pos (z * 2 ^ (53 - Zdigits2 z)))) * bpow (Zdigits2 z - 53)
  == inject_Z z.
Proof.
  intros Hz. split; [reflexivity|].
  pose proof (Zdigits2_le_53 z Hz).
  rewrite Number_canonical_mantissa, inject_Z_mult, <- bpow_Z by lia.
  rewrite <- Qmult_assoc, <- bpow_add.
  replace (53 - Zdigits2 z + (Zdigits2 z - 53))%Z with 0%Z by lia.
  change (bpow 0) with 1. ring.
Qed.

Lemma mantissa_value m e z :
  (e <= 0)%Z -> Z.pos m = (z * 2 ^ (- e))%Z ->
  inject_Z (Z.pos m) * bpow e == inject_Z z.
Proof.
  intros He Hm. rewrite Hm, inject_Z_mult, <- bpow_Z by lia.
  rewrite <- Qmult_assoc, <- bpow_add.
  replace (- e + e)%Z with 0%Z by lia. change (bpow 0) with 1. ring.
Qed.

(** The quotient of a positive integer [z] by a positive integer [c], far
    enough from the limits of the format: exact when [c] divides [z],
    and otherwise strictly between the two integers around [z / c]. *)
Lemma SFdiv_integers mx ex my ey z c :
  (0 < z)%Z -> (0 < c < 2 ^ 27)%Z -> (z < 2 ^ 24 * c)%Z ->
  (ex <= 0)%Z -> Z.pos mx = (z * 2 ^ (- ex))%Z ->
  (ey <= 0)%Z -> Z.pos my = (c * 2 ^ (- ey))%Z ->
  exists m3 e3,
    (0 <= m3)%Z /\
    SFdiv prec emax (S754_finite false mx ex) (S754_finite false my ey)
    = of_mantissa m3 e3 /\
    ((z mod c = 0)%Z -> inject_Z m3 * bpow e3 == inject_Z (z / c)) /\
    ((z mod c <> 0)%Z ->
     inject_Z (z / c) < inject_Z m3 * bpow e3 /\
     inject_Z m3 * bpow e3 < inject_Z (z / c) + 1).
Proof.
  intros Hz Hc Hzc Hex Hmx Hey Hmy.
  pose proof (mantissa_value mx ex z Hex Hmx) as Hx.
  pose proof (mantissa_value my ey c Hey Hmy) as Hy.
  set (x := inject_Z (Z.pos mx) * bpow ex) in *.
  set (y := inject_Z (Z.pos my) * bpow ey) in *.
  assert (Hzq : 0 < inject_Z z) by (change 0 with (inject_Z 0); rewrite <- Zlt_Qlt; lia).
  assert (Hcq : 0 < inject_Z c) by (change 0 with (inject_Z 0); rewrite <- Zlt_Qlt; lia).
  assert (Hxy : x < bpow 24 * y).
  { rewrite Hx, Hy, bpow_Z by lia. rewrite <- inject_Z_mult, <- Zlt_Qlt. exact Hzc. }
  cbn [SFdiv xorb]. unfold SFdiv_core_binary.
  set (d1 := Zdigits2 (Z.pos mx)). set (d2 := Zdigits2 (Z.pos my)).
  set (e' := Z.min (fexp prec emax (d1 + ex - (d2 + ey))) (ex - ey)).
  set (s := (ex - ey - e')%Z).
  assert (Hs : (0 <= s)%Z) by (subst s e'; lia).
  set (m' := match s with
             | 0%Z => Z.pos mx
             | Z.pos _ => Z.shiftl (Z.pos mx) s
             | Z.neg _ => 0%Z
             end).
  assert (Hm' : m' = (Z.pos mx * 2 ^ s)%Z).
  { subst m'. destruct s as [|k|k] eqn:Es;
      [simpl; lia | apply Z.shiftl_mul_pow2; lia | lia]. }
  assert (Hdm := Z_div_mod m' (Z.pos my) ltac:(lia)).
  destruct (Z.div_eucl m' (Z.pos my)) as [q r] eqn:Ediv. destruct Hdm as [Hqr Hr].
  assert (Hq : (0 <= q)%Z).
  { assert (0 <= m')%Z by (rewrite Hm'; apply Z.mul_nonneg_nonneg; [lia|apply Z.pow_nonneg; lia]).
    destruct (Z_lt_le_dec q 0) as [Hneg|]; [|assumption]. nia. }
  assert (Hin := new_location_inb (Z.pos my) q r ltac:(lia) Hr).
  rewrite <- Hqr in Hin.
  set (u := inject_Z m' / inject_Z (Z.pos my)) in *.
  assert (Hval : u * bpow e' == inject_Z z / inject_Z c).
  { rewrite <- Hx, <- Hy. subst u x y. rewrite Hm', inject_Z_mult, <- bpow_Z by lia.
    assert (Hexs : bpow ex == bpow s * bpow e' * bpow ey).
    { rewrite <- !bpow_add. replace (s + e' + ey)%Z with ex by (subst s; lia).
      reflexivity. }
    rewrite Hexs. field. split.
    - assert (Hb := bpow_pos ey). lra.
    - assert (0 < inject_Z (Z.pos my)) by reflexivity. lra. }
  assert (H1 := Zdigits2_lower (Z.pos mx) ltac:(lia)).
  assert (H2 := Zdigits2_upper (Z.pos my) ltac:(lia)).
  fold d1 in H1. fold d2 in H2.
  assert (Hbx := bpow_pos ex). assert (Hby := bpow_pos ey).
  assert (Hxlo : bpow (d1 - 1 + ex) <= x).
  { rewrite bpow_add. apply Qmult_le_compat_r; lra. }
  assert (Hyhi : y < bpow (d2 + ey)).
  { rewrite bpow_add. apply Qmult_lt_compat_r; lra. }
  assert (Hd : (d1 + ex - (d2 + ey) <= 24)%Z).
  { assert (H3 : bpow (d1 - 1 + ex) < bpow (24 + (d2 + ey))).
    { rewrite (bpow_add 24).
      assert (bpow 24 * y < bpow 24 * bpow (d2 + ey)).
      { apply Qmult_lt_l; [apply bpow_pos|exact Hyhi]. }
      lra. }
    apply bpow_lt_inv in H3. lia. }
  assert (He' : (e' <= -29)%Z) by (subst e'; unfold fexp, emin, prec, emax; lia).
  destruct (Z.eq_dec (z mod c) 0) as [Hdiv|Hrem].
  - (* [c] divides [z] *)
    set (j := (z / c)%Z).
    assert (Hzj : z = (c * j)%Z).
    { subst j. rewrite (Z.div_mod z c) at 1 by lia. lia. }
    assert (Hj : (0 < j < 2 ^ 24)%Z) by nia.
    assert (Hm'j : m' = (Z.pos my * (j * 2 ^ (- e')))%Z).
    { assert (Hpow : (2 ^ (- ex) * 2 ^ s = 2 ^ (- ey) * 2 ^ (- e'))%Z).
      { rewrite <- !Z.pow_add_r by lia. f_equal. subst s. lia. }
      rewrite Hm', Hmx, Hmy, Hzj.
      transitivity (c * j * (2 ^ (- ex) * 2 ^ s))%Z; [ring|].
      rewrite Hpow. ring. }
    assert (Hp : (0 < 2 ^ (- e'))%Z) by (apply Z.pow_pos_nonneg; lia).
    assert (Hr0 : r = 0%Z /\ q = (j * 2 ^ (- e'))%Z).
    { assert (Z.pos my * (q - j * 2 ^ (- e')) + r = 0)%Z by lia.
      assert (q - j * 2 ^ (- e') = 0)%Z by nia. split; nia. }
    destruct Hr0 as [-> Hqj].
    replace (new_location (Z.pos my) 0) with loc_Exact
      by (unfold new_location, new_location_even, new_location_odd;
          destruct (Z.even (Z.pos my)); reflexivity).
    destruct q as [|Q|Q]; [nia| |lia].
    pose proof (Zdigits2_le_53 j ltac:(lia)) as HDj.
    pose proof (Zdigits2_bounds j ltac:(lia)) as [_ Hjhi].
    assert (Hdj : (d1 + ex - (d2 + ey) <= Zdigits2 j)%Z).
    { assert (Hxj : x == inject_Z j * y).
      { rewrite Hx, Hy, Hzj, inject_Z_mult. ring. }
      assert (Hjq : inject_Z j < bpow (Zdigits2 j)).
      { rewrite bpow_Z by lia. rewrite <- Zlt_Qlt. exact Hjhi. }
      assert (Hjpos : 0 < inject_Z j)
        by (change 0 with (inject_Z 0); rewrite <- Zlt_Qlt; lia).
      assert (Hypos : 0 < y) by (rewrite Hy; exact Hcq).
      assert (H3 : bpow (d1 - 1 + ex) < bpow (Zdigits2 j + (d2 + ey))).
      { rewrite (bpow_add (Zdigits2 j)).
        assert (inject_Z j * y < bpow (Zdigits2 j) * y)
          by (apply Qmult_lt_compat_r; assumption).
        assert (bpow (Zdigits2 j) * y < bpow (Zdigits2 j) * bpow (d2 + ey))
          by (apply Qmult_lt_l; [apply bpow_pos|exact Hyhi]).
        lra. }
      apply bpow_lt_inv in H3. lia. }
    rewrite (binary_round_aux_integer false Q e' j);
      [|lia|lia|exact Hqj|subst e'; unfold fexp, emin, prec, emax; lia].
    destruct (Number_canonical_value j ltac:(lia)) as [Hcan Hcv].
    eexists _, _. split; [|split; [exact Hcan|split]].
    + lia.
    + intros _. exact Hcv.
    + intros Hne. contradiction.
  - (* a remainder is left *)
    destruct (binary_round_aux_error q e' (new_location (Z.pos my) r) u 24 Hq Hin)
      as (m3 & e3 & Hm3 & He3 & Hres & Hlo & Hhi).
    + rewrite Hval. apply Qlt_shift_div_r; [exact Hcq|].
      rewrite bpow_Z by lia. rewrite <- inject_Z_mult, <- Zlt_Qlt. exact Hzc.
    + unfold emax. lia.
    + unfold fexp, emin, prec, emax. lia.
    + exists m3, e3. split; [exact Hm3|]. split; [exact Hres|].
      split; [intros H0; contradiction|]. intros _.
      rewrite Hval in Hlo, Hhi.
      change (fexp prec emax (24 + 1) + 1)%Z with (-27)%Z in Hlo, Hhi.
      set (j := (z / c)%Z). set (rr := (z mod c)%Z) in *.
      assert (Hzj : z = (c * j + rr)%Z) by (subst j rr; apply Z.div_mod; lia).
      assert (Hrr : (1 <= rr <= c - 1)%Z).
      { pose proof (Z.mod_pos_bound z c ltac:(lia)). fold rr in H. lia. }
      remember (inject_Z m3 * bpow e3) as v eqn:Ev.
      remember (inject_Z z / inject_Z c) as X eqn:EX.
      assert (HX : X * inject_Z c == inject_Z c * inject_Z j + inject_Z rr).
      { rewrite EX, <- inject_Z_mult, <- inject_Z_plus, <- Hzj. field. lra. }
      assert (Heps : bpow (-27) * inject_Z c < 1).
      { assert (inject_Z c < bpow 27)
          by (rewrite bpow_Z by lia; rewrite <- Zlt_Qlt; lia).
        assert (bpow (-27) * inject_Z c < bpow (-27) * bpow 27)
          by (apply Qmult_lt_l; [apply bpow_pos|assumption]).
        rewrite <- bpow_add in H0. change (bpow (-27 + 27)) with 1 in H0. exact H0. }
      assert (Hr1 : 1 <= inject_Z rr)
        by (change 1 with (inject_Z 1); rewrite <- Zle_Qle; lia).
      assert (Hr2 : inject_Z rr <= inject_Z c - 1).
      { change 1 with (inject_Z 1). unfold Qminus.
        rewrite <- inject_Z_opp, <- inject_Z_plus, <- Zle_Qle. lia. }
      assert (Hlo' : (v - X) * inject_Z c >= - bpow (-27) * inject_Z c).
      { apply Qmult_le_compat_r; lra. }
      assert (Hhi' : (v - X) * inject_Z c <= bpow (-27) * inject_Z c).
      { apply Qmult_le_compat_r; lra. }
      split.
      * destruct (Qlt_le_dec (inject_Z j) v) as [Hok|Hbad]; [exact Hok|exfalso].
        assert ((v - inject_Z j) * inject_Z c <= 0 * inject_Z c)
          by (apply Qmult_le_compat_r; lra).
        lra.
      * destruct (Qlt_le_dec v (inject_Z j + 1)) as [Hok|Hbad]; [exact Hok|exfalso].
        assert (0 * inject_Z c <= (v - (inject_Z j + 1)) * inject_Z c)
          by (apply Qmult_le_compat_r; lra).
        lra.
Qed.

Lemma Math_ceil_of_mantissa m3 e3 :
  (0 <= m3)%Z ->
  exists n, Math_ceil (of_mantissa m3 e3) = Some n /\
            inject_Z n - 1 < inject_Z m3 * bpow e3 /\
            inject_Z m3 * bpow e3 <= inject_Z n.
Proof.
  intros Hm. destruct m3 as [|p|p]; [| |lia]; cbn [of_mantissa Math_ceil].
  - exists 0%Z. split; [reflexivity|]. change (inject_Z 0) with 0. lra.
  - destruct (Z.leb_spec 0 e3) as [He|He].
    + exists (Z.pos p * 2 ^ e3)%Z. split; [reflexivity|].
      rewrite inject_Z_mult, <- bpow_Z by exact He. lra.
    + set (h := (2 ^ (- e3))%Z).
      assert (Hh : (0 < h)%Z) by (apply Z.pow_pos_nonneg; lia).
      exists (- (- Z.pos p / h))%Z. split; [reflexivity|].
      set (f := (- Z.pos p / h)%Z).
      assert (H1 : (h * f <= - Z.pos p)%Z) by (apply Z.mul_div_le; lia).
      assert (H2 : (- Z.pos p < h * (f + 1))%Z).
      { replace (f + 1)%Z with (Z.succ f) by lia. apply Z.mul_succ_div_gt. lia. }
      set (b := bpow e3). assert (Hb : 0 < b) by apply bpow_pos.
      assert (Hinv : inject_Z h * b == 1).
      { subst h b. rewrite <- bpow_Z by lia. rewrite <- bpow_add.
        replace (- e3 + e3)%Z with 0%Z by lia. reflexivity. }
      rewrite Zle_Qle in H1. rewrite Zlt_Qlt in H2.
      rewrite ?inject_Z_mult, ?inject_Z_plus, ?inject_Z_opp in H1, H2.
      rewrite ?inject_Z_plus in H2. change (inject_Z 1) with 1 in H2.
      rewrite inject_Z_opp.
      assert (Hf : inject_Z f == (inject_Z h * inject_Z f) * b).
      { transitivity (inject_Z f * (inject_Z h * b)); [rewrite Hinv|]; ring. }
      assert (Hf1 : inject_Z f + 1 == (inject_Z h * (inject_Z f + 1)) * b).
      { transitivity ((inject_Z f + 1) * (inject_Z h * b)); [rewrite Hinv|]; ring. }
      assert (Ha : inject_Z h * inject_Z f * b <= - inject_Z (Z.pos p) * b)
        by (apply Qmult_le_compat_r; [exact H1|lra]).
      assert (Hc : - inject_Z (Z.pos p) * b < inject_Z h * (inject_Z f + 1) * b)
        by (apply Qmult_lt_compat_r; [exact Hb|exact H2]).
      lra.
Qed.

Lemma Math_ceil_opp_of_mantissa m3 e3 :
  (0 <= m3)%Z ->
  exists n, Math_ceil (SFopp (of_mantissa m3 e3)) = Some n /\
            inject_Z n - 1 < - (inject_Z m3 * bpow e3) /\
            - (inject_Z m3 * bpow e3) <= inject_Z n.
Proof.
  intros Hm. destruct m3 as [|p|p]; [| |lia]; cbn [of_mantissa SFopp Math_ceil negb].
  - exists 0%Z. split; [reflexivity|]. change (inject_Z 0) with 0. lra.
  - destruct (Z.leb_spec 0 e3) as [He|He].
    + exists (Z.neg p * 2 ^ e3)%Z. split; [reflexivity|].
      rewrite inject_Z_mult, <- bpow_Z by exact He.
      change (Z.neg p) with (- Z.pos p)%Z. rewrite inject_Z_opp. lra.
    + set (h := (2 ^ (- e3))%Z).
      assert (Hh : (0 < h)%Z) by (apply Z.pow_pos_nonneg; lia).
      change (- Z.neg p)%Z with (Z.pos p).
      exists (- (Z.pos p / h))%Z. split; [reflexivity|].
      set (f := (Z.pos p / h)%Z).
      assert (H1 : (h * f <= Z.pos p)%Z) by (apply Z.mul_div_le; lia).
      assert (H2 : (Z.pos p < h * (f + 1))%Z).
      { replace (f + 1)%Z with (Z.succ f) by lia. apply Z.mul_succ_div_gt. lia. }
      set (b := bpow e3). assert (Hb : 0 < b) by apply bpow_pos.
      assert (Hinv : inject_Z h * b == 1).
      { subst h b. rewrite <- bpow_Z by lia. rewrite <- bpow_add.
        replace (- e3 + e3)%Z with 0%Z by lia. reflexivity. }
      rewrite Zle_Qle in H1. rewrite Zlt_Qlt in H2.
      rewrite ?inject_Z_mult, ?inject_Z_plus in H1, H2.
      rewrite ?inject_Z_plus in H2. change (inject_Z 1) with 1 in H2.
      rewrite inject_Z_opp.
      assert (Hf : inject_Z f == (inject_Z h * inject_Z f) * b).
      { transitivity (inject_Z f * (inject_Z h * b)); [rewrite Hinv|]; ring. }
      assert (Hf1 : inject_Z f + 1 == (inject_Z h * (inject_Z f + 1)) * b).
      { transitivity ((inject_Z f + 1) * (inject_Z h * b)); [rewrite Hinv|]; ring. }
      assert (Ha : inject_Z h * inject_Z f * b <= inject_Z (Z.pos p) * b)
        by (apply Qmult_le_compat_r; [exact H1|lra]).
      assert (Hc : inject_Z (Z.pos p) * b < inject_Z h * (inject_Z f + 1) * b)
        by (apply Qmult_lt_compat_r; [exact Hb|exact H2]).
      lra.
Qed.

Lemma ceiling_unique n j v :
  inject_Z n - 1 < v -> v <= inject_Z n ->
  inject_Z j - 1 < v -> v <= inject_Z j -> n = j.
Proof.
  intros H1 H2 H3 H4.
  assert (Ha : inject_Z n < inject_Z (j + 1))
    by (rewrite inject_Z_plus; change (inject_Z 1) with 1; lra).
  assert (Hb : inject_Z j < inject_Z (n + 1))
    by (rewrite inject_Z_plus; change (inject_Z 1) with 1; lra).
  rewrite <- Zlt_Qlt in Ha, Hb. lia.
Qed.

(** [Math.ceil(d / c)] for integers, computed in Numbers, is the ceiling
    of the exact quotient. *)
Lemma Math_ceil_div_integers d c :
  (0 < c < 2 ^ 27)%Z -> (Z.abs d < 2 ^ 24 * c)%Z -> (Z.abs d < 2 ^ 53)%Z ->
  Math_ceil (Number_div (Number_of_Z d) (Number_of_Z c)) = Some (- (- d / c))%Z.
Proof.
  intros Hc Hd Hd53.
  rewrite (Number_of_Z_canonical c) by lia.
  replace (c <? 0)%Z with false by (symmetry; apply Z.ltb_ge; lia).
  replace (Z.abs c) with c by lia.
  destruct (Number_canonical_exponent c ltac:(lia)) as [Hec Hmc].
  destruct (Z.eq_dec d 0) as [->|Hd0].
  - change (Number_of_Z 0) with (S754_zero false).
    unfold Number_canonical, Number_div. cbn [SFdiv xorb Math_ceil].
    rewrite Z.div_0_l by lia. reflexivity.
  - rewrite (Number_of_Z_canonical d) by lia.
    destruct (Number_canonical_exponent (Z.abs d) ltac:(lia)) as [Hez Hmz].
    destruct (SFdiv_integers _ _ _ _ (Z.abs d) c ltac:(lia) Hc Hd Hez Hmz Hec Hmc)
      as (m3 & e3 & Hm3 & Hres & Hexact & Hbetween).
    set (z := Z.abs d) in *. set (j := (z / c)%Z) in *.
    remember (inject_Z m3 * bpow e3) as v eqn:Ev.
    destruct (Z.ltb_spec d 0) as [Hneg|Hpos].
    + (* a negative difference *)
      unfold Number_canonical at 1, Number_div.
      unfold Number_canonical at 1. rewrite SFdiv_opp.
      unfold Number_canonical in Hres. rewrite Hres.
      destruct (Math_ceil_opp_of_mantissa m3 e3 Hm3) as (n & Hn & Hn1 & Hn2).
      rewrite <- Ev in Hn1, Hn2. rewrite Hn. f_equal.
      replace (- d)%Z with z by (subst z; lia). fold j.
      apply (ceiling_unique n (- j) (- v)); try assumption.
      * rewrite inject_Z_opp.
        destruct (Z.eq_dec (z mod c) 0) as [H0|H0];
          [rewrite (Hexact H0)|destruct (Hbetween H0)]; lra.
      * rewrite inject_Z_opp.
        destruct (Z.eq_dec (z mod c) 0) as [H0|H0];
          [rewrite (Hexact H0)|destruct (Hbetween H0)]; lra.
    + (* a positive difference *)
      unfold Number_div. unfold Number_canonical in Hres |- *. rewrite Hres.
      destruct (Math_ceil_of_mantissa m3 e3 Hm3) as (n & Hn & Hn1 & Hn2).
      rewrite <- Ev in Hn1, Hn2. rewrite Hn. f_equal.
      assert (Hzd : z = d) by (subst z; lia).
      destruct (Z.eq_dec (z mod c) 0) as [H0|H0].
      * rewrite <- Hzd, Z.div_opp_l_z by lia. rewrite Z.opp_involutive. fold j.
        specialize (Hexact H0).
        apply (ceiling_unique n j v); try assumption; lra.
      * rewrite <- Hzd, Z.div_opp_l_nz by lia. fold j.
        destruct (Hbetween H0) as [Hb1 Hb2].
        replace (- (- j - 1))%Z with (j + 1)%Z by lia.
        apply (ceiling_unique n (j + 1) v); try assumption;
          rewrite inject_Z_plus; change (inject_Z 1) with 1; lra.
Qed.

End DaysUntilDue.

Lemma daysUntilDue_ceiling (now due : Z) (task : Task) :
  dueDate task = Some due ->
  - maxTime <= due <= maxTime -> - maxTime <= now <= maxTime ->
  Z.abs (due - now) < 2 ^ 24 * 86400000 ->
  daysUntilDue now task = Some (- ((now - due) / 86400000)).
Proof.
  intros Hdue Hd Hn Hfar. unfold daysUntilDue. rewrite Hdue.
  rewrite Number_sub_exact by (unfold maxTime in *; lia).
  change (1000 * 60 * 60 * 24) with 86400000.
  rewrite Math_ceil_div_integers by lia.
  do 3 f_equal. lia.
Qed.

(** X27. The number of days on the card is the exact ceiling of the time left
    in days, negative once the due date has passed by a day or more; an
    Invalid Date as due date gives no number. The due date is to lie
    within 2^24 days of the clock. *)
Theorem daysUntilDue_exact (now due : Z) (task : Task) :
  - maxTime <= due <= maxTime -> - maxTime <= now <= maxTime ->
  Z.abs (due - now) < 2 ^ 24 * 86400000 ->
  (dueDate task = Some due ->
   exists n, daysUntilDue now task = Some n /\
             86400000 * (n - 1) < due - now <= 86400000 * n) /\
  (dueDate task = None -> daysUntilDue now task = None).
Proof.
  intros Hd Hn Hfar. split.
  - intros Hdue. rewrite (daysUntilDue_ceiling now due task Hdue Hd Hn Hfar).
    eexists. split; [reflexivity|].
    Z.to_euclidean_division_equations. lia.
  - intros Hdue. unfold daysUntilDue. rewrite Hdue. reflexivity.
Qed.

(** X28. The line [Due in N days] is shown exactly for an uncompleted task
    due within seven days or overdue by less than one: in that last case
    the card reads [Overdue] and [Due in 0 days] at once. *)
Theorem due_in_line_shown (now1 now2 due : Z) (task : Task) :
  dueDate task = Some due ->
  - maxTime <= due <= maxTime -> - maxTime <= now2 <= maxTime ->
  Z.abs (due - now2) < 2 ^ 24 * 86400000 ->
  (due_in_line now2 task <> None <->
   isCompleted task = false /\ - 86400000 < due - now2 <= 7 * 86400000) /\
  (isCompleted task = false -> due < now1 -> now1 <= now2 -> now2 - due < 86400000 ->
   isTaskOverdue now1 task = true /\ due_in_line now2 task = Some (0, "days")).
Proof.
  intros Hdue Hd Hn Hfar.
  pose proof (daysUntilDue_ceiling now2 due task Hdue Hd Hn Hfar) as Hdays.
  unfold due_in_line. rewrite Hdays.
  set (n := - ((now2 - due) / 86400000)).
  assert (Hn' : 86400000 * (n - 1) < due - now2 <= 86400000 * n).
  { subst n. Z.to_euclidean_division_equations. lia. }
  clearbody n. split.
  - destruct (isCompleted task); cbn [negb andb].
    + split; [intros H; exfalso; apply H; reflexivity|intros [H _]; discriminate].
    + destruct (Z.leb_spec 0 n), (Z.leb_spec n 7); cbn [andb]; split;
        solve [ intros _; split; [reflexivity|lia]
              | intros _; discriminate
              | intros Hx; exfalso; apply Hx; reflexivity
              | intros [_ Hx]; exfalso; lia ].
  - intros Hc Hpast Hclock Hday. split.
    + unfold isTaskOverdue. rewrite Hc, Hdue. cbn [negb andb Date_ltb].
      apply Z.ltb_lt. exact Hpast.
    + rewrite Hc. cbn [negb andb].
      assert (n = 0) as -> by lia. reflexivity.
Qed.

(** ** Part III. Worked instances *)

Example created_once_task :
  created_once
  = [ {| id := "1705312800123-k3j9x2q1a"; title := "Buy milk"; description := "two litres";
         startDate := Some 1705276800000; dueDate := Some 1705881600000;
         completionPercentage := 0; status := pending;
         category := personal; priority := low; isCompleted := false;
         createdAt := Some 1705312800123; updatedAt := Some 1705312800123 |} ].
Proof. reflexivity. Qed.

Lemma reachable_checked_then_unchecked :
  reachable ISO8601.parse checked_then_unchecked.
Proof. repeat constructor. Qed.

(** C1, as stated, fails: a task checked and then unchecked stands at 100
    percent with its flag cleared and the status [in_progress]. *)
Lemma C1_untoggled_task_breaks_agreement :
  reachable ISO8601.parse checked_then_unchecked /\
  exists t, In t checked_then_unchecked /\
            completionPercentage t = 100 /\ isCompleted t = false /\
            status t = in_progress /\ ~ consistent t.
Proof.
  split; [exact reachable_checked_then_unchecked|].
  eexists. split; [left; reflexivity|].
  repeat split.
  intros [[H _] _]. specialize (H eq_refl). discriminate.
Qed.

Example checked_then_unchecked_task :
  checked_then_unchecked = [unchecked_task].
Proof. reflexivity. Qed.

Lemma C1_witness :
  reachable ISO8601.parse checked_then_unchecked /\
  In unchecked_task checked_then_unchecked /\
  (isCompleted unchecked_task = true <-> status unchecked_task = completed) /\
  (isCompleted unchecked_task = true -> completionPercentage unchecked_task = 100) /\
  0 <= completionPercentage unchecked_task <= 100.
Proof.
  assert (Hin : In unchecked_task checked_then_unchecked) by (left; reflexivity).
  split; [exact reachable_checked_then_unchecked|]. split; [exact Hin|].
  exact (C1_reachable_flag_status_agree ISO8601.parse checked_then_unchecked
           unchecked_task reachable_checked_then_unchecked Hin).
Defined.

Lemma C2_witness :
  0 <= 100 <= 100 /\ In "2" (map id scenario) /\
  let tasks' := handleUpdateProgress "2" 100 5000 scenario in
  List.length tasks' = List.length scenario /\
  (exists i t', nth_error tasks' i = Some t' /\ id t' = "2" /\
                completionPercentage t' = 100) /\
  forall i t, nth_error scenario i = Some t ->
    exists t', nth_error tasks' i = Some t' /\
      (id t <> "2" -> t' = t) /\
      (id t = "2" ->
         completionPercentage t' = 100 /\
         (100 = 100 -> status t' = completed) /\
         (0 < 100 < 100 -> status t' = in_progress) /\
         (100 = 0 -> status t' = pending) /\
         isCompleted t' = (100 =? 100) /\
         updatedAt t' = Some 5000 /\
         id t' = id t /\ title t' = title t /\ description t' = description t /\
         startDate t' = startDate t /\ dueDate t' = dueDate t /\
         category t' = category t /\ priority t' = priority t /\
         createdAt t' = createdAt t).
Proof.
  assert (Hrange : 0 <= 100 <= 100) by lia.
  assert (Hin : In "2" (map id scenario)) by (simpl; auto).
  split; [exact Hrange|]. split; [exact Hin|].
  exact (C2_updateProgress_spec scenario "2" 100 5000 Hrange Hin).
Defined.

Example scenario_update_2 :
  map (fun t => (completionPercentage t, status t, isCompleted t, updatedAt t))
      (handleUpdateProgress "2" 100 5000 scenario)
  = [ (0, pending, false, Some 0);
      (100, completed, true, Some 5000);
      (100, completed, true, Some 0) ].
Proof. reflexivity. Qed.

Lemma C3_witness :
  In "1" (map id scenario) /\
  let tasks' := handleToggleComplete "1" 5000 scenario in
  List.length tasks' = List.length scenario /\
  (exists i t', nth_error tasks' i = Some t' /\ id t' = "1" /\
                updatedAt t' = Some 5000) /\
  forall i t, nth_error scenario i = Some t -> id t = "1" ->
    exists t', nth_error tasks' i = Some t' /\
      isCompleted t' = negb (isCompleted t) /\
      (isCompleted t' = true ->
         completionPercentage t' = 100 /\ status t' = completed) /\
      (isCompleted t' = false ->
         completionPercentage t' = completionPercentage t /\
         (0 < completionPercentage t -> status t' = in_progress) /\
         (completionPercentage t <= 0 -> status t' = pending)) /\
      updatedAt t' = Some 5000.
Proof.
  assert (Hin : In "1" (map id scenario)) by (simpl; auto).
  split; [exact Hin|].
  exact (C3_toggleComplete_spec scenario "1" 5000 Hin).
Defined.

Example scenario_toggle_1 :
  map (fun t => (completionPercentage t, status t, isCompleted t, updatedAt t))
      (handleToggleComplete "1" 5000 scenario)
  = [ (100, completed, true, Some 5000);
      (40, in_progress, false, Some 0);
      (100, completed, true, Some 0) ].
Proof. reflexivity. Qed.

Lemma C8_witness :
  handleDeleteTask "9" true scenario = scenario /\
  handleToggleComplete "9" 5000 scenario = scenario /\
  handleUpdateProgress "9" 50 5000 scenario = scenario.
Proof.
  apply (proj1 (C8_missing_id_noop scenario "9")).
  simpl. intros [H|[H|[H|[]]]]; discriminate.
Defined.

(** C5, as stated, fails: a task created with the start date left empty
    holds an Invalid Date, which is saved as [null] and loaded as the
    epoch. *)
Lemma C5_invalid_date_not_restored :
  map startDate created_without_start = [None] /\
  option_map (fun r => map startDate (fst r))
    (load ISO8601.parse (save ISO8601.toISOString created_without_start empty_storage))
  = Some [Some 0] /\
  load ISO8601.parse (save ISO8601.toISOString created_without_start empty_storage)
  <> Some (created_without_start, []).
Proof.
  split; [reflexivity|]. split; [vm_compute; reflexivity|].
  vm_compute. discriminate.
Qed.

Lemma valid_dates_created_once : Forall valid_dates created_once.
Proof.
  rewrite created_once_task. constructor; [|constructor].
  unfold valid_dates, valid_Date, maxTime; simpl.
  repeat split; eexists; (split; [reflexivity|lia]).
Qed.

Lemma C5_witness :
  load ISO8601.parse (save ISO8601.toISOString created_once empty_storage)
  = Some (created_once, []).
Proof.
  exact (C5_load_save_valid_dates ISO8601.toISOString ISO8601.parse
           parse_toISOString created_once empty_storage valid_dates_created_once).
Defined.

Example saved_document :
  save ISO8601.toISOString created_once empty_storage "tasks"
  = Some (Document (JArr [ JObj [
      ("id", JStr "1705312800123-k3j9x2q1a");
      ("title", JStr "Buy milk");
      ("description", JStr "two litres");
      ("startDate", JStr "2024-01-15T00:00:00.000Z");
      ("dueDate", JStr "2024-01-22T00:00:00.000Z");
      ("completionPercentage", JNum 0);
      ("status", JStr "pending");
      ("category", JStr "personal");
      ("priority", JStr "low");
      ("isCompleted", JBool false);
      ("createdAt", JStr "2024-01-15T10:00:00.123Z");
      ("updatedAt", JStr "2024-01-15T10:00:00.123Z") ] ])).
Proof. vm_compute. reflexivity. Qed.

Lemma ASCII_scenario_task_2 :
  ASCII "REP" /\ ASCII "Write report" /\ ASCII EmptyString.
Proof. cbn. repeat split; lia. Defined.



Lemma C9_witness :
  load ISO8601.parse empty_storage = Some ([], []) /\
  load ISO8601.parse (setItem "tasks" Malformed empty_storage)
  = Some ([], [console_error "Error loading tasks:" SyntaxError]).
Proof.
  split.
  - apply (proj1 (C9_load_absent_or_malformed ISO8601.parse empty_storage)).
    reflexivity.
  - apply (proj1 (proj2 (C9_load_absent_or_malformed ISO8601.parse
                           (setItem "tasks" Malformed empty_storage)))).
    reflexivity.
Defined.

Lemma C10_witness :
  let s := calculateTaskStats 1 scenario in
  0 <= Stats.completedTasks s <= Stats.totalTasks s /\
  0 <= Stats.inProgressTasks s <= Stats.totalTasks s /\
  0 <= Stats.pendingTasks s <= Stats.totalTasks s /\
  0 <= Stats.overdueTasks s <= Stats.totalTasks s /\
  exists n, Stats.completionPercentage s = Some n /\ 0 <= n <= 100.
Proof.
  apply (C10_stats_bounded 1 scenario). vm_compute. reflexivity.
Defined.

(** The scenarios of the specification. *)
Example scenario_stats :
  calculateTaskStats 1 scenario
  = {| Stats.totalTasks := 3; Stats.completedTasks := 1;
       Stats.inProgressTasks := 1; Stats.pendingTasks := 1;
       Stats.overdueTasks := 2; Stats.completionPercentage := Some 33 |}.
Proof. vm_compute. reflexivity. Qed.

Example scenario_stats_after_update :
  let s := calculateTaskStats 1 (handleUpdateProgress "1" 100 5000 scenario) in
  Stats.completedTasks s = 2 /\ Stats.completionPercentage s = Some 67.
Proof. vm_compute. split; reflexivity. Qed.

Example scenario_search_rep :
  map title (filteredTasks string_toLowerCase scenario "rep" all) = ["Write report"].
Proof. reflexivity. Qed.

(** *** Instances of the further properties *)

Lemma scenario_ids_distinct : NoDup (map id scenario).
Proof.
  repeat constructor; simpl; intuition discriminate.
Defined.

Lemma create_then_delete_witness :
  handleDeleteTask "4" true
    (handleCreateTask ISO8601.parse sample_form "4" 1705312800123 1705312800123 scenario)
  = scenario.
Proof.
  apply (create_then_delete ISO8601.parse sample_form "4" 1705312800123 1705312800123
           scenario).
  simpl. intros [H|[H|[H|[]]]]; discriminate.
Defined.

Lemma delete_removes_exactly_witness :
  ~ In "2" (map id (handleDeleteTask "2" true scenario)) /\
  filter (fun t => String.eqb (id t) "1") (handleDeleteTask "2" true scenario)
  = filter (fun t => String.eqb (id t) "1") scenario.
Proof.
  pose proof (delete_removes_exactly "2" scenario) as (Hgone & _ & Hkept).
  split; [exact Hgone|]. apply Hkept. discriminate.
Defined.

Lemma updateProgress_then_toggle_witness :
  let t := toggled 20 (progressed 100 10 (scenario_task "1" "Buy milk" pending low 0 false)) in
  completionPercentage t = 100 /\ isCompleted t = false /\ status t = in_progress /\
  updatedAt t = Some 20.
Proof.
  apply (updateProgress_then_toggle "1" 10 20 scenario).
  - left. reflexivity.
  - reflexivity.
Defined.

Lemma handlers_on_distinct_ids_commute_witness :
  handleUpdateProgress "1" 60 10 (handleToggleComplete "2" 20 scenario)
  = handleToggleComplete "2" 20 (handleUpdateProgress "1" 60 10 scenario).
Proof.
  apply (handlers_on_distinct_ids_commute "1" "2" 60 30 10 20 scenario). discriminate.
Defined.

Lemma distinct_ids_kept_witness :
  NoDup (map id (handleDeleteTask "2" true scenario)) /\
  NoDup (map id (handleToggleComplete "2" 20 scenario)) /\
  NoDup (map id (handleUpdateProgress "2" 60 20 scenario)).
Proof.
  pose proof (distinct_ids_kept ISO8601.parse "2" 60 20 true scenario
                scenario_ids_distinct) as (Hd & Ht & Hu & _).
  repeat split; assumption.
Defined.

Lemma stamps_in_order_witness :
  Forall (stamped_by 30)
    (handleToggleComplete "1" 30 (handleCreateTask ISO8601.parse sample_form "1" 10 20 [])).
Proof.
  apply (stamps_in_order ISO8601.parse).
  apply (by_toggle _ 20); [|lia].
  apply (by_create _ 0); [apply by_initial|lia|lia].
Defined.

Lemma scenario_has_dates :
  Forall (fun t => has_Date (startDate t) /\ has_Date (dueDate t)) scenario.
Proof.
  repeat constructor; exists 0; reflexivity.
Defined.

(** Three tasks due at 5, 4 and 6, to be put in order. *)
Lemma sortTasks_by_date_witness :
  let tasks := [due_at "A" 5; due_at "B" 4; due_at "C" 6] in
  StronglySorted (fun a b => Date_le (dueDate a) (dueDate b))
    (sortTasks string_toLowerCase codeunit_compare tasks by_due_date asc) /\
  StronglySorted (fun a b => Date_le (dueDate b) (dueDate a))
    (sortTasks string_toLowerCase codeunit_compare tasks by_due_date desc) /\
  map id (sortTasks string_toLowerCase codeunit_compare tasks by_due_date asc)
  = ["B"; "A"; "C"] /\
  map id (sortTasks string_toLowerCase codeunit_compare tasks by_due_date desc)
  = ["C"; "A"; "B"].
Proof.
  pose proof (sortTasks_by_date string_toLowerCase codeunit_compare
                [due_at "A" 5; due_at "B" 4; due_at "C" 6]) as H.
  destruct H as (_ & _ & _ & Hasc & Hdesc & _).
  - repeat constructor; eexists; reflexivity.
  - cbv zeta. split; [exact Hasc|]. split; [exact Hdesc|]. split; reflexivity.
Defined.

Lemma codeunit_compare_antisym (a b : string) :
  Z.sgn (codeunit_compare b a) = - Z.sgn (codeunit_compare a b).
Proof.
  unfold codeunit_compare. rewrite (String.compare_antisym a b).
  destruct (String.compare b a); reflexivity.
Qed.

Lemma codeunit_compare_le (a b : string) :
  codeunit_compare a b <= 0 <-> a = b \/ OrderedTypeEx.String_as_OT.lt a b.
Proof.
  unfold codeunit_compare.
  pose proof (OrderedTypeEx.String_as_OT.cmp_eq a b) as He.
  pose proof (OrderedTypeEx.String_as_OT.cmp_lt a b) as Hl.
  change (OrderedTypeEx.String_as_OT.cmp a b) with (String.compare a b) in He, Hl.
  destruct (String.compare a b); split; intros H; try lia.
  - left. apply He. reflexivity.
  - right. apply Hl. reflexivity.
  - exfalso. destruct H as [H|H]; [apply He in H|apply Hl in H]; discriminate.
Qed.

Lemma codeunit_compare_trans (a b c : string) :
  codeunit_compare a b <= 0 -> codeunit_compare b c <= 0 -> codeunit_compare a c <= 0.
Proof.
  rewrite !codeunit_compare_le. intros [->|Hab] [->|Hbc]; auto.
  right. eapply OrderedTypeEx.String_as_OT.lt_trans; eassumption.
Qed.

Lemma sortTasks_alphabetical_witness :
  StronglySorted
    (fun a b => codeunit_compare (string_toLowerCase (title a))
                                 (string_toLowerCase (title b)) <= 0)
    (sortTasks string_toLowerCase codeunit_compare scenario by_alphabetical asc) /\
  map title (sortTasks string_toLowerCase codeunit_compare scenario by_alphabetical asc)
  = ["Buy milk"; "Pay rent"; "Write report"].
Proof.
  split; [|reflexivity].
  apply (sortTasks_alphabetical string_toLowerCase codeunit_compare scenario
           codeunit_compare_antisym codeunit_compare_trans).
Defined.

Lemma sortTasks_idempotent_witness :
  sortTasks string_toLowerCase codeunit_compare
    (sortTasks string_toLowerCase codeunit_compare scenario by_alphabetical desc)
    by_alphabetical desc
  = sortTasks string_toLowerCase codeunit_compare scenario by_alphabetical desc.
Proof.
  apply (sortTasks_idempotent string_toLowerCase codeunit_compare scenario
           by_alphabetical desc codeunit_compare_antisym scenario_has_dates).
Defined.

Lemma ASCII_scenario :
  Forall (fun t => ASCII (title t) /\ ASCII (description t)) scenario.
Proof. repeat constructor; cbn; repeat split; lia. Defined.

Lemma search_narrows_witness :
  incl (filteredTasks SpecialCasing.toLowerCase scenario ("Re" ++ "p") all)
       (filteredTasks SpecialCasing.toLowerCase scenario "Re" all) /\
  map title (filteredTasks SpecialCasing.toLowerCase scenario "Re" all)
  = ["Write report"; "Pay rent"] /\
  map title (filteredTasks SpecialCasing.toLowerCase scenario ("Re" ++ "p") all)
  = ["Write report"].
Proof.
  split; [|split; reflexivity].
  apply (search_narrows SpecialCasing.toLowerCase SpecialCasing_toLowerCase_ASCII
           scenario "Re" "p" all).
  - cbn. repeat split; lia.
  - cbn. repeat split; lia.
  - exact ASCII_scenario.
Defined.


Lemma stats_partition_reachable_witness :
  let s := calculateTaskStats 1 checked_then_unchecked in
  Stats.completedTasks s + Stats.inProgressTasks s + Stats.pendingTasks s
  = Stats.totalTasks s.
Proof.
  apply (stats_partition_reachable ISO8601.parse 1 checked_then_unchecked).
  unfold checked_then_unchecked, created_once.
  apply reach_toggle, reach_toggle, reach_create, reach_initial.
Defined.

Lemma overdue_grows_with_time_witness :
  let s := calculateTaskStats (-1) scenario in
  let s' := calculateTaskStats 1 scenario in
  Stats.overdueTasks s <= Stats.overdueTasks s' /\
  Stats.overdueTasks s = 0 /\ Stats.overdueTasks s' = 2.
Proof.
  split; [|split; reflexivity].
  apply (overdue_grows_with_time (-1) 1 scenario). lia.
Defined.

Lemma rate_extremes_witness :
  let s := calculateTaskStats 1 [scenario_task "3" "Pay rent" completed medium 100 true] in
  Stats.completionPercentage s = Some 100.
Proof.
  apply (rate_extremes 1 [scenario_task "3" "Pay rent" completed medium 100 true]).
  - vm_compute. split; reflexivity.
  - reflexivity.
Defined.

Lemma stats_follow_the_handlers_witness :
  let s := calculateTaskStats 1 scenario in
  let toggled_s := calculateTaskStats 1 (handleToggleComplete "3" 20 scenario) in
  let deleted_s := calculateTaskStats 1 (handleDeleteTask "3" true scenario) in
  Stats.totalTasks toggled_s = Stats.totalTasks s /\
  Stats.completedTasks toggled_s = Stats.completedTasks s + -1 /\
  Stats.totalTasks deleted_s = Stats.totalTasks s - 1.
Proof.
  apply (stats_follow_the_handlers "3" 20 1 scenario
           (scenario_task "3" "Pay rent" completed medium 100 true)
           scenario_ids_distinct).
  - right. right. left. reflexivity.
  - reflexivity.
Defined.

Lemma rate_half_up_unless_tie_witness :
  let s := calculateTaskStats 1 scenario in
  let r := round_half_up_percent (Stats.completedTasks s) (Stats.totalTasks s) in
  exists n, Stats.completionPercentage s = Some n /\
            (n = r \/
             n = r - 1 /\
             200 * Stats.completedTasks s + Stats.totalTasks s
             = 2 * Stats.totalTasks s * r).
Proof.
  apply (calculateTaskStats_rate_half_up_unless_tie 1 scenario).
  vm_compute. split; reflexivity.
Defined.

Lemma created_without_start_in_range : Forall dates_in_range created_without_start.
Proof.
  constructor; [|constructor].
  split; [|split; [|split]]; intros t H; vm_compute in H; try discriminate;
    injection H as <-; unfold maxTime; lia.
Defined.

Lemma load_save_reloaded_witness :
  load ISO8601.parse (save ISO8601.toISOString created_without_start empty_storage)
  = Some (map reloaded created_without_start, []) /\
  map startDate created_without_start = [None] /\
  map startDate (map reloaded created_without_start) = [Some 0].
Proof.
  split; [|split; reflexivity].
  apply (load_save_reloaded ISO8601.toISOString ISO8601.parse parse_toISOString
           created_without_start empty_storage empty_storage
           created_without_start_in_range).
Defined.

(** A task whose due date was left empty, not yet completed. *)
Lemma reload_makes_undated_tasks_overdue_witness :
  exists tasks',
    load ISO8601.parse
      (save ISO8601.toISOString
         (handleCreateTask ISO8601.parse
            {| form_title := "Call back"; form_description := EmptyString;
               form_startDate := "2024-01-15"; form_dueDate := EmptyString;
               form_category := work; form_priority := medium |}
            "1705312800123-k3j9x2q1a" 1705312800123 1705312800123 [])
         empty_storage)
    = Some (tasks', []) /\
    Stats.overdueTasks (calculateTaskStats 1705312800123 tasks') = 1.
Proof.
  destruct (reload_makes_undated_tasks_overdue ISO8601.toISOString ISO8601.parse
              parse_toISOString 1705312800123
              (handleCreateTask ISO8601.parse
                 {| form_title := "Call back"; form_description := EmptyString;
                    form_startDate := "2024-01-15"; form_dueDate := EmptyString;
                    form_category := work; form_priority := medium |}
                 "1705312800123-k3j9x2q1a" 1705312800123 1705312800123 [])
              empty_storage)
    as (tasks' & Hload & Hover & _).
  - constructor; [|constructor].
    split; [|split; [|split]]; intros t H; vm_compute in H; try discriminate;
      injection H as <-; unfold maxTime; lia.
  - lia.
  - exists tasks'. split; [exact Hload|]. rewrite Hover. reflexivity.
Defined.

Lemma handleExportTasks_utc_day_witness :
  exists date,
    snd (handleExportTasks ISO8601.toISOString 1705312800123 scenario)
    = "tasks-" ++ date ++ ".json" /\
    ISO8601.parse date = Some 1705276800000.
Proof.
  destruct (handleExportTasks_utc_day 1705312800123 scenario) as (date & Hn & Hp & _).
  - unfold maxTime. lia.
  - exists date. split; [exact Hn|exact Hp].
Defined.

Lemma daysUntilDue_exact_witness :
  exists n, daysUntilDue 1705312800123 unchecked_task = Some n /\
            86400000 * (n - 1) < 1705881600000 - 1705312800123 <= 86400000 * n.
Proof.
  apply (daysUntilDue_exact 1705312800123 1705881600000 unchecked_task).
  - unfold maxTime. lia.
  - unfold maxTime. lia.
  - vm_compute. reflexivity.
  - reflexivity.
Defined.

(** One second after the due date the card says both. *)
Lemma due_in_line_shown_witness :
  isTaskOverdue 1705881601000 unchecked_task = true /\
  due_in_line 1705881601000 unchecked_task = Some (0, "days").
Proof.
  apply (due_in_line_shown 1705881601000 1705881601000 1705881600000 unchecked_task).
  - reflexivity.
  - unfold maxTime. lia.
  - unfold maxTime. lia.
  - vm_compute. reflexivity.
  - reflexivity.
  - lia.
  - lia.
  - lia.
Defined.
